(** * fluent-child-process: line rings, completion gate and process session

    A shallow embedding of [lib/utils.js] (the newline splitter,
    [extractError] and [linesRing]) and of [lib/processor.js]
    ([_spawnChildProcess], [run], [kill]) together with the constructor of
    [lib/fluent-child-process.js], followed by the properties of the
    completion logic and of the line buffers.

    Conventions of the embedding.
    - A JavaScript string is a [string]; only the characters CR, LF, space
      and the opening square bracket are ever inspected by the code.
    - The exit code and the line capacity are integers [Z].  Of the value
      of the timeout option the code uses the truth value and the text that
      string concatenation gives for it; these two make up the model of
      the value, so that it stands for any number, whole or fractional.
    - The closures of [linesRing], [_spawnChildProcess] and [run] become
      records; every handler is a function from state to state.
    - [self.emit(...)], the completion callback, [childProc.kill(...)] and
      [logger.warn(...)] are recorded, in call order, in the [trace] of the
      session.  Listeners themselves are caller code and are taken to
      return; the session counts the listeners of ['stderr'] and of
      ['error'], because [run] reads the first count and because [emit]
      throws the error of an ['error'] emission that finds no listener. *)

From Stdlib Require Import ZArith List String Ascii Bool Lia Permutation.
From Stdlib Require Import DecimalString.
Import ListNotations.
Local Open Scope string_scope.
Local Open Scope list_scope.

(* ================================================================== *)
(** ** lib/utils.js *)
(* ================================================================== *)

Module Utils.

Definition CR : ascii := "013"%char.
Definition LF : ascii := "010"%char.

(** The separator used by [join('\n')]. *)
Definition nl : string := String LF "".

(** [str.split(nlRegexp)] with [nlRegexp = /\r\n|\r|\n/g]: the leftmost
    match is taken and the alternative [\r\n] is tried first, so CR LF is
    one separator while LF CR is two. *)
Fixpoint split_nl (s : string) : list string :=
  match s with
  | EmptyString => [""]
  | String c rest =>
      if (c =? CR)%char then
        match rest with
        | String c' rest' =>
            if (c' =? LF)%char then "" :: split_nl rest'
            else "" :: split_nl rest
        | EmptyString => "" :: split_nl rest
        end
      else if (c =? LF)%char then "" :: split_nl rest
      else
        match split_nl rest with
        | l :: ls => String c l :: ls
        | [] => [String c ""]
        end
  end.

(** [message.charAt(0) === ' ' || message.charAt(0) === '['] *)
Definition is_noise (message : string) : bool :=
  match message with
  | String c _ => (c =? " ")%char || (c =? "[")%char
  | EmptyString => false
  end.

(** The reducer of [extractError]: a noise line empties the accumulator,
    any other line is pushed. *)
Definition keep_message (messages : list string) (message : string)
  : list string :=
  if is_noise message then [] else messages ++ [message].

Definition extractError (stderr : string) : string :=
  concat nl (fold_left keep_message (split_nl stderr) []).

(** *** linesRing *)

(** A callback handed to [ring.callback] is a function value; it is
    identified by a number, and what it is called with is recorded as a
    list of deliveries. *)
Abbreviation observer := nat (only parsing).
Definition delivery := (observer * string)%type.

Record ring := mkRing {
  cbs : list observer;
  lines : list string;
  current : option string;
  closed : bool;
  max : Z
}.

Definition linesRing (maxLines : Z) : ring :=
  {| cbs := []; lines := []; current := None; closed := false;
     max := (maxLines - 1)%Z |}.

(** [emit(line)]: [cbs.forEach(function(cb) { cb(line); })] *)
Definition emit (r : ring) (line : string) : list delivery :=
  map (fun cb => (cb, line)) (cbs r).

(** [callback(cb)]: replay of the retained lines, then subscription. *)
Definition callback (cb : observer) (r : ring) : ring * list delivery :=
  ({| cbs := cbs r ++ [cb]; lines := lines r; current := current r;
      closed := closed r; max := max r |},
   map (fun l => (cb, l)) (lines r)).

(** [if (max > -1 && lines.length > max) lines.splice(0, lines.length - max)] *)
Definition evict (r_max : Z) (ls : list string) : list string :=
  if ((r_max >? -1) && (Z.of_nat (List.length ls) >? r_max))%Z
  then skipn (Z.to_nat (Z.of_nat (List.length ls) - r_max)) ls
  else ls.

(** [if (max > -1 && lines.length > max) lines.shift()] *)
Definition evict_one (r_max : Z) (ls : list string) : list string :=
  if ((r_max >? -1) && (Z.of_nat (List.length ls) >? r_max))%Z
  then tl ls
  else ls.

(** The state change of [append(str)] together with the lines it hands to
    [emit], in order.  [newLines.shift()] is the head of the split,
    [newLines.pop()] its last element; a split is never empty. *)
Definition append_lines (str : string) (r : ring) : ring * list string :=
  if closed r then (r, [])
  else if (str =? "")%string then (r, [])
  else
    let newLines := split_nl str in
    if (List.length newLines =? 1)%nat then
      let l := hd "" newLines in
      ({| cbs := cbs r; lines := lines r;
          current := Some (match current r with
                           | Some c => (c ++ l)%string
                           | None => l
                           end);
          closed := closed r; max := max r |}, [])
    else
      let '(completed, newLines1) :=
        match current r with
        | Some c => ([(c ++ hd "" newLines)%string], tl newLines)
        | None => ([], newLines)
        end in
      let emitted := completed ++ removelast newLines1 in
      ({| cbs := cbs r;
          lines := evict (max r) (lines r ++ emitted);
          current := Some (last newLines1 "");
          closed := closed r; max := max r |}, emitted).

Definition append (str : string) (r : ring) : ring * list delivery :=
  let '(r', emitted) := append_lines str r in
  (r', flat_map (emit r) emitted).

(** [get()] *)
Definition get (r : ring) : string :=
  match current r with
  | Some c => concat nl (lines r ++ [c])
  | None => concat nl (lines r)
  end.

(** The state change of [close()] and the line it hands to [emit]. *)
Definition close_lines (r : ring) : ring * list string :=
  if closed r then (r, [])
  else
    match current r with
    | Some c =>
        ({| cbs := cbs r;
            lines := evict_one (max r) (lines r ++ [c]);
            current := None; closed := true; max := max r |}, [c])
    | None =>
        ({| cbs := cbs r; lines := lines r; current := None;
            closed := true; max := max r |}, [])
    end.

Definition close (r : ring) : ring * list delivery :=
  let '(r', emitted) := close_lines r in
  (r', flat_map (emit r) emitted).

End Utils.

(* ================================================================== *)
(** ** lib/processor.js and lib/fluent-child-process.js *)
(* ================================================================== *)

Module Processor.
Import Utils.

(** A JavaScript [Error]; the code reads and extends its [message] only. *)
Record error := mkError { message : string }.

(** What a handler can throw. *)
Inductive exn :=
| NoCommandSpecified     (* [throw new Error('No command specified')] *)
| TypeErrorGetOfUndefined  (* [.get()] called on an [undefined] ring *)
| UnhandledError (e : error). (* [emit('error', e)] without listener:
                                 the emitter throws [e] *)

(** ['...' + code] for the exit code of a process, an integer of at most
    32 bits: JavaScript prints it in plain decimal digits. *)
Definition string_of_Z (n : Z) : string :=
  NilZero.string_of_int (Z.to_int n).

(** [s] has a substring [pat]: the truth value of a [match] against a
    regular expression that is a plain word. *)
Fixpoint contains (pat s : string) : bool :=
  prefix pat s ||
  match s with
  | String _ rest => contains pat rest
  | EmptyString => false
  end.

(** The calls the session makes on its collaborators, in call order. *)
Inductive notification :=
| EmitStart (command : string) (args : list string)
| EmitData (data : string)
| EmitStderr (line : string)
| EmitError (err : error) (stdout stderr : string)
| EmitEnd (stdout stderr : string)
| EndCallback (err : option error) (stdout stderr : string)
| ProcKill (signal : option string)
| LoggerWarn (msg : string)
| Uncaught (e : exn).

(** The value of the [timeout] option as [run] uses it: whether it is
    truthy (any number but 0 and NaN) and the text that ['...' + value]
    gives for it - "120" for 120, "0.5" for 0.5, "1e+21" for 10^21.  The
    delay of the timer is no part of the model: that the timer fires is an
    event. *)
Record seconds := mkSeconds { truthy : bool; text : string }.

(** The options object after the defaults of the constructor. *)
Record options := mkOptions {
  captureStdout : bool;
  stdoutLines : Z;
  timeout : option seconds
}.

(** The options object as the caller passes it. *)
Record raw_options := mkRawOptions {
  raw_captureStdout : option bool;
  raw_stdoutLines : option Z;
  raw_timeout : option seconds
}.

(** *** The completion gate: the flags and [exitError] of
    [_spawnChildProcess], and [handleExit] *)

Record gate := mkGate {
  processExited : bool;
  stdoutClosed : bool;
  stderrClosed : bool;
  exitError : option error
}.

Definition set_exitError (e : option error) (g : gate) : gate :=
  {| processExited := processExited g; stdoutClosed := stdoutClosed g;
     stderrClosed := stderrClosed g; exitError := e |}.

Definition new_gate : gate :=
  {| processExited := false; stdoutClosed := false; stderrClosed := false;
     exitError := None |}.

(** [processExited && (stdoutClosed || !options.captureStdout) && stderrClosed] *)
Definition gate_complete (capture : bool) (g : gate) : bool :=
  processExited g && (stdoutClosed g || negb capture) && stderrClosed g.

(** [handleExit(err)]; the second component is [Some e] when
    [endCB(e, stdoutRing, stderrRing)] is called, with [e] the value of
    [exitError]. *)
Definition handleExit (capture : bool) (err : option error) (g : gate)
  : gate * option (option error) :=
  let g' := match err with
            | Some e => set_exitError (Some e) g
            | None => g
            end in
  (g', if gate_complete capture g' then Some (exitError g') else None).

(** The argument that the ['exit'] handler gives to [handleExit]: a
    non-empty signal name and a non-zero code are the truthy values. *)
Definition exit_error (code : option Z) (signal : option string)
  : option error :=
  match signal with
  | Some (String a sg) =>
      Some (mkError ("child process target was killed with signal "
                     ++ String a sg)%string)
  | _ =>
      match code with
      | Some c =>
          if (c =? 0)%Z then None
          else Some (mkError ("child process target exited with code "
                              ++ string_of_Z c)%string)
      | None => None
      end
  end.

(** The three reports that reach the gate. *)
Inductive report :=
| ExitReport (code : option Z) (signal : option string)
| StdoutCloseReport
| StderrCloseReport.

Definition gate_report (capture : bool) (rp : report) (g : gate)
  : gate * option (option error) :=
  match rp with
  | ExitReport code signal =>
      handleExit capture (exit_error code signal)
        {| processExited := true; stdoutClosed := stdoutClosed g;
           stderrClosed := stderrClosed g; exitError := exitError g |}
  | StdoutCloseReport =>
      handleExit capture None
        {| processExited := processExited g; stdoutClosed := true;
           stderrClosed := stderrClosed g; exitError := exitError g |}
  | StderrCloseReport =>
      handleExit capture None
        {| processExited := processExited g; stdoutClosed := stdoutClosed g;
           stderrClosed := true; exitError := exitError g |}
  end.

(** *** The session: the command object and the closures of [run] *)

Record session := mkSession {
  command : string;
  args : list string;
  opts : options;
  stderr_listeners : nat;  (* [self.listeners('stderr').length] *)
  error_listeners : nat;   (* [self.listeners('error').length] *)
  childProc : bool;        (* [self.childProc] is set *)
  stdoutRing : ring;
  stderrRing : ring;
  the_gate : gate;
  ended : bool;
  timer : bool;            (* the [setTimeout] of [run] is pending *)
  trace : list notification
}.

Definition notify (n : notification) (s : session) : session :=
  {| command := command s; args := args s; opts := opts s;
     stderr_listeners := stderr_listeners s;
     error_listeners := error_listeners s; childProc := childProc s;
     stdoutRing := stdoutRing s; stderrRing := stderrRing s;
     the_gate := the_gate s; ended := ended s; timer := timer s;
     trace := trace s ++ [n] |}.

Definition set_ended (b : bool) (s : session) : session :=
  {| command := command s; args := args s; opts := opts s;
     stderr_listeners := stderr_listeners s;
     error_listeners := error_listeners s; childProc := childProc s;
     stdoutRing := stdoutRing s; stderrRing := stderrRing s;
     the_gate := the_gate s; ended := b; timer := timer s;
     trace := trace s |}.

Definition set_childProc (b : bool) (s : session) : session :=
  {| command := command s; args := args s; opts := opts s;
     stderr_listeners := stderr_listeners s;
     error_listeners := error_listeners s; childProc := b;
     stdoutRing := stdoutRing s; stderrRing := stderrRing s;
     the_gate := the_gate s; ended := ended s; timer := timer s;
     trace := trace s |}.

Definition set_timer (b : bool) (s : session) : session :=
  {| command := command s; args := args s; opts := opts s;
     stderr_listeners := stderr_listeners s;
     error_listeners := error_listeners s; childProc := childProc s;
     stdoutRing := stdoutRing s; stderrRing := stderrRing s;
     the_gate := the_gate s; ended := ended s; timer := b;
     trace := trace s |}.

Definition set_gate (g : gate) (s : session) : session :=
  {| command := command s; args := args s; opts := opts s;
     stderr_listeners := stderr_listeners s;
     error_listeners := error_listeners s; childProc := childProc s;
     stdoutRing := stdoutRing s; stderrRing := stderrRing s;
     the_gate := g; ended := ended s; timer := timer s;
     trace := trace s |}.

Definition set_stdoutRing (r : ring) (s : session) : session :=
  {| command := command s; args := args s; opts := opts s;
     stderr_listeners := stderr_listeners s;
     error_listeners := error_listeners s; childProc := childProc s;
     stdoutRing := r; stderrRing := stderrRing s;
     the_gate := the_gate s; ended := ended s; timer := timer s;
     trace := trace s |}.

Definition set_stderrRing (r : ring) (s : session) : session :=
  {| command := command s; args := args s; opts := opts s;
     stderr_listeners := stderr_listeners s;
     error_listeners := error_listeners s; childProc := childProc s;
     stdoutRing := stdoutRing s; stderrRing := r;
     the_gate := the_gate s; ended := ended s; timer := timer s;
     trace := trace s |}.

Definition add_stderr_listener (s : session) : session :=
  {| command := command s; args := args s; opts := opts s;
     stderr_listeners := S (stderr_listeners s);
     error_listeners := error_listeners s; childProc := childProc s;
     stdoutRing := stdoutRing s; stderrRing := stderrRing s;
     the_gate := the_gate s; ended := ended s; timer := timer s;
     trace := trace s |}.

Definition add_error_listener (s : session) : session :=
  {| command := command s; args := args s; opts := opts s;
     stderr_listeners := stderr_listeners s;
     error_listeners := S (error_listeners s); childProc := childProc s;
     stdoutRing := stdoutRing s; stderrRing := stderrRing s;
     the_gate := the_gate s; ended := ended s; timer := timer s;
     trace := trace s |}.

(** One ['error'] listener fewer; nothing to remove when none is
    attached. *)
Definition remove_error_listener (s : session) : session :=
  {| command := command s; args := args s; opts := opts s;
     stderr_listeners := stderr_listeners s;
     error_listeners := pred (error_listeners s); childProc := childProc s;
     stdoutRing := stdoutRing s; stderrRing := stderrRing s;
     the_gate := the_gate s; ended := ended s; timer := timer s;
     trace := trace s |}.

(** [emitEnd(err, stdout, stderr)] of [run].  [self.emit('error', ...)]
    on an emitter without ['error'] listener throws [err]: the call of the
    completion callback is then not reached, and [ended] stays set. *)
Definition emitEnd (err : option error) (stdout stderr : string)
  (s : session) : session * option exn :=
  if ended s then (s, None)
  else
    let s1 := set_ended true s in
    match err with
    | Some e =>
        let s2 := notify (EmitError e stdout stderr) s1 in
        if (error_listeners s =? 0)%nat then (s2, Some (UnhandledError e))
        else (notify (EndCallback err stdout stderr) s2, None)
    | None =>
        let s2 := notify (EmitEnd stdout stderr) s1 in
        (notify (EndCallback err stdout stderr) s2, None)
    end.

(** [endCB(err, stdoutRing, stderrRing)] of [run].  A ring argument that
    the caller left out is [None]; calling [.get()] on it throws.  The only
    call that passes rings is [endCB(exitError, ...)] in [handleExit], so on
    that path [err] is the very object held in [exitError] and the update
    of [err.message] shows there as well.  What [emitEnd] throws leaves
    [endCB] too. *)
Definition endCB (err : option error) (r_out r_err : option ring)
  (s : session) : session * option exn :=
  let s0 := set_childProc false s in
  match err with
  | Some e =>
      if contains "exited with code" (message e) then
        match r_err with
        | None => (s0, Some TypeErrorGetOfUndefined)
        | Some re =>
            let e' := mkError (message e ++ ": " ++ extractError (get re))%string in
            let s1 := set_gate (set_exitError (Some e') (the_gate s0)) s0 in
            match r_out with
            | None => (s1, Some TypeErrorGetOfUndefined)
            | Some ro => emitEnd (Some e') (get ro) (get re) s1
            end
        end
      else
        match r_out, r_err with
        | Some ro, Some re => emitEnd (Some e) (get ro) (get re) s0
        | _, _ => (s0, Some TypeErrorGetOfUndefined)
        end
  | None =>
      match r_out, r_err with
      | Some ro, Some re => emitEnd None (get ro) (get re) s0
      | _, _ => (s0, Some TypeErrorGetOfUndefined)
      end
  end.

(** A handler that threw: the exception leaves the handler uncaught. *)
Definition uncaught (r : session * option exn) : session :=
  match snd r with
  | Some e => notify (Uncaught e) (fst r)
  | None => fst r
  end.

(** A report to the gate followed, when the gate is complete, by
    [endCB(exitError, stdoutRing, stderrRing)]. *)
Definition report_to_gate (rp : report) (s : session) : session :=
  let '(g, fired) := gate_report (captureStdout (opts s)) rp (the_gate s) in
  let s1 := set_gate g s in
  match fired with
  | Some err =>
      uncaught (endCB err (Some (stdoutRing s1)) (Some (stderrRing s1)) s1)
  | None => s1
  end.

(** The observer that [processCB] registers on the stderr ring:
    [function (line) { self.emit('stderr', line); }]. *)
Definition stderr_forwarder : observer := 0.

Definition forward (ds : list delivery) (s : session) : session :=
  fold_left (fun s' d => notify (EmitStderr (snd d)) s') ds s.

(** What the platform and the caller do to a running session. *)
Inductive event :=
| ProcError (err : error)                       (* childProc 'error' *)
| ProcExit (code : option Z) (signal : option string) (* childProc 'exit' *)
| StdoutData (data : string)
| StdoutClose
| StderrData (data : string)
| StderrClose
| TimerFired
| OnStderr                                      (* [.on('stderr', fn)] *)
| OnError                                       (* [.on('error', fn)] *)
| OffError            (* [.removeListener('error', fn)], [fn] attached *)
| CallKill (signal : option string).            (* [.kill(signal)] *)

(** ['process ran into a timeout (' + self.options.timeout + 's)'] *)
Definition timeout_message (t : option seconds) : string :=
  ("process ran into a timeout ("
   ++ match t with
      | Some v => text v
      | None => "undefined"
      end ++ "s)")%string.

(** The value of [self.options.timeout] is truthy. *)
Definition timeout_set (o : options) : bool :=
  match timeout o with
  | Some t => truthy t
  | None => false
  end.

Definition step (ev : event) (s : session) : session :=
  match ev with
  | ProcError err => uncaught (endCB (Some err) None None s)
  | ProcExit code signal => report_to_gate (ExitReport code signal) s
  | StdoutData data =>
      if captureStdout (opts s) then
        let s1 := notify (EmitData data) s in
        set_stdoutRing (fst (append data (stdoutRing s1))) s1
      else s
  | StdoutClose =>
      if captureStdout (opts s) then
        report_to_gate StdoutCloseReport
          (set_stdoutRing (fst (close (stdoutRing s))) s)
      else s
  | StderrData data =>
      let '(r, ds) := append data (stderrRing s) in
      forward ds (set_stderrRing r s)
  | StderrClose =>
      let '(r, ds) := close (stderrRing s) in
      report_to_gate StderrCloseReport (forward ds (set_stderrRing r s))
  | TimerFired =>
      if timer s then
        let s1 := set_timer false s in
        let msg := timeout_message (timeout (opts s)) in
        match emitEnd (Some (mkError msg)) (get (stdoutRing s1))
                (get (stderrRing s1)) s1 with
        | (s2, None) => notify (ProcKill None) s2
        | (s2, Some e) => notify (Uncaught e) s2
        end
      else s
  | OnStderr => add_stderr_listener s
  | OnError => add_error_listener s
  | OffError => remove_error_listener s
  | CallKill signal =>
      if childProc s then
        notify (ProcKill (Some (match signal with
                                | Some (String a sg) => String a sg
                                | _ => "SIGKILL"
                                end))) s
      else notify (LoggerWarn "No running child process, cannot send signal") s
  end.

Definition run_events (evs : list event) (s : session) : session :=
  fold_left (fun s' ev => step ev s') evs s.

(** [run()], with [_spawnChildProcess] and [processCB] inlined;
    [listeners] and [handlers] are the numbers of ['stderr'] and of
    ['error'] listeners on the command object at the time of the call. *)
Definition run (cmd : string) (arguments : list string) (o : options)
  (listeners handlers : nat) : exn + session :=
  if (cmd =? "")%string then inl NoCommandSpecified
  else
    let maxLines := stdoutLines o in
    let '(r_err, replay) :=
      if (listeners =? 0)%nat then (linesRing maxLines, [])
      else callback stderr_forwarder (linesRing maxLines) in
    inr (forward replay
      {| command := cmd; args := arguments; opts := o;
         stderr_listeners := listeners; error_listeners := handlers;
         childProc := true;
         stdoutRing := linesRing maxLines; stderrRing := r_err;
         the_gate := new_gate; ended := false; timer := timeout_set o;
         trace := [EmitStart cmd arguments] |}).

(** The defaults set by the constructor. *)
Definition defaults (raw : raw_options) : options :=
  {| captureStdout := match raw_captureStdout raw with
                      | Some false => false
                      | _ => true
                      end;
     stdoutLines := match raw_stdoutLines raw with
                    | Some n => n
                    | None => 0%Z
                    end;
     timeout := raw_timeout raw |}.

(** [ChildProcessCommand(command, args, options, endCallback)]:
    [EventEmitter.call(this)] gives the new object an empty listener table
    and [run()] is called before the object is returned. *)
Definition ChildProcessCommand (cmd : string)
  (arguments : option (list string)) (raw : raw_options) : exn + session :=
  run cmd (match arguments with Some a => a | None => [] end)
    (defaults raw) 0 0.

End Processor.

(* ================================================================== *)
(** ** Notions used to state the properties *)
(* ================================================================== *)

Module Spec.
Import Utils Processor.

(** The text with every CR LF, lone CR and lone LF replaced by LF. *)
Fixpoint normalize_nl (s : string) : string :=
  match s with
  | EmptyString => ""
  | String c rest =>
      if (c =? CR)%char then
        match rest with
        | String c' rest' =>
            if (c' =? LF)%char then String LF (normalize_nl rest')
            else String LF (normalize_nl rest)
        | EmptyString => String LF ""
        end
      else String c (normalize_nl rest)
  end.

(** The chunks glued together, as the process wrote them. *)
Definition whole_text (chunks : list string) : string :=
  fold_right String.append "" chunks.

(** The chunks glued together after each was normalized on its own. *)
Definition chunkwise_text (chunks : list string) : string :=
  whole_text (map normalize_nl chunks).

Fixpoint ends_with_cr (s : string) : bool :=
  match s with
  | EmptyString => false
  | String c EmptyString => (c =? CR)%char
  | String _ rest => ends_with_cr rest
  end.

Definition starts_with_lf (s : string) : bool :=
  match s with
  | String c _ => (c =? LF)%char
  | EmptyString => false
  end.

(** No CR LF pair is cut by a chunk boundary. *)
Fixpoint crlf_safe (chunks : list string) : bool :=
  match chunks with
  | [] => true
  | c :: rest =>
      negb (ends_with_cr c && starts_with_lf (whole_text rest))
      && crlf_safe rest
  end.

(** The [n] most recent elements of a list. *)
Definition lastn {A} (n : nat) (l : list A) : list A :=
  skipn (List.length l - n) l.

(** What a ring of bound [m] (the field [max]) keeps of a history. *)
Definition kept (m : Z) (history : list string) : list string :=
  if (m >? -1)%Z then lastn (Z.to_nat m) history else history.

(** A script of calls on one ring. *)
Inductive ring_op :=
| Append (str : string)
| Close
| Callback (cb : observer).

(** One call: the new ring, the lines handed to [emit] and the calls made
    on observers. *)
Definition ring_step (op : ring_op) (r : ring)
  : ring * list string * list delivery :=
  match op with
  | Append str => (fst (append str r), snd (append_lines str r),
                   snd (append str r))
  | Close => (fst (close r), snd (close_lines r), snd (close r))
  | Callback cb => (fst (callback cb r), [], snd (callback cb r))
  end.

Fixpoint ring_run (ops : list ring_op) (r : ring)
  : ring * list string * list delivery :=
  match ops with
  | [] => (r, [], [])
  | op :: ops' =>
      let '(r1, e1, d1) := ring_step op r in
      let '(r2, e2, d2) := ring_run ops' r1 in
      (r2, e1 ++ e2, d1 ++ d2)
  end.

Definition ring_of (x : ring * list string * list delivery) : ring :=
  fst (fst x).
Definition emitted_of (x : ring * list string * list delivery)
  : list string := snd (fst x).
Definition delivered_of (x : ring * list string * list delivery)
  : list delivery := snd x.

(** A ring of capacity [maxLines] fed the chunks and then closed. *)
Definition fed_and_closed (maxLines : Z) (chunks : list string)
  : ring * list string * list delivery :=
  ring_run (map Append chunks ++ [Close]) (linesRing maxLines).

(** The lines an observer was called with, in call order. *)
Definition received (cb : observer) (ds : list delivery) : list string :=
  map snd (filter (fun d => (fst d =? cb)%nat) ds).

Definition registers (cb : observer) (op : ring_op) : bool :=
  match op with
  | Callback cb' => (cb' =? cb)%nat
  | _ => false
  end.

(** Terminal notifications and the completion callback. *)
Definition is_terminal (n : notification) : bool :=
  match n with
  | EmitError _ _ _ | EmitEnd _ _ => true
  | _ => false
  end.

Definition is_callback (n : notification) : bool :=
  match n with
  | EndCallback _ _ _ => true
  | _ => false
  end.

(** The completion callback call that carries the arguments of a terminal
    notification. *)
Definition callback_of (n : notification) : option notification :=
  match n with
  | EmitError e out err => Some (EndCallback (Some e) out err)
  | EmitEnd out err => Some (EndCallback None out err)
  | _ => None
  end.

(** Neither a terminal notification nor a completion callback call. *)
Definition quiet (tr : list notification) : Prop :=
  Forall (fun n => is_terminal n = false /\ is_callback n = false) tr.

(** The trace holds one terminal notification, at once followed by the one
    completion callback call, with the same arguments. *)
Definition ends_exactly_once (tr : list notification) : Prop :=
  exists front n cb back,
    tr = front ++ n :: cb :: back /\
    is_terminal n = true /\ callback_of n = Some cb /\
    quiet front /\ quiet back.

Definition terminal_count (tr : list notification) : nat :=
  List.length (filter is_terminal tr).

Definition callback_count (tr : list notification) : nat :=
  List.length (filter is_callback tr).

Definition is_stderr_line (n : notification) : bool :=
  match n with
  | EmitStderr _ => true
  | _ => false
  end.

(** The names of the signals the gate waits for. *)
Inductive signal_name := processExitedN | stdoutClosedN | stderrClosedN.

Definition signal_name_eqb (a b : signal_name) : bool :=
  match a, b with
  | processExitedN, processExitedN
  | stdoutClosedN, stdoutClosedN
  | stderrClosedN, stderrClosedN => true
  | _, _ => false
  end.

Definition report_name (rp : report) : signal_name :=
  match rp with
  | ExitReport _ _ => processExitedN
  | StdoutCloseReport => stdoutClosedN
  | StderrCloseReport => stderrClosedN
  end.

Definition required (capture : bool) : list signal_name :=
  processExitedN :: stderrClosedN ::
  (if capture then [stdoutClosedN] else []).

(** A sequence of reports: the final gate and, per report, whether
    [endCB] was called and with which error. *)
Fixpoint gate_run (capture : bool) (rps : list report) (g : gate)
  : gate * list (option (option error)) :=
  match rps with
  | [] => (g, [])
  | rp :: rest =>
      let '(g1, f) := gate_report capture rp g in
      let '(g2, fs) := gate_run capture rest g1 in
      (g2, f :: fs)
  end.


(** The flag of the gate that a signal name stands for. *)
Definition flag (n : signal_name) (g : gate) : bool :=
  match n with
  | processExitedN => processExited g
  | stdoutClosedN => stdoutClosed g
  | stderrClosedN => stderrClosed g
  end.

(** The error that [endCB] passes on: a message that matches
    [/exited with code/] is extended by the extract of the stderr text. *)
Definition augmented (err : option error) (stderr_text : string)
  : option error :=
  match err with
  | Some e =>
      if contains "exited with code" (message e)
      then Some (mkError (message e ++ ": "
                          ++ extractError stderr_text)%string)
      else Some e
  | None => None
  end.

(** The terminal notification and the callback call of [emitEnd]. *)
Definition terminal_pair (err : option error) (out errtext : string)
  : list notification :=
  [match err with
   | Some e => EmitError e out errtext
   | None => EmitEnd out errtext
   end; EndCallback err out errtext].

(** The ['error'] notification whose emission finds no listener: the
    emitter throws the error and the callback is not called. *)
Definition terminal_throw (e : error) (out errtext : string)
  : list notification :=
  [EmitError e out errtext; Uncaught (UnhandledError e)].

(** What the terminal emission puts on the trace; [heard] tells whether
    the emitter has an ['error'] listener. *)
Definition terminal_out (heard : bool) (err : option error)
  (out errtext : string) : list notification :=
  match err with
  | Some e =>
      if heard then terminal_pair err out errtext
      else terminal_throw e out errtext
  | None => terminal_pair None out errtext
  end.

(** The emitter has an ['error'] listener. *)
Definition listening (s : session) : bool :=
  negb (error_listeners s =? 0)%nat.

(** [emitEnd(err, ...)] would throw: the session has not ended, [err] is
    an error and no ['error'] listener is attached. *)
Definition emit_throws (err : option error) (s : session) : bool :=
  negb (ended s) &&
  match err with
  | Some _ => negb (listening s)
  | None => false
  end.

(** A handler whose last call is [emitEnd]: an exception of the emission
    leaves the handler uncaught. *)
Definition finish (err : option error) (out errtext : string)
  (s : session) : session :=
  uncaught (emitEnd err out errtext s).

Definition gate_done (s : session) : bool :=
  gate_complete (captureStdout (opts s)) (the_gate s).

Definition is_timer (ev : event) : bool :=
  match ev with
  | TimerFired => true
  | _ => false
  end.

(** The ring keeps the most recent lines of a history. *)
Definition retains (history : list string) (r : ring) : Prop :=
  lines r = kept (max r) history.

(** The text that an open ring stands for: the history of emitted lines
    followed by the pending partial line. *)
Definition pending_text (history : list string) (r : ring) : string :=
  match current r with
  | Some c => concat nl (history ++ [c])
  | None => concat nl history
  end.

Definition spells (history : list string) (r : ring) (text : string) : Prop :=
  closed r = false /\
  (current r = None -> history = []) /\
  pending_text history r = text.

(** How often an observer is subscribed, and scripts that do not register
    it. *)
Definition subscriptions (cb : observer) (r : ring) : nat :=
  count_occ Nat.eq_dec (cbs r) cb.

Definition no_register (cb : observer) (ops : list ring_op) : bool :=
  forallb (fun op => negb (registers cb op)) ops.

(** The five lines of the capacity scenario, without and with a newline
    after the last one. *)
Definition five_lines : string := concat nl ["1"; "2"; "3"; "4"; "5"].
Definition five_lines_nl : string := concat nl ["1"; "2"; "3"; "4"; "5"; ""].

(** The notifications that the forwarder makes of ring deliveries. *)
Definition stderr_lines (ds : list delivery) : list notification :=
  map (fun d => EmitStderr (snd d)) ds.

(** The trace holds one terminal emission: the terminal notification
    followed by the callback call or, for an ['error'] without listener,
    by the exception. *)
Definition ends_once (tr : list notification) : Prop :=
  exists front heard err out errtext back,
    tr = front ++ terminal_out heard err out errtext ++ back /\
    quiet front /\ quiet back.

(** How a handler moves the trace and the [ended] flag: it adds quiet
    notifications only, or it ends the session with one terminal
    emission. *)
Definition advance (s s' : session) : Prop :=
  (ended s' = ended s /\ exists q, trace s' = trace s ++ q /\ quiet q) \/
  (ended s = false /\ ended s' = true /\
   exists q1 heard err out errtext q2,
     trace s' = trace s ++ q1 ++ terminal_out heard err out errtext ++ q2 /\
     quiet q1 /\ quiet q2).

(** The trace is quiet until the session has ended, and holds one
    terminal emission afterwards. *)
Definition settled (s : session) : Prop :=
  if ended s then ends_once (trace s) else quiet (trace s).

(** The signals an event raises at the gate. *)
Definition raises (capture : bool) (ev : event) (n : signal_name) : bool :=
  match ev with
  | ProcExit _ _ => signal_name_eqb n processExitedN
  | StdoutClose => capture && signal_name_eqb n stdoutClosedN
  | StderrClose => signal_name_eqb n stderrClosedN
  | _ => false
  end.

(** Once the gate is complete the session has ended; a session that has
    ended has a complete gate or a configured timer that fired. *)
Definition accounted (s : session) : Prop :=
  (gate_done s = true -> ended s = true) /\
  (ended s = true ->
   gate_done s = true \/ (timer s = false /\ timeout_set (opts s) = true)) /\
  (timer s = true -> timeout_set (opts s) = true).

(** Whether the terminal emission goes on to the completion callback. *)
Definition called (heard : bool) (err : option error) : bool :=
  match err with
  | Some _ => heard
  | None => true
  end.

(** The simple usage of the README: the command is built with a timeout
    of 120 seconds and a completion callback, and no listener is
    attached. *)
Definition simple_usage : exn + session :=
  ChildProcessCommand "/lib/mediainfo" (Some ["--Output=XML"; "--Full"])
    (mkRawOptions None None (Some (mkSeconds true "120"))).

(** The message of the exit error and the stderr text of the scenario. *)
Definition exit_code_message (c : Z) : string :=
  ("child process target exited with code " ++ string_of_Z c)%string.

Definition progress_then_error : string :=
  concat nl ["  progress"; "real error"].

End Spec.

(* ================================================================== *)
(** ** lib/utils.js: the argument list, [copy] and [which] *)
(* ================================================================== *)

(** *** utils.args

    The closure variable [list] holds a reference to an array.
    [list.concat(...)] builds a new array and rebinds the variable,
    [list.splice(...)] changes the array in place and [get()] hands out the
    reference itself, so arrays live in a store and the argument list is
    the address it currently holds.  Arguments are strings; a count is a
    non-negative integer when it is given. *)
Module Args.

Definition store := list (list string).

Definition read (a : nat) (st : store) : list string := nth a st [].

Fixpoint write (a : nat) (v : list string) (st : store) : store :=
  match st, a with
  | [], _ => []
  | _ :: rest, O => v :: rest
  | x :: rest, S a' => x :: write a' v rest
  end.

(** A new array: it gets the next free address. *)
Definition alloc (v : list string) (st : store) : store * nat :=
  (st ++ [v], List.length st).

(** The function object returned by [utils.args()]: its closure variable. *)
Record argfunc := mkArgfunc { the_list : nat }.

(** [utils.args()] *)
Definition args (st : store) : store * argfunc :=
  let '(st', a) := alloc [] st in (st', mkArgfunc a).

(** [argfunc(x1, ..., xn)] and [argfunc([x1, ..., xn])]:
    [list = list.concat(...)] *)
Definition call (xs : list string) (f : argfunc) (st : store)
  : store * argfunc :=
  let '(st', a) := alloc (read (the_list f) st ++ xs) st in
  (st', mkArgfunc a).

(** [argfunc.clear()]: [list = []] *)
Definition clear (f : argfunc) (st : store) : store * argfunc :=
  let '(st', a) := alloc [] st in (st', mkArgfunc a).

(** [argfunc.get()]: the array itself, not a copy. *)
Definition get (f : argfunc) : nat := the_list f.

(** [list.indexOf(arg)]; [None] stands for -1. *)
Fixpoint indexOf (arg : string) (l : list string) : option nat :=
  match l with
  | [] => None
  | x :: rest =>
      if (x =? arg)%string then Some 0
      else match indexOf arg rest with
           | Some i => Some (S i)
           | None => None
           end
  end.

(** [l.slice(start, stop)] for non-negative bounds. *)
Definition slice (start stop : nat) (l : list string) : list string :=
  firstn (stop - start) (skipn start l).

(** The array after [l.splice(index, n)]. *)
Definition splice (index n : nat) (l : list string) : list string :=
  firstn index l ++ skipn (index + n) l.

(** [count || 0] *)
Definition or_zero (count : option nat) : nat :=
  match count with
  | Some c => c
  | None => 0
  end.

(** [argfunc.find(arg, count)]; [None] is [undefined]. *)
Definition find (arg : string) (count : option nat) (f : argfunc)
  (st : store) : option (list string) :=
  let l := read (the_list f) st in
  match indexOf arg l with
  | Some index => Some (slice (index + 1) (index + 1 + or_zero count) l)
  | None => None
  end.

(** [argfunc.remove(arg, count)] *)
Definition remove (arg : string) (count : option nat) (f : argfunc)
  (st : store) : store :=
  let l := read (the_list f) st in
  match indexOf arg l with
  | Some index => write (the_list f) (splice index (or_zero count + 1) l) st
  | None => st
  end.

(** [argfunc.clone()]: [cloned = utils.args(); cloned(list)] *)
Definition clone (f : argfunc) (st : store) : store * argfunc :=
  let '(st1, cloned) := args st in
  call (read (the_list f) st1) cloned st1.

(** The arguments currently in the list. *)
Definition contents (f : argfunc) (st : store) : list string :=
  read (the_list f) st.

End Args.

(** *** utils.copy

    [copy] reads own properties of [source] and assigns to [dest].  The
    source is the list of its own enumerable properties with the values
    that reading them gives, each key once; the order of the list is the
    order in which [Object.keys] lists them.  The destination is an
    ordinary, extensible object with writable own data properties, whose
    prototype is [Object.prototype] until an assignment replaces it. *)
Module Objects.
Section WithValues.
Variable V : Type.

(** Own properties. *)
Definition object := list (string * V).

(** The own property [key] of [o], if it has one. *)
Fixpoint obj_get (key : string) (o : object) : option V :=
  match o with
  | [] => None
  | (k, v) :: rest => if (k =? key)%string then Some v else obj_get key rest
  end.

(** The own property [key] is given the value [v]: replaced in place if
    there is one, created otherwise. *)
Fixpoint obj_set (key : string) (v : V) (o : object) : object :=
  match o with
  | [] => [(key, v)]
  | (k, w) :: rest =>
      if (k =? key)%string then (k, v) :: rest
      else (k, w) :: obj_set key v rest
  end.


(** What the ['__proto__'] setter of [Object.prototype] does with a
    value: it ignores a value that is neither an object nor null, it makes
    an object or null the new prototype, and it throws a [TypeError] when
    that would close a cycle. *)
Inductive setter_answer := Ignores | Adopts | Throws.
Variable proto_setter : V -> setter_answer.

(** [takes p key]: on an object whose prototype was replaced by [p], an
    assignment to a key that the object does not own creates an own
    property - the chain of [p] has no setter and no read-only property
    of that name. *)
Variable takes : V -> string -> bool.







End WithValues.
End Objects.

(** *** utils.which

    [whichCache] is a plain object: [name in whichCache] also holds for the
    properties every object inherits, which [inherited] stands for.  The
    resolver is the external [which] package; a call either answers at once
    from the cache or asks the resolver, whose answer arrives later. *)
Module Which.
Section WithPrototype.
Variable inherited : string -> bool.

(** The own properties of [whichCache]. *)
Definition cache := list (string * string).

(** What [whichCache[name]] evaluates to. *)
Inductive value :=
| Path (p : string)          (* an own property: a resolved path, or '' *)
| Inherited (name : string). (* a property of the prototype *)

(** [name in whichCache] *)
Definition cache_in (name : string) (c : cache) : bool :=
  match Objects.obj_get string name c with
  | Some _ => true
  | None => inherited name
  end.

(** [whichCache[name]] when [name in whichCache] *)
Definition cache_read (name : string) (c : cache) : value :=
  match Objects.obj_get string name c with
  | Some p => Path p
  | None => Inherited name
  end.

(** What a call of [utils.which(name, callback)] does before it returns. *)
Inductive outcome :=
| Answer (v : value)   (* [callback(null, v)] *)
| Ask.                 (* [which(name, ...)] of the resolver is called *)

Definition which (name : string) (c : cache) : outcome :=
  if cache_in name c then Answer (cache_read name c) else Ask.

(** The callback given to the resolver; [result] is [None] when the
    resolver reports an error.  It returns the cache and the path passed to
    [callback(null, ...)].  The resolver is asked only for a name that is
    not in the cache, own or inherited, so the assignment
    [whichCache[name] = ...] creates or replaces an own property. *)
Definition resolved (name : string) (result : option string) (c : cache)
  : cache * string :=
  match result with
  | None => (Objects.obj_set string name "" c, "")
  | Some r => (Objects.obj_set string name r c, r)
  end.

(** The cache after the resolver has answered a series of calls, in the
    order of the answers. *)
Definition resolutions (rs : list (string * option string)) (c : cache)
  : cache :=
  fold_left (fun c' r => fst (resolved (fst r) (snd r) c')) rs c.

(** The path cached by the last answer of the resolver for [name]. *)
Fixpoint last_answer (name : string) (rs : list (string * option string))
  : option string :=
  match rs with
  | [] => None
  | (n, result) :: rest =>
      match last_answer name rest with
      | Some p => Some p
      | None =>
          if (n =? name)%string
          then Some (snd (resolved n result []))
          else None
      end
  end.

End WithPrototype.
End Which.

(* ================================================================== *)
(** ** Notions used to state further properties *)
(* ================================================================== *)

Module Observe.
Import Utils Processor Spec.

(** The number of line terminators of a text, CR LF counting once. *)
Fixpoint terminators (s : string) : nat :=
  match s with
  | EmptyString => 0
  | String c rest =>
      if (c =? CR)%char then
        match rest with
        | String c' rest' =>
            if (c' =? LF)%char then S (terminators rest')
            else S (terminators rest)
        | EmptyString => 1
        end
      else if (c =? LF)%char then S (terminators rest)
      else terminators rest
  end.

(** A text without CR and LF. *)
Fixpoint one_line (s : string) : bool :=
  match s with
  | EmptyString => true
  | String c rest =>
      negb (c =? CR)%char && negb (c =? LF)%char && one_line rest
  end.

(** Lines without CR and LF. *)
Definition tidy (ls : list string) : Prop :=
  Forall (fun l => one_line l = true) ls.

(** The lines that [get()] joins. *)
Definition shown_lines (r : ring) : list string :=
  match current r with
  | Some c => lines r ++ [c]
  | None => lines r
  end.

(** A script of [append] and [close] calls only. *)
Definition feeds (op : ring_op) : bool :=
  match op with
  | Callback _ => false
  | _ => true
  end.

(** The calls that an event makes on the stderr ring and, when stdout is
    captured, on the stdout ring. *)
Definition stderr_op (ev : event) : list ring_op :=
  match ev with
  | StderrData data => [Append data]
  | StderrClose => [Close]
  | _ => []
  end.

Definition stdout_op (capture : bool) (ev : event) : list ring_op :=
  if capture then
    match ev with
    | StdoutData data => [Append data]
    | StdoutClose => [Close]
    | _ => []
    end
  else [].

Definition stderr_ops (evs : list event) : list ring_op :=
  flat_map stderr_op evs.

Definition stdout_ops (capture : bool) (evs : list event) : list ring_op :=
  flat_map (stdout_op capture) evs.

(** The chunks of the stdout data events, and the chunks of the ['data']
    notifications. *)
Definition stdout_chunks (evs : list event) : list string :=
  flat_map (fun ev => match ev with
                      | StdoutData data => [data]
                      | _ => []
                      end) evs.

Definition emitted_data (tr : list notification) : list string :=
  flat_map (fun n => match n with
                     | EmitData data => [data]
                     | _ => []
                     end) tr.

(** The lines of the ['stderr'] notifications. *)
Definition emitted_stderr (tr : list notification) : list string :=
  flat_map (fun n => match n with
                     | EmitStderr line => [line]
                     | _ => []
                     end) tr.

Definition is_start (n : notification) : bool :=
  match n with
  | EmitStart _ _ => true
  | _ => false
  end.

Definition is_proc_error (ev : event) : bool :=
  match ev with
  | ProcError _ => true
  | _ => false
  end.

(** What one step puts on the trace before and after its attempt at the
    terminal emission. *)
Definition step_before (ev : event) (s : session) : list notification :=
  match ev with
  | StdoutData data =>
      if captureStdout (opts s) then [EmitData data] else []
  | StderrData data => stderr_lines (snd (append data (stderrRing s)))
  | StderrClose => stderr_lines (snd (close (stderrRing s)))
  | _ => []
  end.

Definition step_after (ev : event) (s : session) : list notification :=
  match ev with
  | ProcError _ => [Uncaught TypeErrorGetOfUndefined]
  | TimerFired =>
      if timer s && negb (negb (ended s) && negb (listening s))
      then [ProcKill None] else []
  | CallKill signal =>
      if childProc s then
        [ProcKill (Some (match signal with
                         | Some (String a sg) => String a sg
                         | _ => "SIGKILL"
                         end))]
      else [LoggerWarn "No running child process, cannot send signal"]
  | _ => []
  end.

(** The value of [exitError] after the handler of an event has assigned
    to it. *)
Definition exit_error_after (ev : event) (g : gate) : option error :=
  match ev with
  | ProcExit code signal =>
      match exit_error code signal with
      | Some e => Some e
      | None => exitError g
      end
  | _ => exitError g
  end.

(** What the attempt at the terminal emission adds to the trace. *)
Definition closing (e : list notification) (s s' : session) : Prop :=
  (e = [] /\ ended s' = ended s) \/
  (ended s = false /\ ended s' = true /\
   exists err out et, e = terminal_out (listening s) err out et).

(** The session reads its rings as the streams feed them, keeps the error
    of the exit for the gate, and is frozen once it has ended through the
    gate. *)
Definition on_course (exit_err : option error) (s : session) : Prop :=
  timer s = timeout_set (opts s) /\
  (processExited (the_gate s) = false -> exitError (the_gate s) = None) /\
  (ended s = false -> processExited (the_gate s) = true ->
   exitError (the_gate s) = exit_err) /\
  (stderrClosed (the_gate s) = true -> closed (stderrRing s) = true) /\
  (stdoutClosed (the_gate s) = true -> closed (stdoutRing s) = true) /\
  (gate_done s = true -> ended s = true) /\
  (ended s = true ->
   gate_done s = true /\
   exists front heard back,
     trace s = front
               ++ terminal_out heard
                    (augmented exit_err (get (stderrRing s)))
                    (get (stdoutRing s)) (get (stderrRing s))
               ++ back /\
     quiet front /\ quiet back).

(** Every exit event of a run carries the same exit error. *)
Definition exits_agree (exit_err : option error) (ev : event) : Prop :=
  match ev with
  | ProcExit code signal => exit_error code signal = exit_err
  | _ => True
  end.

End Observe.

(* ================================================================== *)
(** ** Strings, splitting and joining *)
(* ================================================================== *)

Import Utils Processor Spec.

(** Settles a comparison [a >? b] on integers that [lia] can decide. *)
Ltac gtb_true :=
  match goal with
  | |- context [(?a >? ?b)%Z] =>
      replace (a >? b)%Z with true by (symmetry; apply Z.gtb_lt; lia)
  end.

Ltac gtb_false :=
  match goal with
  | |- context [(?a >? ?b)%Z] =>
      replace (a >? b)%Z with false
        by (symmetry; rewrite Z.gtb_ltb; apply Z.ltb_ge; lia)
  end.

(** Case analysis on an event, with the handler unfolded for every event
    but the timer, whose callback has lemmas of its own. *)
Ltac by_event ev :=
  destruct ev;
  [ cbn [step] | cbn [step] | cbn [step] | cbn [step] | cbn [step]
  | cbn [step] | idtac | cbn [step] | cbn [step] | cbn [step]
  | cbn [step] ].

Section StringFacts.

Lemma string_app_nil_r (s : string) : (s ++ "")%string = s.
Proof. induction s as [|c s IH]; simpl; [reflexivity | now rewrite IH]. Qed.

Lemma string_app_assoc (a b c : string) :
  ((a ++ b) ++ c)%string = (a ++ (b ++ c))%string.
Proof. induction a as [|x a IH]; simpl; [reflexivity | now rewrite IH]. Qed.

(** Induction on strings that may peel two characters at a time. *)
Lemma string_ind2 (P : string -> Prop) :
  P "" ->
  (forall c, P (String c "")) ->
  (forall c c' s, P s -> P (String c' s) -> P (String c (String c' s))) ->
  forall s, P s.
Proof.
  intros H0 H1 H2.
  assert (both : forall s, P s /\ forall c, P (String c s)).
  { induction s as [|c' s [IHs IHc]].
    - split; [exact H0 | exact H1].
    - split; [apply IHc | intros c; apply H2; [exact IHs | apply IHc]]. }
  intros s; apply both.
Qed.

Lemma concat_cons_cons (sep x y : string) (l : list string) :
  concat sep (x :: y :: l) = (x ++ sep ++ concat sep (y :: l))%string.
Proof. reflexivity. Qed.

Lemma concat_String (sep : string) (c : ascii) (x : string) (l : list string) :
  concat sep (String c x :: l) = String c (concat sep (x :: l)).
Proof. destruct l; reflexivity. Qed.

(** [join] of a list split in two, the first half ending in [c]. *)
Lemma concat_snoc_app (sep c : string) (l rest : list string) :
  rest <> [] ->
  concat sep ((l ++ [c]) ++ rest)
  = (concat sep (l ++ [c]) ++ sep ++ concat sep rest)%string.
Proof.
  intros Hrest. induction l as [|x l IH].
  - simpl. destruct rest; [contradiction | reflexivity].
  - change ((x :: l) ++ [c]) with (x :: (l ++ [c])).
    change ((x :: (l ++ [c])) ++ rest) with (x :: ((l ++ [c]) ++ rest)).
    destruct (l ++ [c]) as [|y t] eqn:E.
    + destruct l; discriminate.
    + change ((y :: t) ++ rest) with (y :: (t ++ rest)) in *.
      rewrite !concat_cons_cons, IH, !string_app_assoc. reflexivity.
Qed.

(** Gluing text to the last element of a joined list. *)
Lemma concat_snoc_glue (sep c x : string) (l : list string) :
  concat sep (l ++ [(c ++ x)%string]) = (concat sep (l ++ [c]) ++ x)%string.
Proof.
  induction l as [|y l IH]; simpl.
  - reflexivity.
  - destruct (l ++ [(c ++ x)%string]) as [|a t] eqn:E1;
      [destruct l; discriminate|].
    destruct (l ++ [c]) as [|b u] eqn:E2; [destruct l; discriminate|].
    rewrite IH, !string_app_assoc. reflexivity.
Qed.

Lemma split_nl_step (c c' : ascii) (s : string) :
  split_nl (String c (String c' s)) =
  if (c =? CR)%char then
    if (c' =? LF)%char then "" :: split_nl s
    else "" :: split_nl (String c' s)
  else if (c =? LF)%char then "" :: split_nl (String c' s)
  else match split_nl (String c' s) with
       | l :: ls => String c l :: ls
       | [] => [String c ""]
       end.
Proof. reflexivity. Qed.

Lemma normalize_nl_step (c c' : ascii) (s : string) :
  normalize_nl (String c (String c' s)) =
  if (c =? CR)%char then
    if (c' =? LF)%char then String LF (normalize_nl s)
    else String LF (normalize_nl (String c' s))
  else String c (normalize_nl (String c' s)).
Proof. reflexivity. Qed.

Lemma split_nl_nonempty (s : string) : split_nl s <> [].
Proof.
  induction s as [|c | c c' s IHs IHc] using string_ind2.
  - discriminate.
  - simpl. destruct (c =? CR)%char; [discriminate|].
    destruct (c =? LF)%char; discriminate.
  - rewrite split_nl_step. destruct (c =? CR)%char.
    + destruct (c' =? LF)%char; discriminate.
    + destruct (c =? LF)%char; [discriminate|].
      destruct (split_nl (String c' s)); discriminate.
Qed.

Lemma concat_nl_cons (x : string) (l : list string) :
  l <> [] -> concat nl ("" :: l) = String LF (concat nl l).
Proof. destruct l; [contradiction | reflexivity]. Qed.

(** Splitting on newlines and joining with LF normalizes the newlines. *)
Lemma join_split_nl (s : string) : concat nl (split_nl s) = normalize_nl s.
Proof.
  induction s as [|c | c c' s IHs IHc] using string_ind2.
  - reflexivity.
  - simpl. destruct (c =? CR)%char; [reflexivity|].
    destruct (c =? LF)%char eqn:E; [|reflexivity].
    apply Ascii.eqb_eq in E. subst c. reflexivity.
  - rewrite split_nl_step, normalize_nl_step. destruct (c =? CR)%char.
    + destruct (c' =? LF)%char.
      * rewrite (concat_nl_cons "") by apply split_nl_nonempty.
        now rewrite IHs.
      * rewrite (concat_nl_cons "") by apply split_nl_nonempty.
        now rewrite IHc.
    + destruct (c =? LF)%char eqn:E.
      * apply Ascii.eqb_eq in E. subst c.
        rewrite (concat_nl_cons "") by apply split_nl_nonempty.
        now rewrite IHc.
      * destruct (split_nl (String c' s)) as [|l ls] eqn:Es.
        { exfalso. now apply (split_nl_nonempty (String c' s)). }
        rewrite concat_String. now rewrite IHc.
Qed.

End StringFacts.

(** *** Normalization and chunk boundaries *)

Section Normalization.

Lemma ends_with_cr_tail (c : ascii) (s : string) :
  ends_with_cr (String c s) = false -> ends_with_cr s = false.
Proof. destruct s; [reflexivity | simpl; auto]. Qed.

(** Normalization distributes over a boundary that cuts no CR LF pair. *)
Lemma normalize_nl_app (a b : string) :
  ends_with_cr a && starts_with_lf b = false ->
  normalize_nl (a ++ b) = (normalize_nl a ++ normalize_nl b)%string.
Proof.
  destruct (starts_with_lf b) eqn:Hb.
  - rewrite andb_true_r.
    induction a as [|c | c c' s IHs IHc] using string_ind2; intros Ha.
    + reflexivity.
    + simpl in Ha. simpl. rewrite Ha. reflexivity.
    + change ((String c (String c' s) ++ b)%string)
        with (String c (String c' (s ++ b))).
      rewrite !normalize_nl_step.
      change (String c' (s ++ b)) with ((String c' s ++ b)%string).
      apply ends_with_cr_tail in Ha.
      destruct (c =? CR)%char.
      * destruct (c' =? LF)%char.
        -- simpl. f_equal. apply IHs. now apply ends_with_cr_tail in Ha.
        -- simpl. f_equal. now apply IHc.
      * simpl. f_equal. now apply IHc.
  - intros _.
    induction a as [|c | c c' s IHs IHc] using string_ind2.
    + reflexivity.
    + simpl. destruct (c =? CR)%char; [|reflexivity].
      destruct b as [|c' b']; [reflexivity|].
      simpl in Hb. rewrite Hb. reflexivity.
    + change ((String c (String c' s) ++ b)%string)
        with (String c (String c' (s ++ b))).
      rewrite !normalize_nl_step.
      change (String c' (s ++ b)) with ((String c' s ++ b)%string).
      destruct (c =? CR)%char.
      * destruct (c' =? LF)%char; simpl; f_equal; assumption.
      * simpl. f_equal. assumption.
Qed.

(** When no CR LF pair is cut, normalizing chunk by chunk is normalizing
    the whole text. *)
Lemma chunkwise_whole (chunks : list string) :
  crlf_safe chunks = true ->
  chunkwise_text chunks = normalize_nl (whole_text chunks).
Proof.
  induction chunks as [|c rest IH]; intros H.
  - reflexivity.
  - simpl in H. apply andb_true_iff in H as [H1 H2].
    apply negb_true_iff in H1.
    unfold chunkwise_text in *. simpl.
    rewrite normalize_nl_app by assumption. now rewrite IH.
Qed.

End Normalization.

(** *** The most recent elements of a list *)

Section Lastn.
Context {A : Type}.

Lemma lastn_length (n : nat) (l : list A) :
  List.length (lastn n l) = Nat.min n (List.length l).
Proof. unfold lastn. rewrite length_skipn. lia. Qed.

Lemma lastn_all (n : nat) (l : list A) :
  List.length l <= n -> lastn n l = l.
Proof.
  intros H. unfold lastn. replace (List.length l - n) with 0 by lia.
  reflexivity.
Qed.

Lemma lastn_app_lastn (n : nat) (a b : list A) :
  lastn n (lastn n a ++ b) = lastn n (a ++ b).
Proof.
  destruct (Nat.le_gt_cases (List.length a) n) as [H | H].
  - now rewrite (lastn_all n a H).
  - unfold lastn at 1 3. rewrite !length_app, lastn_length.
    replace (Nat.min n (List.length a)) with n by lia.
    unfold lastn.
    replace (List.length a + List.length b - n)
      with ((n + List.length b - n) + (List.length a - n)) by lia.
    rewrite <- skipn_skipn. f_equal.
    rewrite skipn_app.
    replace (List.length a - n - List.length a) with 0 by lia.
    reflexivity.
Qed.

End Lastn.

(* ================================================================== *)
(** ** The line ring *)
(* ================================================================== *)

Section RingFacts.

Lemma evict_lastn (m : Z) (l : list string) :
  (m > -1)%Z -> evict m l = lastn (Z.to_nat m) l.
Proof.
  intros Hm. unfold evict, lastn.
  gtb_true.
  cbn [andb].
  destruct (Z.of_nat (List.length l) >? m)%Z eqn:E.
  - f_equal. lia.
  - rewrite Z.gtb_ltb in E. apply Z.ltb_ge in E.
    replace (List.length l - Z.to_nat m) with 0 by lia. reflexivity.
Qed.

Lemma evict_kept (m : Z) (l : list string) : evict m l = kept m l.
Proof.
  unfold kept. destruct (m >? -1)%Z eqn:E.
  - apply evict_lastn. apply Z.gtb_lt in E. lia.
  - unfold evict. now rewrite E.
Qed.

Lemma evict_one_lastn (m : Z) (l : list string) :
  (m > -1)%Z -> List.length l <= Z.to_nat m + 1 ->
  evict_one m l = lastn (Z.to_nat m) l.
Proof.
  intros Hm Hl. unfold evict_one, lastn.
  gtb_true.
  cbn [andb].
  destruct (Z.of_nat (List.length l) >? m)%Z eqn:E.
  - apply Z.gtb_lt in E.
    replace (List.length l - Z.to_nat m) with 1 by lia.
    destruct l; reflexivity.
  - rewrite Z.gtb_ltb in E. apply Z.ltb_ge in E.
    replace (List.length l - Z.to_nat m) with 0 by lia. reflexivity.
Qed.

Lemma kept_app_kept (m : Z) (a b : list string) :
  kept m (kept m a ++ b) = kept m (a ++ b).
Proof.
  unfold kept. destruct (m >? -1)%Z; [apply lastn_app_lastn | reflexivity].
Qed.

Lemma kept_length (m : Z) (l : list string) :
  (m > -1)%Z -> List.length (kept m l) <= Z.to_nat m.
Proof.
  intros Hm. unfold kept.
  gtb_true.
  rewrite lastn_length. lia.
Qed.

Lemma evict_one_kept (m : Z) (history : list string) (c : string) :
  evict_one m (kept m history ++ [c]) = kept m (history ++ [c]).
Proof.
  destruct (m >? -1)%Z eqn:E.
  - apply Z.gtb_lt in E.
    assert (Hk : forall l, kept m l = lastn (Z.to_nat m) l).
    { intros l. unfold kept.
      now gtb_true. }
    rewrite evict_one_lastn.
    + rewrite !Hk. apply lastn_app_lastn.
    + lia.
    + rewrite length_app. cbn [List.length].
      pose proof (kept_length m history). lia.
  - unfold evict_one, kept. now rewrite E.
Qed.

(** The projections of the two forms of [append] and [close] agree. *)
Lemma append_fst (str : string) (r : ring) :
  fst (append str r) = fst (append_lines str r).
Proof. unfold append. now destruct (append_lines str r). Qed.

Lemma append_snd (str : string) (r : ring) :
  snd (append str r) = flat_map (emit r) (snd (append_lines str r)).
Proof. unfold append. now destruct (append_lines str r). Qed.

Lemma close_fst (r : ring) : fst (close r) = fst (close_lines r).
Proof. unfold close. now destruct (close_lines r). Qed.

Lemma close_snd (r : ring) :
  snd (close r) = flat_map (emit r) (snd (close_lines r)).
Proof. unfold close. now destruct (close_lines r). Qed.

(** The shape of a split that has more than one element. *)
Lemma split_nl_cases (str : string) :
  (exists l, split_nl str = [l]) \/
  (exists first rest, split_nl str = first :: rest /\ rest <> []).
Proof.
  destruct (split_nl str) as [|a [|b t]] eqn:E.
  - now apply split_nl_nonempty in E.
  - left. now exists a.
  - right. exists a, (b :: t). split; [reflexivity | discriminate].
Qed.

(** [append] and [close] leave the observers and the bound alone. *)
Lemma append_lines_cbs (str : string) (r : ring) :
  cbs (fst (append_lines str r)) = cbs r /\
  max (fst (append_lines str r)) = max r.
Proof.
  unfold append_lines. destruct (closed r); [now split|].
  destruct (str =? "")%string; [now split|].
  destruct (List.length (split_nl str) =? 1)%nat; [now split|].
  destruct (current r); now split.
Qed.

Lemma close_lines_cbs (r : ring) :
  cbs (fst (close_lines r)) = cbs r /\ max (fst (close_lines r)) = max r.
Proof.
  unfold close_lines. destruct (closed r); [now split|].
  destruct (current r); now split.
Qed.

(** **** Retention: the ring keeps the most recent lines of its history *)

Lemma append_retains (str : string) (r : ring) (history : list string) :
  retains history r ->
  retains (history ++ snd (append_lines str r)) (fst (append_lines str r)).
Proof.
  unfold retains, append_lines. intros H.
  destruct (closed r); [cbn; now rewrite app_nil_r|].
  destruct (str =? "")%string; [cbn; now rewrite app_nil_r|].
  destruct (List.length (split_nl str) =? 1)%nat;
    [cbn; now rewrite app_nil_r|].
  destruct (current r); cbn; rewrite H, evict_kept; apply kept_app_kept.
Qed.

Lemma close_retains (r : ring) (history : list string) :
  retains history r ->
  retains (history ++ snd (close_lines r)) (fst (close_lines r)).
Proof.
  unfold retains, close_lines. intros H.
  destruct (closed r); [cbn; now rewrite app_nil_r|].
  destruct (current r); cbn.
  - rewrite H. apply evict_one_kept.
  - now rewrite app_nil_r.
Qed.

Lemma ring_step_retains (op : ring_op) (r : ring) (history : list string) :
  retains history r ->
  retains (history ++ emitted_of (ring_step op r)) (ring_of (ring_step op r)).
Proof.
  intros H. destruct op as [str| |cb]; unfold ring_of, emitted_of; cbn.
  - rewrite append_fst. now apply append_retains.
  - rewrite close_fst. now apply close_retains.
  - rewrite app_nil_r. exact H.
Qed.

Lemma ring_run_cons (op : ring_op) (ops : list ring_op) (r : ring) :
  ring_run (op :: ops) r =
  (ring_of (ring_run ops (ring_of (ring_step op r))),
   emitted_of (ring_step op r)
     ++ emitted_of (ring_run ops (ring_of (ring_step op r))),
   delivered_of (ring_step op r)
     ++ delivered_of (ring_run ops (ring_of (ring_step op r)))).
Proof.
  cbn [ring_run]. destruct (ring_step op r) as [[r1 e1] d1].
  unfold ring_of, emitted_of, delivered_of. cbn [fst snd].
  now destruct (ring_run ops r1) as [[r2 e2] d2].
Qed.

Lemma ring_run_app (ops1 ops2 : list ring_op) (r : ring) :
  ring_run (ops1 ++ ops2) r =
  (ring_of (ring_run ops2 (ring_of (ring_run ops1 r))),
   emitted_of (ring_run ops1 r)
     ++ emitted_of (ring_run ops2 (ring_of (ring_run ops1 r))),
   delivered_of (ring_run ops1 r)
     ++ delivered_of (ring_run ops2 (ring_of (ring_run ops1 r)))).
Proof.
  revert r. induction ops1 as [|op ops1 IH]; intros r.
  - cbn. now destruct (ring_run ops2 r) as [[r2 e2] d2].
  - change ((op :: ops1) ++ ops2) with (op :: (ops1 ++ ops2)).
    rewrite !ring_run_cons, IH.
    unfold ring_of, emitted_of, delivered_of. cbn [fst snd].
    now rewrite !app_assoc.
Qed.

Lemma ring_of_cons (op : ring_op) (ops : list ring_op) (r : ring) :
  ring_of (ring_run (op :: ops) r)
  = ring_of (ring_run ops (ring_of (ring_step op r))).
Proof. now rewrite ring_run_cons. Qed.

Lemma emitted_of_cons (op : ring_op) (ops : list ring_op) (r : ring) :
  emitted_of (ring_run (op :: ops) r)
  = emitted_of (ring_step op r)
      ++ emitted_of (ring_run ops (ring_of (ring_step op r))).
Proof. now rewrite ring_run_cons. Qed.

Lemma delivered_of_cons (op : ring_op) (ops : list ring_op) (r : ring) :
  delivered_of (ring_run (op :: ops) r)
  = delivered_of (ring_step op r)
      ++ delivered_of (ring_run ops (ring_of (ring_step op r))).
Proof. now rewrite ring_run_cons. Qed.

Lemma ring_of_app (ops1 ops2 : list ring_op) (r : ring) :
  ring_of (ring_run (ops1 ++ ops2) r)
  = ring_of (ring_run ops2 (ring_of (ring_run ops1 r))).
Proof. now rewrite ring_run_app. Qed.

Lemma emitted_of_app (ops1 ops2 : list ring_op) (r : ring) :
  emitted_of (ring_run (ops1 ++ ops2) r)
  = emitted_of (ring_run ops1 r)
      ++ emitted_of (ring_run ops2 (ring_of (ring_run ops1 r))).
Proof. now rewrite ring_run_app. Qed.

Lemma delivered_of_app (ops1 ops2 : list ring_op) (r : ring) :
  delivered_of (ring_run (ops1 ++ ops2) r)
  = delivered_of (ring_run ops1 r)
      ++ delivered_of (ring_run ops2 (ring_of (ring_run ops1 r))).
Proof. now rewrite ring_run_app. Qed.

Lemma ring_run_retains (ops : list ring_op) (r : ring)
  (history : list string) :
  retains history r ->
  retains (history ++ emitted_of (ring_run ops r)) (ring_of (ring_run ops r)).
Proof.
  revert r history. induction ops as [|op ops IH]; intros r history H.
  - cbn. now rewrite app_nil_r.
  - rewrite ring_run_cons. unfold ring_of at 1, emitted_of at 1.
    cbn [fst snd]. rewrite app_assoc. apply IH.
    now apply ring_step_retains.
Qed.

Lemma ring_run_max (ops : list ring_op) (r : ring) :
  max (ring_of (ring_run ops r)) = max r.
Proof.
  revert r. induction ops as [|op ops IH]; intros r.
  - reflexivity.
  - rewrite ring_run_cons. unfold ring_of at 1. cbn [fst].
    rewrite IH. destruct op; unfold ring_of; cbn.
    + rewrite append_fst. apply append_lines_cbs.
    + rewrite close_fst. apply close_lines_cbs.
    + reflexivity.
Qed.

End RingFacts.

(** **** Text: the emitted lines and the pending partial line spell the
    chunks, each normalized *)

Section RingText.

Lemma append_spells (str : string) (r : ring) (history : list string)
  (text : string) :
  spells history r text ->
  spells (history ++ snd (append_lines str r)) (fst (append_lines str r))
    (text ++ normalize_nl str)%string.
Proof.
  intros (Hc & Hnone & Htext). unfold append_lines. rewrite Hc.
  destruct (str =? "")%string eqn:Hstr.
  - apply String.eqb_eq in Hstr. subst str. cbn [fst snd normalize_nl].
    rewrite app_nil_r, string_app_nil_r. now repeat split.
  - cbv zeta. pose proof (join_split_nl str) as Hjoin.
    destruct (split_nl_cases str) as [[l Hs] | (first & rest & Hs & Hrest)];
      rewrite Hs in *.
    + cbn [List.length Nat.eqb hd fst snd]. rewrite app_nil_r.
      cbn [concat] in Hjoin. subst l.
      unfold spells, pending_text in *. cbn [closed current].
      repeat split; [discriminate|].
      destruct (current r) as [c|].
      * now rewrite concat_snoc_glue, Htext.
      * rewrite (Hnone eq_refl) in *. cbn in Htext. now subst text.
    + assert (Hlen : (List.length (first :: rest) =? 1)%nat = false).
      { destruct rest; [contradiction | reflexivity]. }
      rewrite Hlen. cbn [hd tl].
      unfold spells, pending_text in *.
      destruct (current r) as [c|]; cbn [fst snd closed current].
      * repeat split; [discriminate|].
        rewrite <- !app_assoc.
        change ([(c ++ first)%string] ++ removelast rest ++ [last rest ""])
          with ((c ++ first)%string :: (removelast rest ++ [last rest ""])).
        rewrite <- (app_removelast_last "" Hrest).
        change (history ++ (c ++ first)%string :: rest)
          with (history ++ [(c ++ first)%string] ++ rest).
        rewrite app_assoc, concat_snoc_app by assumption.
        rewrite concat_snoc_glue, Htext, <- Hjoin.
        destruct rest; [contradiction|].
        rewrite concat_cons_cons, !string_app_assoc. reflexivity.
      * repeat split; [discriminate|].
        rewrite (Hnone eq_refl) in *. cbn in Htext. subst text.
        cbn [app String.append].
        rewrite <- (app_removelast_last (l:=first :: rest) "")
          by discriminate.
        exact Hjoin.
Qed.

Lemma appends_spell (chunks : list string) (r : ring)
  (history : list string) (text : string) :
  spells history r text ->
  spells (history ++ emitted_of (ring_run (map Append chunks) r))
    (ring_of (ring_run (map Append chunks) r))
    (text ++ chunkwise_text chunks)%string.
Proof.
  revert r history text.
  induction chunks as [|c chunks IH]; intros r history text H.
  - cbn. now rewrite app_nil_r, string_app_nil_r.
  - cbn [map]. rewrite ring_run_cons.
    unfold ring_of at 1, emitted_of at 1. cbn [fst snd].
    unfold chunkwise_text. cbn [map whole_text fold_right].
    rewrite app_assoc, <- string_app_assoc.
    apply IH. unfold ring_of, emitted_of. cbn [ring_step fst snd].
    rewrite append_fst. now apply append_spells.
Qed.

(** Closing an open ring turns the pending partial into the last line. *)
Lemma close_spells (r : ring) (history : list string) (text : string) :
  spells history r text ->
  concat nl (history ++ snd (close_lines r)) = text /\
  current (fst (close_lines r)) = None /\
  closed (fst (close_lines r)) = true.
Proof.
  intros (Hc & Hnone & Htext). unfold close_lines, pending_text in *.
  rewrite Hc. destruct (current r); cbn [fst snd current closed].
  - now repeat split.
  - rewrite app_nil_r. now repeat split.
Qed.

Lemma linesRing_spells (maxLines : Z) : spells [] (linesRing maxLines) "".
Proof. now repeat split. Qed.

Lemma linesRing_retains (maxLines : Z) : retains [] (linesRing maxLines).
Proof.
  unfold retains, kept, lastn. cbn. now destruct (maxLines - 1 >? -1)%Z.
Qed.

(** A ring fed chunks and closed: what it emitted, what it kept, what
    [get()] returns. *)
Lemma fed_and_closed_facts (maxLines : Z) (chunks : list string) :
  let x := fed_and_closed maxLines chunks in
  concat nl (emitted_of x) = chunkwise_text chunks /\
  lines (ring_of x) = kept (maxLines - 1) (emitted_of x) /\
  get (ring_of x) = concat nl (lines (ring_of x)) /\
  closed (ring_of x) = true.
Proof.
  cbv zeta. unfold fed_and_closed.
  pose proof (appends_spell chunks _ _ _ (linesRing_spells maxLines)) as Hs.
  cbn [app String.append] in Hs.
  pose proof (ring_run_retains (map Append chunks ++ [Close])
                (linesRing maxLines) [] (linesRing_retains maxLines)) as Hr.
  unfold retains in Hr. rewrite ring_run_max in Hr. cbn [app] in Hr.
  cbn [linesRing max] in Hr.
  rewrite ring_run_app in *.
  unfold ring_of at 1 2 3 4, emitted_of at 1 2. cbn [fst snd].
  unfold ring_of at 1, emitted_of at 1 in Hr. cbn [fst snd] in Hr.
  set (r1 := ring_of (ring_run (map Append chunks) (linesRing maxLines))) in *.
  set (e1 := emitted_of (ring_run (map Append chunks) (linesRing maxLines))) in *.
  rewrite ring_run_cons in *. cbn [ring_run] in *.
  unfold ring_of, emitted_of in *. cbn [ring_step fst snd] in *.
  rewrite close_fst in *. rewrite app_nil_r in *.
  destruct (close_spells _ _ _ Hs) as (H1 & H2 & H3).
  repeat split; try assumption.
  - now rewrite app_nil_r.
  - unfold get. now rewrite H2.
Qed.

End RingText.

(** **** Observers *)

Section Observers.

Lemma received_app (cb : observer) (a b : list delivery) :
  received cb (a ++ b) = received cb a ++ received cb b.
Proof. unfold received. now rewrite filter_app, map_app. Qed.

Lemma received_emit (cb : observer) (r : ring) (l : string) :
  received cb (emit r l) = repeat l (subscriptions cb r).
Proof.
  unfold emit, subscriptions, received.
  induction (cbs r) as [|cb' rest IH]; [reflexivity|].
  cbn [map filter fst count_occ].
  destruct (Nat.eq_dec cb' cb) as [->|Hne].
  - rewrite Nat.eqb_refl. cbn [map snd repeat]. now rewrite IH.
  - apply Nat.eqb_neq in Hne. now rewrite Hne.
Qed.

Lemma received_emits (cb : observer) (r : ring) (ls : list string) :
  received cb (flat_map (emit r) ls)
  = flat_map (fun l => repeat l (subscriptions cb r)) ls.
Proof.
  induction ls as [|l ls IH]; [reflexivity|].
  cbn [flat_map]. now rewrite received_app, received_emit, IH.
Qed.

Lemma received_replay_other (cb cb' : observer) (ls : list string) :
  cb' <> cb -> received cb (map (fun l => (cb', l)) ls) = [].
Proof.
  intros Hne. apply Nat.eqb_neq in Hne. unfold received.
  induction ls as [|l ls IH]; [reflexivity|].
  cbn [map filter fst]. now rewrite Hne.
Qed.

Lemma received_replay_self (cb : observer) (ls : list string) :
  received cb (map (fun l => (cb, l)) ls) = ls.
Proof.
  unfold received. induction ls as [|l ls IH]; [reflexivity|].
  cbn [map filter fst]. rewrite Nat.eqb_refl. cbn [map snd]. now rewrite IH.
Qed.

(** One call that does not register [cb]: it receives each emitted line
    once per subscription it holds. *)
Lemma ring_step_received (cb : observer) (op : ring_op) (r : ring) :
  registers cb op = false ->
  received cb (delivered_of (ring_step op r))
  = flat_map (fun l => repeat l (subscriptions cb r))
      (emitted_of (ring_step op r)) /\
  subscriptions cb (ring_of (ring_step op r)) = subscriptions cb r.
Proof.
  intros Hreg. unfold delivered_of, emitted_of, ring_of, subscriptions.
  destruct op as [str| |cb']; cbn [ring_step fst snd].
  - rewrite append_snd, append_fst, received_emits.
    now rewrite (proj1 (append_lines_cbs str r)).
  - rewrite close_snd, close_fst, received_emits.
    now rewrite (proj1 (close_lines_cbs r)).
  - cbn in Hreg. apply Nat.eqb_neq in Hreg.
    unfold callback. cbn [fst snd cbs flat_map].
    rewrite received_replay_other by assumption.
    rewrite count_occ_app. cbn [count_occ].
    destruct (Nat.eq_dec cb' cb); [contradiction|].
    split; [reflexivity | lia].
Qed.

Lemma ring_run_received (cb : observer) (ops : list ring_op) (r : ring) :
  no_register cb ops = true ->
  received cb (delivered_of (ring_run ops r))
  = flat_map (fun l => repeat l (subscriptions cb r))
      (emitted_of (ring_run ops r)) /\
  subscriptions cb (ring_of (ring_run ops r)) = subscriptions cb r.
Proof.
  revert r. induction ops as [|op ops IH]; intros r Hno.
  - now split.
  - cbn [no_register forallb] in Hno. apply andb_true_iff in Hno as [H1 H2].
    apply negb_true_iff in H1.
    destruct (ring_step_received cb op r H1) as [Hd Hs].
    destruct (IH (ring_of (ring_step op r)) H2) as [IHd IHs].
    rewrite delivered_of_cons, emitted_of_cons, ring_of_cons.
    rewrite received_app, flat_map_app, Hd, IHd, IHs, Hs.
    now split.
Qed.

Lemma flat_map_none {A} (l : list A) : flat_map (fun x => repeat x 0) l = [].
Proof. induction l as [|x l IH]; [reflexivity | exact IH]. Qed.

Lemma flat_map_once {A} (l : list A) : flat_map (fun x => repeat x 1) l = l.
Proof.
  induction l as [|x l IH]; [reflexivity|].
  change (x :: flat_map (fun y => repeat y 1) l = x :: l). now f_equal.
Qed.

Lemma ring_run_fresh (cb : observer) (ops : list ring_op) (maxLines : Z) :
  no_register cb ops = true ->
  received cb (delivered_of (ring_run ops (linesRing maxLines))) = [] /\
  subscriptions cb (ring_of (ring_run ops (linesRing maxLines))) = 0.
Proof.
  intros Hno.
  destruct (ring_run_received cb ops (linesRing maxLines) Hno) as [Hd Hs].
  rewrite Hd, Hs. split; [|reflexivity].
  unfold subscriptions. cbn [linesRing cbs count_occ].
  apply flat_map_none.
Qed.

End Observers.

(** **** Properties of the ring *)

Section RingClaims.

(** The capacity scenario on the code: a ring of capacity 2 that was fed
    five lines and closed retains the single line "5", not the lines "4"
    and "5"; when the text ends in a newline it retains only the empty
    line flushed by [close()], and a session with [stdoutLines = 2] ends
    with an empty stdout. *)
Lemma ring_capacity_counterexample :
  let x := fed_and_closed 2 [five_lines] in
  let y := fed_and_closed 2 [five_lines_nl] in
  emitted_of x = ["1"; "2"; "3"; "4"; "5"] /\
  lines (ring_of x) = ["5"] /\
  lines (ring_of x) <> lastn 2 (emitted_of x) /\
  get (ring_of x) <> concat nl ["4"; "5"] /\
  emitted_of y = ["1"; "2"; "3"; "4"; "5"; ""] /\
  get (ring_of y) = "" /\
  match ChildProcessCommand "cmd" None (mkRawOptions None (Some 2%Z) None) with
  | inr s0 =>
      trace (run_events [StdoutData five_lines_nl; StdoutClose; StderrClose;
                         ProcExit (Some 0%Z) None] s0)
      = [EmitStart "cmd" []; EmitData five_lines_nl; EmitEnd "" "";
         EndCallback None "" ""]
  | inl _ => False
  end.
Proof.
  vm_compute. repeat split; try reflexivity; intros H; discriminate H.
Qed.

(** C3 as the code has it.  For every capacity K > 0 and every sequence
    of appended chunks followed by [close()], the ring retains at most K-1
    lines, and these are exactly the K-1 most recent lines handed to the
    observers, the oldest evicted first; [get()] is their join, and the
    emitted lines are the lines of the chunk-wise normalized text.  The
    claim states what [linesRing] documents ([maxLines] is the maximum
    number of lines to store) and what [get()] shows while the ring is
    open; [close()] misses it by one, because it trims the array to
    [maxLines - 1] after it has pushed the pending line.  With capacity 2
    and the five lines 1..5, [get()] is "4\n5" before [close()] and "5"
    after it; with capacity 1 nothing is left after [close()]. *)
Theorem ring_retains_most_recent (K : Z) (chunks : list string) :
  (0 < K)%Z ->
  let x := fed_and_closed K chunks in
  (Z.of_nat (List.length (lines (ring_of x))) <= K - 1)%Z /\
  lines (ring_of x) = lastn (Z.to_nat (K - 1)) (emitted_of x) /\
  get (ring_of x) = concat nl (lastn (Z.to_nat (K - 1)) (emitted_of x)) /\
  concat nl (emitted_of x) = chunkwise_text chunks /\
  get (ring_of (ring_run [Append five_lines] (linesRing 2)))
    = concat nl ["4"; "5"] /\
  get (ring_of (fed_and_closed 2 [five_lines])) = "5" /\
  get (ring_of (fed_and_closed 1 [five_lines])) = "".
Proof.
  intros HK x.
  destruct (fed_and_closed_facts K chunks) as (Htext & Hkept & Hget & _).
  fold x in Htext, Hkept, Hget.
  assert (Hk : kept (K - 1) (emitted_of x)
               = lastn (Z.to_nat (K - 1)) (emitted_of x)).
  { unfold kept.
    now gtb_true. }
  rewrite Hk in Hkept.
  refine (conj _ (conj Hkept (conj _ (conj Htext
            (conj eq_refl (conj eq_refl eq_refl)))))).
  - rewrite Hkept, lastn_length. lia.
  - now rewrite Hget, Hkept.
Qed.

Lemma ring_retains_most_recent_witness :
  let x := fed_and_closed 3 ["a"; String LF "b"; String LF "c"] in
  (Z.of_nat (List.length (lines (ring_of x))) <= 3 - 1)%Z /\
  lines (ring_of x) = lastn (Z.to_nat (3 - 1)) (emitted_of x) /\
  get (ring_of x) = concat nl (lastn (Z.to_nat (3 - 1)) (emitted_of x)) /\
  concat nl (emitted_of x)
    = chunkwise_text ["a"; String LF "b"; String LF "c"] /\
  get (ring_of (ring_run [Append five_lines] (linesRing 2)))
    = concat nl ["4"; "5"] /\
  get (ring_of (fed_and_closed 2 [five_lines])) = "5" /\
  get (ring_of (fed_and_closed 1 [five_lines])) = "".
Proof.
  apply (ring_retains_most_recent 3 ["a"; String LF "b"; String LF "c"]).
  reflexivity.
Defined.

(** C4, as the claim states it, fails: an observer registered on a ring of
    capacity 2 after three lines were emitted is replayed the one retained
    line only; the evicted lines never reach it. *)
Lemma observer_replay_counterexample :
  let script := [Append (concat nl ["a"; "b"; "c"; ""]); Callback 7; Close] in
  let x := ring_run script (linesRing 2) in
  emitted_of x = ["a"; "b"; "c"; ""] /\
  received 7 (delivered_of x) = ["c"; ""] /\
  received 7 (delivered_of x) <> emitted_of x.
Proof.
  vm_compute. repeat split; intros H; discriminate H.
Qed.

(** C4 (amended): an observer registered once, at any point of the life of
    a ring, receives the lines retained at that moment, in order, followed
    by every line emitted afterwards exactly once, in emission order; on an
    unbounded ring (capacity at most 0) that is every line the ring has
    ever emitted, exactly once and in order. *)
Theorem observer_replay_then_live (maxLines : Z) (ops1 ops2 : list ring_op)
  (cb : observer) :
  no_register cb (ops1 ++ ops2) = true ->
  let before := ring_run ops1 (linesRing maxLines) in
  let x := ring_run (ops1 ++ Callback cb :: ops2) (linesRing maxLines) in
  exists later,
    emitted_of x = emitted_of before ++ later /\
    received cb (delivered_of x) = lines (ring_of before) ++ later /\
    ((maxLines <= 0)%Z -> received cb (delivered_of x) = emitted_of x).
Proof.
  intros Hno before x. subst before x. unfold no_register in Hno.
  rewrite forallb_app in Hno. apply andb_true_iff in Hno as [Hno1 Hno2].
  destruct (ring_run_fresh cb ops1 maxLines Hno1) as [Hd1 Hs1].
  set (r0 := ring_of (ring_run ops1 (linesRing maxLines))) in *.
  set (r1 := ring_of (ring_step (Callback cb) r0)).
  destruct (ring_run_received cb ops2 r1 Hno2) as [Hd2 _].
  assert (Hsub : subscriptions cb r1 = 1).
  { unfold subscriptions in Hs1. unfold r1, ring_of at 1, subscriptions.
    cbn [ring_step fst callback cbs].
    rewrite count_occ_app, Hs1. cbn [count_occ].
    now destruct (Nat.eq_dec cb cb). }
  rewrite Hsub, flat_map_once in Hd2.
  exists (emitted_of (ring_run ops2 r1)).
  assert (Hem : emitted_of (ring_run (ops1 ++ Callback cb :: ops2)
                              (linesRing maxLines))
                = emitted_of (ring_run ops1 (linesRing maxLines))
                    ++ emitted_of (ring_run ops2 r1)).
  { now rewrite emitted_of_app, emitted_of_cons. }
  assert (Hrec : received cb (delivered_of
                    (ring_run (ops1 ++ Callback cb :: ops2)
                       (linesRing maxLines)))
                 = lines r0 ++ emitted_of (ring_run ops2 r1)).
  { rewrite delivered_of_app, delivered_of_cons, !received_app.
    fold r0. fold r1. rewrite Hd1, Hd2. cbn [app]. f_equal.
    unfold delivered_of. cbn [ring_step snd callback].
    apply received_replay_self. }
  repeat split; try assumption.
  intros Hmax. rewrite Hrec, Hem. f_equal.
  pose proof (ring_run_retains ops1 (linesRing maxLines) []
                (linesRing_retains maxLines)) as Hr.
  unfold retains in Hr. rewrite ring_run_max in Hr. cbn [app] in Hr.
  fold r0 in Hr. rewrite Hr. unfold kept. cbn [linesRing max].
  now gtb_false.
Qed.

Lemma observer_replay_then_live_witness :
  let ops1 := [Append (concat nl ["a"; "b"; "c"; ""])] in
  let ops2 := [Callback 3; Append (concat nl ["d"; "e"]); Close] in
  exists later,
    emitted_of (ring_run (ops1 ++ Callback 7 :: ops2) (linesRing 0))
      = emitted_of (ring_run ops1 (linesRing 0)) ++ later /\
    received 7
      (delivered_of (ring_run (ops1 ++ Callback 7 :: ops2) (linesRing 0)))
      = lines (ring_of (ring_run ops1 (linesRing 0))) ++ later /\
    ((0 <= 0)%Z ->
     received 7
       (delivered_of (ring_run (ops1 ++ Callback 7 :: ops2) (linesRing 0)))
     = emitted_of (ring_run (ops1 ++ Callback 7 :: ops2) (linesRing 0))).
Proof.
  apply (observer_replay_then_live 0
           [Append (concat nl ["a"; "b"; "c"; ""])]
           [Callback 3; Append (concat nl ["d"; "e"]); Close] 7).
  reflexivity.
Defined.

End RingClaims.

(* ================================================================== *)
(** ** The completion gate *)
(* ================================================================== *)

Section GateFacts.
Variable capture : bool.

Lemma signal_name_eqb_eq (a b : signal_name) :
  signal_name_eqb a b = true <-> a = b.
Proof. destruct a, b; cbn; split; intros H; congruence. Qed.

(** The gate is complete when the flag of every required signal is up. *)
Lemma gate_complete_flags (g : gate) :
  gate_complete capture g = true <->
  (forall n, In n (required capture) -> flag n g = true).
Proof.
  unfold gate_complete, required. split.
  - intros H n Hn.
    destruct (processExited g) eqn:E1, (stderrClosed g) eqn:E2,
      (stdoutClosed g) eqn:E3, capture; cbn in *; try discriminate;
      repeat (destruct Hn as [<- | Hn]; [cbn; congruence|]);
      contradiction.
  - intros H.
    pose proof (H processExitedN) as H1. cbn in H1. rewrite H1 by auto.
    pose proof (H stderrClosedN) as H2. cbn in H2. rewrite H2 by auto.
    destruct capture; cbn; [|now rewrite orb_true_r].
    pose proof (H stdoutClosedN) as H3. cbn in H3. now rewrite H3 by auto.
Qed.

Lemma handleExit_flag (err : option error) (g : gate) (n : signal_name) :
  flag n (fst (handleExit capture err g)) = flag n g.
Proof. destruct err, n; reflexivity. Qed.

Lemma handleExit_fired (err : option error) (g : gate) :
  snd (handleExit capture err g) =
  if gate_complete capture (fst (handleExit capture err g))
  then Some (exitError (fst (handleExit capture err g))) else None.
Proof. reflexivity. Qed.

Lemma gate_report_flag (rp : report) (g : gate) (n : signal_name) :
  flag n (fst (gate_report capture rp g))
  = flag n g || signal_name_eqb n (report_name rp).
Proof.
  destruct rp; cbn [gate_report]; rewrite handleExit_flag;
    destruct n; cbn; auto using orb_true_r, orb_false_r with bool;
    now rewrite ?orb_true_r, ?orb_false_r.
Qed.

Lemma gate_report_fired (rp : report) (g : gate) :
  snd (gate_report capture rp g) =
  if gate_complete capture (fst (gate_report capture rp g))
  then Some (exitError (fst (gate_report capture rp g))) else None.
Proof. destruct rp; apply handleExit_fired. Qed.

Lemma gate_run_cons (rp : report) (rps : list report) (g : gate) :
  gate_run capture (rp :: rps) g =
  (fst (gate_run capture rps (fst (gate_report capture rp g))),
   snd (gate_report capture rp g)
     :: snd (gate_run capture rps (fst (gate_report capture rp g)))).
Proof.
  cbn [gate_run]. destruct (gate_report capture rp g) as [g1 f].
  cbn [fst snd]. now destruct (gate_run capture rps g1).
Qed.

Lemma gate_run_app (a b : list report) (g : gate) :
  gate_run capture (a ++ b) g =
  (fst (gate_run capture b (fst (gate_run capture a g))),
   snd (gate_run capture a g)
     ++ snd (gate_run capture b (fst (gate_run capture a g)))).
Proof.
  revert g. induction a as [|rp a IH]; intros g.
  - cbn. now destruct (gate_run capture b g).
  - change ((rp :: a) ++ b) with (rp :: (a ++ b)).
    rewrite !gate_run_cons, IH. reflexivity.
Qed.

Lemma gate_run_flag (rps : list report) (g : gate) (n : signal_name) :
  flag n (fst (gate_run capture rps g))
  = flag n g || existsb (signal_name_eqb n) (map report_name rps).
Proof.
  revert g. induction rps as [|rp rps IH]; intros g.
  - cbn. now rewrite orb_false_r.
  - rewrite gate_run_cons. cbn [fst map existsb].
    now rewrite IH, gate_report_flag, orb_assoc.
Qed.

(** Flags only go up, so a gate that is not complete at the end was not
    complete before, and [endCB] was not called. *)
Lemma gate_run_silent (rps : list report) (g : gate) :
  gate_complete capture (fst (gate_run capture rps g)) = false ->
  snd (gate_run capture rps g) = map (fun _ => None) rps.
Proof.
  revert g. induction rps as [|rp rps IH]; intros g Hinc.
  - reflexivity.
  - rewrite gate_run_cons in *. cbn [fst snd map] in *.
    rewrite (IH _ Hinc). f_equal.
    rewrite gate_report_fired.
    destruct (gate_complete capture (fst (gate_report capture rp g))) eqn:E;
      [|reflexivity].
    exfalso. apply not_true_iff_false in Hinc. apply Hinc.
    apply gate_complete_flags. intros n Hn.
    rewrite gate_run_flag.
    rewrite (proj1 (gate_complete_flags _) E n Hn). reflexivity.
Qed.

(** A report calls [endCB] only when every required signal has been
    reported, whatever the sequence of reports. *)
Lemma gate_fires_only_when_complete (front : list report) (rp : report)
  (n : signal_name) :
  snd (gate_report capture rp (fst (gate_run capture front new_gate)))
    <> None ->
  In n (required capture) ->
  In n (map report_name (front ++ [rp])).
Proof.
  intros Hfire Hn. rewrite gate_report_fired in Hfire.
  destruct (gate_complete capture _) eqn:Hc; [|contradiction].
  pose proof (proj1 (gate_complete_flags _) Hc n Hn) as Hf.
  rewrite gate_report_flag, gate_run_flag in Hf.
  assert (Hnew : flag n new_gate = false) by now destruct n.
  rewrite Hnew in Hf. cbn [orb] in Hf.
  rewrite map_app. apply in_or_app. cbn [map].
  apply orb_true_iff in Hf as [Hf | Hf].
  - left. apply existsb_exists in Hf as (m & Hm & Heq).
    apply signal_name_eqb_eq in Heq. now subst m.
  - right. left. apply signal_name_eqb_eq in Hf. now subst n.
Qed.

Lemma required_nodup : NoDup (required capture).
Proof.
  unfold required. destruct capture; repeat constructor; cbn;
    intuition discriminate.
Qed.




End GateFacts.

(** **** Properties of the gate *)

Section GateClaims.

(** C2: for either set of required signals (process exit and stderr close,
    and stdout close when stdout is captured) and every order in which
    each required signal is reported once, [endCB] is called by the last
    report and by no report before it: exactly once, and exactly when the
    last required signal arrives. *)
Theorem gate_fires_once_at_last (capture : bool) (rps : list report) :
  Permutation (map report_name rps) (required capture) ->
  exists front last_report,
    rps = front ++ [last_report] /\
    snd (gate_run capture rps new_gate)
    = map (fun _ => None) front
        ++ [Some (exitError (fst (gate_run capture rps new_gate)))].
Proof.
  intros Hperm.
  assert (Hne : rps <> []).
  { intros ->. apply Permutation_length in Hperm. discriminate Hperm. }
  destruct (exists_last Hne) as (front & l & ->).
  exists front, l. split; [reflexivity|].
  pose proof (Permutation_NoDup (Permutation_sym Hperm)
                (required_nodup capture)) as Hnd.
  rewrite map_app in Hnd, Hperm. cbn [map] in Hnd, Hperm.
  apply NoDup_remove_2 in Hnd. rewrite app_nil_r in Hnd.
  assert (Hreq : In (report_name l) (required capture)).
  { apply (Permutation_in _ Hperm), in_or_app. right. now left. }
  set (g1 := fst (gate_run capture front new_gate)).
  assert (Hinc : gate_complete capture g1 = false).
  { apply not_true_iff_false. intros Hc.
    pose proof (proj1 (gate_complete_flags capture g1) Hc _ Hreq) as Hf.
    unfold g1 in Hf. rewrite gate_run_flag in Hf. cbn [flag new_gate] in Hf.
    assert (Hf' : existsb (signal_name_eqb (report_name l))
                    (map report_name front) = true)
      by (destruct (report_name l); exact Hf).
    apply existsb_exists in Hf' as (n & Hin & Heq).
    apply signal_name_eqb_eq in Heq. subst n. contradiction. }
  assert (Hdone : gate_complete capture
                    (fst (gate_report capture l g1)) = true).
  { apply gate_complete_flags. intros n Hn.
    rewrite gate_report_flag. unfold g1. rewrite gate_run_flag.
    apply (Permutation_in _ (Permutation_sym Hperm)) in Hn.
    apply in_app_or in Hn as [Hn | [<- | []]].
    - assert (He : existsb (signal_name_eqb n) (map report_name front) = true).
      { apply existsb_exists. exists n. split; [exact Hn|].
        now apply signal_name_eqb_eq. }
      rewrite He. now rewrite orb_true_r.
    - replace (signal_name_eqb (report_name l) (report_name l)) with true
        by (symmetry; now apply signal_name_eqb_eq).
      now rewrite orb_true_r. }
  rewrite gate_run_app. cbn [fst snd]. fold g1.
  rewrite (gate_run_silent capture front new_gate Hinc).
  f_equal. rewrite gate_run_cons. cbn [gate_run fst snd].
  now rewrite gate_report_fired, Hdone.
Qed.

Lemma gate_fires_once_at_last_witness :
  exists front last_report,
    [StdoutCloseReport; ExitReport (Some 2%Z) None; StderrCloseReport]
      = front ++ [last_report] /\
    snd (gate_run true
           [StdoutCloseReport; ExitReport (Some 2%Z) None; StderrCloseReport]
           new_gate)
    = map (fun _ => None) front
        ++ [Some (exitError (fst (gate_run true
              [StdoutCloseReport; ExitReport (Some 2%Z) None;
               StderrCloseReport] new_gate)))].
Proof.
  apply (gate_fires_once_at_last true
           [StdoutCloseReport; ExitReport (Some 2%Z) None; StderrCloseReport]).
  cbn [map report_name required].
  apply perm_trans with [processExitedN; stdoutClosedN; stderrClosedN].
  - apply perm_swap.
  - apply perm_skip, perm_swap.
Defined.



End GateClaims.

(* ================================================================== *)
(** ** The session *)
(* ================================================================== *)

Section SessionFacts.

Lemma forward_eq (ds : list delivery) (s : session) :
  forward ds s =
  {| command := command s; args := args s; opts := opts s;
     stderr_listeners := stderr_listeners s;
     error_listeners := error_listeners s; childProc := childProc s;
     stdoutRing := stdoutRing s; stderrRing := stderrRing s;
     the_gate := the_gate s; ended := ended s; timer := timer s;
     trace := trace s ++ stderr_lines ds |}.
Proof.
  unfold forward. revert s. induction ds as [|d ds IH]; intros s.
  - destruct s. cbn. now rewrite app_nil_r.
  - cbn [fold_left]. rewrite IH. cbn. now rewrite <- app_assoc.
Qed.

Lemma quiet_app (a b : list notification) :
  quiet a -> quiet b -> quiet (a ++ b).
Proof. unfold quiet. intros Ha Hb. apply Forall_app. now split. Qed.

Lemma quiet_stderr_lines (ds : list delivery) : quiet (stderr_lines ds).
Proof.
  unfold quiet, stderr_lines. apply Forall_forall. intros n Hn.
  apply in_map_iff in Hn as (d & <- & _). now split.
Qed.

Lemma quiet_one (n : notification) :
  is_terminal n = false -> is_callback n = false -> quiet [n].
Proof. intros H1 H2. repeat constructor; assumption. Qed.

(** **** How a handler moves the trace and the [ended] flag *)

Lemma advance_refl (s : session) : advance s s.
Proof.
  left. split; [reflexivity|]. exists [].
  rewrite app_nil_r. split; [reflexivity | constructor].
Qed.

Lemma advance_trans (s1 s2 s3 : session) :
  advance s1 s2 -> advance s2 s3 -> advance s1 s3.
Proof.
  intros [[He (q & Ht & Hq)]
         | (He & He' & q1 & h & err & out & et & q2 & Ht & Hq1 & Hq2)]
         [[Hf (p & Hu & Hp)]
         | (Hf & Hf' & p1 & h2 & err2 & out2 & et2 & p2 & Hu & Hp1 & Hp2)].
  - left. split; [congruence|]. exists (q ++ p).
    rewrite Hu, Ht, app_assoc. split; [reflexivity | now apply quiet_app].
  - right. split; [congruence|]. split; [assumption|].
    exists (q ++ p1), h2, err2, out2, et2, p2.
    rewrite Hu, Ht, <- !app_assoc.
    refine (conj eq_refl (conj _ Hp2)). now apply quiet_app.
  - right. split; [assumption|]. split; [congruence|].
    exists q1, h, err, out, et, (q2 ++ p).
    rewrite Hu, Ht, <- !app_assoc.
    refine (conj eq_refl (conj Hq1 _)). now apply quiet_app.
  - congruence.
Qed.

Lemma advance_quiet (s s' : session) (q : list notification) :
  ended s' = ended s -> trace s' = trace s ++ q -> quiet q -> advance s s'.
Proof. intros He Ht Hq. left. split; [exact He | now exists q]. Qed.

Lemma advance_same (s s' : session) :
  ended s' = ended s -> trace s' = trace s -> advance s s'.
Proof.
  intros He Ht. apply (advance_quiet s s' []); [exact He | | constructor].
  now rewrite app_nil_r.
Qed.

Lemma advance_notify (n : notification) (s : session) :
  is_terminal n = false -> is_callback n = false -> advance s (notify n s).
Proof.
  intros H1 H2. apply (advance_quiet _ _ [n]);
    [reflexivity | reflexivity | now apply quiet_one].
Qed.

(** **** The terminal emission *)

Lemma finish_ended (err : option error) (out et : string) (s : session) :
  ended (finish err out et s) = true.
Proof.
  unfold finish, uncaught, emitEnd. destruct (ended s) eqn:E; [exact E|].
  destruct err; [destruct (error_listeners s =? 0)%nat|]; reflexivity.
Qed.

Lemma finish_trace (err : option error) (out et : string) (s : session) :
  ended s = false ->
  trace (finish err out et s)
  = trace s ++ terminal_out (listening s) err out et.
Proof.
  intros E. unfold finish, uncaught, emitEnd, terminal_out, listening.
  rewrite E.
  destruct err; [destruct (error_listeners s =? 0)%nat|]; cbn;
    now rewrite <- app_assoc.
Qed.

Lemma finish_idle (err : option error) (out et : string) (s : session) :
  ended s = true -> finish err out et s = s.
Proof. intros E. unfold finish, uncaught, emitEnd. now rewrite E. Qed.

Lemma finish_frame (err : option error) (out et : string) (s : session) :
  opts (finish err out et s) = opts s /\
  timer (finish err out et s) = timer s /\
  stdoutRing (finish err out et s) = stdoutRing s /\
  stderrRing (finish err out et s) = stderrRing s /\
  the_gate (finish err out et s) = the_gate s /\
  error_listeners (finish err out et s) = error_listeners s /\
  childProc (finish err out et s) = childProc s /\
  stderr_listeners (finish err out et s) = stderr_listeners s.
Proof.
  unfold finish, uncaught, emitEnd.
  destruct (ended s); [now repeat split|].
  destruct err; [destruct (error_listeners s =? 0)%nat|]; now repeat split.
Qed.

Lemma advance_finish (err : option error) (out et : string) (s : session) :
  advance s (finish err out et s).
Proof.
  destruct (ended s) eqn:E; [rewrite finish_idle by exact E;
                            apply advance_refl|].
  right. split; [exact E|]. split; [apply finish_ended|].
  exists [], (listening s), err, out, et, [].
  rewrite (finish_trace _ _ _ _ E), app_nil_r. cbn [app].
  refine (conj eq_refl (conj _ _)); constructor.
Qed.

(** What the timer callback does: the call of [kill] is reached unless
    the emission throws. *)
Lemma timer_fired (s : session) :
  timer s = true ->
  let e := Some (mkError (timeout_message (timeout (opts s)))) in
  let s1 := finish e (get (stdoutRing s)) (get (stderrRing s))
              (set_timer false s) in
  step TimerFired s
  = if emit_throws e s then s1 else notify (ProcKill None) s1.
Proof.
  intros Ht. cbn [step]. rewrite Ht. cbv zeta.
  unfold emit_throws, listening, finish, uncaught, emitEnd.
  cbn [set_timer ended error_listeners stdoutRing stderrRing].
  destruct (ended s); [reflexivity|].
  destruct (error_listeners s =? 0)%nat; reflexivity.
Qed.

Lemma advance_forward (ds : list delivery) (s : session) :
  advance s (forward ds s).
Proof.
  rewrite forward_eq. apply (advance_quiet _ _ (stderr_lines ds));
    [reflexivity | reflexivity | apply quiet_stderr_lines].
Qed.

(** [endCB] with both rings: the terminal emission is attempted with the
    augmented error and the ring snapshots; nothing else can throw. *)
Lemma endCB_with_rings (err : option error) (ro re : ring) (s : session) :
  exists s0,
    endCB err (Some ro) (Some re) s
    = emitEnd (augmented err (get re)) (get ro) (get re) s0 /\
    ended s0 = ended s /\ trace s0 = trace s /\ opts s0 = opts s /\
    timer s0 = timer s /\ stdoutRing s0 = stdoutRing s /\
    stderrRing s0 = stderrRing s /\
    (forall n, flag n (the_gate s0) = flag n (the_gate s)) /\
    error_listeners s0 = error_listeners s.
Proof.
  unfold endCB, augmented.
  destruct err as [e|]; [destruct (contains "exited with code" (message e))|];
    eexists; (split; [reflexivity|]); repeat split; intros n; now destruct n.
Qed.

(** [endCB] without rings throws before anything is emitted. *)
Lemma endCB_without_rings (err : option error) (s : session) :
  endCB err None None s = (set_childProc false s, Some TypeErrorGetOfUndefined).
Proof.
  unfold endCB. destruct err as [e|]; [|reflexivity].
  now destruct (contains "exited with code" (message e)).
Qed.

(** A report to the gate: either the gate stays incomplete and only the
    gate changes, or it is complete and the terminal emission is
    attempted. *)
Lemma report_to_gate_cases (rp : report) (s : session) :
  let g := fst (gate_report (captureStdout (opts s)) rp (the_gate s)) in
  (gate_complete (captureStdout (opts s)) g = false /\
   report_to_gate rp s = set_gate g s) \/
  (gate_complete (captureStdout (opts s)) g = true /\
   exists s0,
     report_to_gate rp s
     = finish (augmented (exitError g) (get (stderrRing s)))
         (get (stdoutRing s)) (get (stderrRing s)) s0 /\
     ended s0 = ended s /\ trace s0 = trace s /\ opts s0 = opts s /\
     timer s0 = timer s /\ stdoutRing s0 = stdoutRing s /\
     stderrRing s0 = stderrRing s /\
     (forall n, flag n (the_gate s0) = flag n g) /\
     error_listeners s0 = error_listeners s).
Proof.
  cbv zeta. unfold report_to_gate.
  pose proof (gate_report_fired (captureStdout (opts s)) rp (the_gate s)) as Hf.
  destruct (gate_report (captureStdout (opts s)) rp (the_gate s)) as [g fired].
  cbn [fst snd] in *. subst fired.
  destruct (gate_complete (captureStdout (opts s)) g) eqn:Hc.
  - right. split; [reflexivity|].
    destruct (endCB_with_rings (exitError g) (stdoutRing (set_gate g s))
                (stderrRing (set_gate g s)) (set_gate g s))
      as (s0 & Heq & H1 & H2 & H3 & H4 & H5 & H6 & H7 & H8).
    exists s0. rewrite Heq. unfold finish.
    repeat split; assumption.
  - left. now split.
Qed.

Lemma advance_report_to_gate (rp : report) (s : session) :
  advance s (report_to_gate rp s).
Proof.
  destruct (report_to_gate_cases rp s)
    as [[_ ->] | (_ & s0 & -> & He & Ht & _ & _ & _ & _ & _ & Hl)].
  - now apply advance_same.
  - apply advance_trans with s0; [now apply advance_same|].
    apply advance_finish.
Qed.

Lemma advance_step (ev : event) (s : session) : advance s (step ev s).
Proof.
  destruct ev.
  - cbn [step]. rewrite endCB_without_rings. unfold uncaught. cbn [fst snd].
    eapply advance_trans; [|now apply advance_notify].
    now apply advance_same.
  - apply advance_report_to_gate.
  - cbn [step]. destruct (captureStdout (opts s)); [|apply advance_refl].
    eapply advance_trans; [now apply (advance_notify (EmitData data))|].
    now apply advance_same.
  - cbn [step]. destruct (captureStdout (opts s)); [|apply advance_refl].
    eapply advance_trans; [|apply advance_report_to_gate].
    now apply advance_same.
  - cbn [step]. destruct (append data (stderrRing s)) as [r ds].
    eapply advance_trans; [|apply advance_forward]. now apply advance_same.
  - cbn [step]. destruct (close (stderrRing s)) as [r ds].
    eapply advance_trans; [|apply advance_report_to_gate].
    eapply advance_trans; [|apply advance_forward]. now apply advance_same.
  - destruct (timer s) eqn:Ht;
      [|cbn [step]; rewrite Ht; apply advance_refl].
    rewrite (timer_fired s Ht). cbv zeta.
    assert (H : advance s
                  (finish (Some (mkError (timeout_message (timeout (opts s)))))
                     (get (stdoutRing s)) (get (stderrRing s))
                     (set_timer false s))).
    { eapply advance_trans; [|apply advance_finish]. now apply advance_same. }
    destruct (emit_throws _ s); [exact H|].
    eapply advance_trans; [exact H | now apply advance_notify].
  - now apply advance_same.
  - now apply advance_same.
  - now apply advance_same.
  - cbn [step]. destruct (childProc s); now apply advance_notify.
Qed.

Lemma run_events_app (a b : list event) (s : session) :
  run_events (a ++ b) s = run_events b (run_events a s).
Proof. unfold run_events. apply fold_left_app. Qed.

Lemma advance_run_events (evs : list event) (s : session) :
  advance s (run_events evs s).
Proof.
  revert s. induction evs as [|ev evs IH]; intros s.
  - apply advance_refl.
  - cbn. eapply advance_trans; [apply advance_step | apply IH].
Qed.

(** **** The trace of a session is settled: quiet until the session has
    ended, and ended once afterwards *)

Lemma settled_advance (s s' : session) :
  settled s -> advance s s' -> settled s'.
Proof.
  unfold settled.
  intros Hs [[He (q & Ht & Hq)]
            | (He & He' & q1 & h & err & out & et & q2 & Ht & Hq1 & Hq2)].
  - rewrite He, Ht. destruct (ended s).
    + destruct Hs as (front & h & err & out & et & back & -> & Hf & Hb).
      exists front, h, err, out, et, (back ++ q).
      rewrite <- !app_assoc. repeat split; try assumption.
      now apply quiet_app.
    + now apply quiet_app.
  - rewrite He', Ht. rewrite He in Hs.
    exists (trace s ++ q1), h, err, out, et, q2.
    rewrite <- app_assoc. repeat split; try assumption.
    now apply quiet_app.
Qed.

Lemma run_settled (cmd : string) (arguments : list string) (o : options)
  (listeners handlers : nat) (s0 : session) :
  run cmd arguments o listeners handlers = inr s0 ->
  settled s0 /\ ended s0 = false /\ opts s0 = o /\ the_gate s0 = new_gate /\
  timer s0 = timeout_set o.
Proof.
  unfold run. destruct (cmd =? "")%string; [discriminate|].
  destruct (listeners =? 0)%nat; intros [= <-]; rewrite ?forward_eq; cbn;
    unfold settled; cbn; repeat split; repeat constructor.
Qed.

Lemma run_listeners (cmd : string) (arguments : list string) (o : options)
  (listeners handlers : nat) (s0 : session) :
  run cmd arguments o listeners handlers = inr s0 ->
  error_listeners s0 = handlers /\ stderr_listeners s0 = listeners.
Proof.
  unfold run. destruct (cmd =? "")%string; [discriminate|].
  destruct (listeners =? 0)%nat; intros [= <-]; rewrite ?forward_eq;
    now cbn.
Qed.

End SessionFacts.

(** **** The gate, the [ended] flag and the timer along a run *)

Section SessionGate.

Lemma gate_complete_mono (capture : bool) (g g' : gate) :
  (forall n, flag n g = true -> flag n g' = true) ->
  gate_complete capture g = true -> gate_complete capture g' = true.
Proof.
  intros Hmono Hc. apply gate_complete_flags. intros n Hn.
  apply Hmono. now apply (proj1 (gate_complete_flags capture g) Hc).
Qed.

Lemma gate_complete_ext (capture : bool) (g g' : gate) :
  (forall n, flag n g' = flag n g) ->
  gate_complete capture g' = gate_complete capture g.
Proof.
  intros H. unfold gate_complete.
  pose proof (H processExitedN) as H1. pose proof (H stdoutClosedN) as H2.
  pose proof (H stderrClosedN) as H3. cbn in H1, H2, H3.
  now rewrite H1, H2, H3.
Qed.

(** What a report does to the session besides the trace. *)
Lemma report_to_gate_summary (rp : report) (s : session) :
  let s' := report_to_gate rp s in
  opts s' = opts s /\ timer s' = timer s /\
  stdoutRing s' = stdoutRing s /\ stderrRing s' = stderrRing s /\
  (forall n, flag n (the_gate s')
             = flag n (the_gate s) || signal_name_eqb n (report_name rp)) /\
  ((gate_done s' = false /\ gate_done s = false /\ ended s' = ended s) \/
   (gate_done s' = true /\ ended s' = true)).
Proof.
  cbv zeta.
  pose proof (gate_report_flag (captureStdout (opts s)) rp (the_gate s))
    as Hflag.
  destruct (report_to_gate_cases rp s)
    as [[Hc ->] | (Hc & s0 & -> & He & Ht & Ho & Hti & Hro & Hre & Hfl & _)].
  - cbn. refine (conj _ (conj _ (conj _ (conj _ (conj _ _)))));
      try reflexivity; try assumption.
    left. unfold gate_done. cbn.
    refine (conj _ (conj _ _)); try reflexivity; try assumption.
    apply not_true_iff_false. intros Hd. apply not_true_iff_false in Hc.
    apply Hc. apply (gate_complete_mono _ (the_gate s)); [|assumption].
    intros n Hn. now rewrite Hflag, Hn.
  - destruct (finish_frame
                (augmented (exitError (fst (gate_report (captureStdout (opts s))
                                              rp (the_gate s))))
                   (get (stderrRing s)))
                (get (stdoutRing s)) (get (stderrRing s)) s0)
      as (E1 & E2 & E3 & E4 & E5 & _).
    refine (conj _ (conj _ (conj _ (conj _ (conj _ _))))); try congruence.
    right. split; [|apply finish_ended].
    unfold gate_done. rewrite E1, E5, Ho.
    now rewrite (gate_complete_ext _ _ _ Hfl).
Qed.

(** The timer callback, seen from the rest of the session. *)
Lemma timer_fired_frame (s : session) :
  timer s = true ->
  opts (step TimerFired s) = opts s /\
  the_gate (step TimerFired s) = the_gate s /\
  stdoutRing (step TimerFired s) = stdoutRing s /\
  stderrRing (step TimerFired s) = stderrRing s /\
  error_listeners (step TimerFired s) = error_listeners s /\
  childProc (step TimerFired s) = childProc s /\
  stderr_listeners (step TimerFired s) = stderr_listeners s /\
  timer (step TimerFired s) = false /\
  ended (step TimerFired s) = true.
Proof.
  intros Ht. rewrite (timer_fired s Ht). cbv zeta.
  destruct (finish_frame
              (Some (mkError (timeout_message (timeout (opts s)))))
              (get (stdoutRing s)) (get (stderrRing s)) (set_timer false s))
    as (E1 & E2 & E3 & E4 & E5 & E6 & E7 & E8).
  destruct (emit_throws _ s); cbn [notify opts the_gate stdoutRing
    stderrRing error_listeners childProc stderr_listeners timer ended];
    rewrite E1, E2, E3, E4, E5, E6, E7, E8, finish_ended; now repeat split.
Qed.

Lemma step_opts (ev : event) (s : session) : opts (step ev s) = opts s.
Proof.
  by_event ev.
  - now rewrite endCB_without_rings.
  - apply report_to_gate_summary.
  - now destruct (captureStdout (opts s)).
  - destruct (captureStdout (opts s)); [|reflexivity].
    now rewrite (proj1 (report_to_gate_summary _ _)).
  - destruct (append data (stderrRing s)). now rewrite forward_eq.
  - destruct (close (stderrRing s)).
    now rewrite (proj1 (report_to_gate_summary _ _)), forward_eq.
  - destruct (timer s) eqn:Ht; [|cbn [step]; now rewrite Ht].
    apply (timer_fired_frame s Ht).
  - reflexivity.
  - reflexivity.
  - reflexivity.
  - now destruct (childProc s).
Qed.

Lemma step_flag (ev : event) (s : session) (n : signal_name) :
  flag n (the_gate (step ev s))
  = flag n (the_gate s) || raises (captureStdout (opts s)) ev n.
Proof.
  by_event ev; cbn [raises]; rewrite ?orb_false_r.
  - now rewrite endCB_without_rings.
  - apply report_to_gate_summary.
  - now destruct (captureStdout (opts s)).
  - destruct (captureStdout (opts s)); [|now rewrite orb_false_r].
    now rewrite (proj1 (proj2 (proj2 (proj2 (proj2
                   (report_to_gate_summary _ _)))))).
  - destruct (append data (stderrRing s)). now rewrite forward_eq.
  - destruct (close (stderrRing s)).
    now rewrite (proj1 (proj2 (proj2 (proj2 (proj2
                   (report_to_gate_summary _ _)))))), forward_eq.
  - destruct (timer s) eqn:Ht; [|cbn [step]; now rewrite Ht].
    now rewrite (proj1 (proj2 (timer_fired_frame s Ht))).
  - reflexivity.
  - reflexivity.
  - reflexivity.
  - now destruct (childProc s).
Qed.

(** One step, seen from the gate, the [ended] flag and the timer. *)
Lemma step_summary (ev : event) (s : session) :
  let s' := step ev s in
  (gate_done s' = gate_done s /\ ended s' = ended s /\ timer s' = timer s) \/
  (gate_done s' = true /\ ended s' = true /\ timer s' = timer s) \/
  (ev = TimerFired /\ gate_done s' = gate_done s /\ ended s' = true /\
   timer s = true /\ timer s' = false).
Proof.
  cbv zeta.
  assert (Hrep : forall rp s1,
             gate_done s1 = gate_done s -> ended s1 = ended s ->
             timer s1 = timer s ->
             (gate_done (report_to_gate rp s1) = gate_done s /\
              ended (report_to_gate rp s1) = ended s /\
              timer (report_to_gate rp s1) = timer s) \/
             (gate_done (report_to_gate rp s1) = true /\
              ended (report_to_gate rp s1) = true /\
              timer (report_to_gate rp s1) = timer s)).
  { intros rp s1 Hg He Ht.
    destruct (report_to_gate_summary rp s1)
      as (_ & Hti & _ & _ & _ & [(H1 & H2 & H3) | (H1 & H2)]).
    - left. repeat split; congruence.
    - right. repeat split; congruence. }
  by_event ev.
  - left. now rewrite endCB_without_rings.
  - destruct (Hrep (ExitReport code signal) s) as [H | H]; auto.
  - left. now destruct (captureStdout (opts s)).
  - destruct (captureStdout (opts s)); [|now left].
    destruct (Hrep StdoutCloseReport
                (set_stdoutRing (fst (close (stdoutRing s))) s)) as [H | H];
      auto.
  - left. destruct (append data (stderrRing s)). now rewrite forward_eq.
  - destruct (close (stderrRing s)) as [r ds].
    destruct (Hrep StderrCloseReport (forward ds (set_stderrRing r s)))
      as [H | H]; auto; now rewrite forward_eq.
  - destruct (timer s) eqn:Ht; [|left; cbn [step]; now rewrite Ht].
    right. right. split; [reflexivity|].
    destruct (timer_fired_frame s Ht)
      as (E1 & E2 & _ & _ & _ & _ & _ & E3 & E4).
    unfold gate_done. now rewrite E1, E2, E3, E4.
  - now left.
  - now left.
  - now left.
  - left. now destruct (childProc s).
Qed.

Lemma accounted_step (ev : event) (s : session) :
  accounted s -> accounted (step ev s).
Proof.
  intros (H1 & H2 & H3). unfold accounted. rewrite step_opts.
  destruct (step_summary ev s)
    as [(Hg & He & Ht) | [(Hg & He & Ht) | (_ & Hg & He & Hs & Ht)]].
  - rewrite Hg, He, Ht. refine (conj _ (conj _ _)); assumption.
  - rewrite Ht. refine (conj _ (conj _ _)); auto.
  - refine (conj _ (conj _ _)); auto; congruence.
Qed.

Lemma accounted_run_events (evs : list event) (s : session) :
  accounted s -> accounted (run_events evs s).
Proof.
  revert s. induction evs as [|ev evs IH]; intros s H; [exact H|].
  cbn. apply IH. now apply accounted_step.
Qed.

Lemma run_events_opts (evs : list event) (s : session) :
  opts (run_events evs s) = opts s.
Proof.
  revert s. induction evs as [|ev evs IH]; intros s; [reflexivity|].
  cbn. now rewrite IH, step_opts.
Qed.

Lemma run_events_flag (evs : list event) (s : session) (n : signal_name) :
  flag n (the_gate (run_events evs s))
  = flag n (the_gate s)
    || existsb (fun ev => raises (captureStdout (opts s)) ev n) evs.
Proof.
  revert s. induction evs as [|ev evs IH]; intros s.
  - cbn. now rewrite orb_false_r.
  - cbn [run_events fold_left existsb].
    change (fold_left (fun s' ev0 => step ev0 s') evs (step ev s))
      with (run_events evs (step ev s)).
    now rewrite IH, step_flag, step_opts, orb_assoc.
Qed.

Lemma run_events_timer (evs : list event) (s : session) :
  existsb is_timer evs = false ->
  timer (run_events evs s) = timer s.
Proof.
  revert s. induction evs as [|ev evs IH]; intros s H; [reflexivity|].
  cbn [existsb] in H. apply orb_false_iff in H as [Hev Hevs].
  cbn [run_events fold_left].
  change (fold_left (fun s' ev0 => step ev0 s') evs (step ev s))
    with (run_events evs (step ev s)).
  rewrite (IH _ Hevs).
  destruct (step_summary ev s)
    as [(_ & _ & Ht) | [(_ & _ & Ht) | (-> & _)]];
    [exact Ht | exact Ht | discriminate Hev].
Qed.

End SessionGate.

(** **** Counting the terminal notifications *)

Section Counting.

Lemma quiet_counts (tr : list notification) :
  quiet tr -> terminal_count tr = 0 /\ callback_count tr = 0.
Proof.
  unfold terminal_count, callback_count.
  induction 1 as [|n tr [H1 H2] _ [IH1 IH2]]; [now split|].
  cbn [filter]. rewrite H1, H2. now split.
Qed.

Lemma terminal_count_app (a b : list notification) :
  terminal_count (a ++ b) = terminal_count a + terminal_count b.
Proof. unfold terminal_count. now rewrite filter_app, length_app. Qed.

Lemma callback_count_app (a b : list notification) :
  callback_count (a ++ b) = callback_count a + callback_count b.
Proof. unfold callback_count. now rewrite filter_app, length_app. Qed.

Lemma ends_once_counts (front : list notification) (heard : bool)
  (err : option error) (out et : string) (back : list notification) :
  quiet front -> quiet back ->
  terminal_count (front ++ terminal_out heard err out et ++ back) = 1 /\
  callback_count (front ++ terminal_out heard err out et ++ back)
  = if called heard err then 1 else 0.
Proof.
  intros Hf Hb.
  destruct (quiet_counts _ Hf) as [F1 F2].
  destruct (quiet_counts _ Hb) as [B1 B2].
  rewrite !terminal_count_app, !callback_count_app, F1, F2, B1, B2.
  destruct err as [e|]; [destruct heard|]; now split.
Qed.

Lemma heard_ends_exactly_once (front : list notification) (heard : bool)
  (err : option error) (out et : string) (back : list notification) :
  called heard err = true -> quiet front -> quiet back ->
  ends_exactly_once (front ++ terminal_out heard err out et ++ back).
Proof.
  intros Hc Hf Hb.
  assert (Hp : terminal_out heard err out et = terminal_pair err out et).
  { destruct err as [e|]; [|reflexivity]. cbn in Hc. now subst heard. }
  rewrite Hp. unfold terminal_pair.
  eexists front, _, _, back. cbn [app].
  refine (conj eq_refl (conj _ (conj _ (conj Hf Hb)))); now destruct err.
Qed.

Lemma prefix_refl (s : string) : prefix s s = true.
Proof.
  induction s as [|c s IH]; [reflexivity|].
  cbn. now destruct (ascii_dec c c).
Qed.

Lemma contains_refl (s : string) : contains s s = true.
Proof. destruct s; cbn [contains]; now rewrite prefix_refl. Qed.

Lemma contains_app_r (a pat : string) : contains pat (a ++ pat) = true.
Proof.
  induction a as [|c a IH]; [apply contains_refl|].
  cbn [String.append contains]. rewrite IH. apply orb_true_r.
Qed.

End Counting.

(** **** The error extract *)

Section ExtractError.

Lemma keep_message_run (ls acc : list string) :
  (Forall (fun l => is_noise l = false) ls /\
   fold_left keep_message ls acc = acc ++ ls) \/
  (exists front l run,
     ls = front ++ l :: run /\ is_noise l = true /\
     Forall (fun l => is_noise l = false) run /\
     fold_left keep_message ls acc = run).
Proof.
  induction ls as [|x ls IH] using rev_ind.
  - left. split; [constructor | now rewrite app_nil_r].
  - rewrite fold_left_app. cbn [fold_left].
    change (keep_message (fold_left keep_message ls acc) x)
      with (if is_noise x then []
            else fold_left keep_message ls acc ++ [x]).
    destruct (is_noise x) eqn:Hx.
    + right. exists ls, x, []. repeat split; try assumption; constructor.
    + destruct IH as [[Hall ->] | (front & l & run & -> & Hl & Hrun & ->)].
      * left. split; [|now rewrite app_assoc].
        apply Forall_app. split; [exact Hall | now constructor].
      * right. exists front, l, (run ++ [x]).
        rewrite <- app_assoc. repeat split; try assumption.
        apply Forall_app. split; [exact Hrun | now constructor].
Qed.

End ExtractError.

(** **** Properties of the session *)

Section SessionClaims.

Lemma run_accounted (cmd : string) (arguments : list string) (o : options)
  (listeners handlers : nat) (s0 : session) :
  run cmd arguments o listeners handlers = inr s0 -> accounted s0.
Proof.
  intros Hrun. destruct (run_settled _ _ _ _ _ _ Hrun)
    as (_ & He & Ho & Hg & Ht).
  unfold accounted, gate_done. rewrite Hg, He, Ho, Ht.
  refine (conj _ (conj _ _)); [| discriminate | auto].
  unfold gate_complete. cbn. discriminate.
Qed.

Lemma run_events_settled (evs : list event) (s : session) :
  settled s -> settled (run_events evs s).
Proof.
  intros H. apply (settled_advance s); [exact H | apply advance_run_events].
Qed.

(** Once the required signals have arrived the gate is complete. *)
Lemma run_gate_done (cmd : string) (arguments : list string) (o : options)
  (listeners handlers : nat) (s0 : session) (evs : list event) :
  run cmd arguments o listeners handlers = inr s0 ->
  (exists code signal, In (ProcExit code signal) evs) ->
  In StderrClose evs ->
  (captureStdout o = true -> In StdoutClose evs) ->
  gate_done (run_events evs s0) = true /\ ended (run_events evs s0) = true.
Proof.
  intros Hrun (code & signal & Hexit) Herr Hout.
  destruct (run_settled _ _ _ _ _ _ Hrun) as (Hset & _ & Ho & Hg & _).
  pose proof (accounted_run_events evs s0 (run_accounted _ _ _ _ _ _ Hrun))
    as (Hdone & _).
  assert (Hgate : gate_done (run_events evs s0) = true).
  { unfold gate_done. rewrite run_events_opts, Ho.
    apply gate_complete_flags. intros n Hn.
    rewrite run_events_flag, Hg, Ho. cbn [new_gate].
    assert (Hex : existsb (fun ev => raises (captureStdout o) ev n) evs = true).
    { apply existsb_exists. unfold required in Hn.
      destruct Hn as [<- | [<- | Hn]].
      - now exists (ProcExit code signal).
      - now exists StderrClose.
      - destruct (captureStdout o) eqn:Hc; [|contradiction].
        destruct Hn as [<- | []]. exists StdoutClose.
        split; [now apply Hout | reflexivity]. }
    rewrite Hex. now destruct n. }
  split; [exact Hgate | now apply Hdone].
Qed.

(** C5 as the code has it: the ['error'] handler calls [endCB(err)]
    without the rings, [endCB] throws a [TypeError] on the first [.get()]
    and nothing is emitted: neither then nor later, as long as no exit
    signal and no timeout arrive.  The claim is right about what the
    handler is written to do; the code misses it. *)
Theorem spawn_error_not_surfaced (cmd : string)
  (arguments : option (list string)) (raw : raw_options) (s0 : session)
  (err : error) (evs : list event) :
  ChildProcessCommand cmd arguments raw = inr s0 ->
  (forall code signal, ~ In (ProcExit code signal) evs) ->
  existsb is_timer evs = false ->
  trace (step (ProcError err) s0)
    = trace s0 ++ [Uncaught TypeErrorGetOfUndefined] /\
  terminal_count (trace (run_events (ProcError err :: evs) s0)) = 0 /\
  callback_count (trace (run_events (ProcError err :: evs) s0)) = 0.
Proof.
  intros Hrun Hnoexit Hnotimer. unfold ChildProcessCommand in Hrun.
  split; [cbn [step]; now rewrite endCB_without_rings|].
  destruct (run_settled _ _ _ _ _ _ Hrun) as (Hset & He & Ho & Hg & Ht).
  set (evs' := ProcError err :: evs).
  pose proof (run_events_settled evs' s0 Hset) as Hfinal.
  pose proof (accounted_run_events evs' s0 (run_accounted _ _ _ _ _ _ Hrun))
    as (_ & Hwhy & _).
  assert (Hnt : existsb is_timer evs' = false) by exact Hnotimer.
  assert (Hflag : flag processExitedN (the_gate (run_events evs' s0)) = false).
  { rewrite run_events_flag, Hg. cbn [new_gate flag orb].
    apply not_true_iff_false. intros Hex.
    apply existsb_exists in Hex as (ev & Hin & Hr).
    destruct Hin as [<- | Hin]; [discriminate Hr|].
    destruct ev; try discriminate Hr; try (now apply (Hnoexit _ _ Hin)).
    cbn in Hr. now rewrite andb_false_r in Hr. }
  assert (Hopen : ended (run_events evs' s0) = false).
  { apply not_true_iff_false. intros Hended.
    destruct (Hwhy Hended) as [Hdone | [Hfired Hcfg]].
    - unfold gate_done, gate_complete in Hdone. cbn [flag] in Hflag.
      rewrite Hflag in Hdone. discriminate Hdone.
    - rewrite (run_events_timer evs' s0 Hnt), Ht in Hfired.
      rewrite run_events_opts, Ho in Hcfg. congruence. }
  unfold settled in Hfinal. rewrite Hopen in Hfinal.
  now apply quiet_counts.
Qed.

Lemma spawn_error_not_surfaced_witness :
  exists s0,
    ChildProcessCommand "no-such-command" None (mkRawOptions None None None)
      = inr s0 /\
    let evs := [StdoutClose; StderrClose] in
    trace (step (ProcError (mkError "spawn no-such-command ENOENT")) s0)
      = trace s0 ++ [Uncaught TypeErrorGetOfUndefined] /\
    terminal_count
      (trace (run_events
                (ProcError (mkError "spawn no-such-command ENOENT") :: evs)
                s0)) = 0 /\
    callback_count
      (trace (run_events
                (ProcError (mkError "spawn no-such-command ENOENT") :: evs)
                s0)) = 0.
Proof.
  eexists. split; [reflexivity|].
  eapply (spawn_error_not_surfaced "no-such-command" None
            (mkRawOptions None None None)).
  - reflexivity.
  - intros code signal [H | [H | []]]; discriminate H.
  - reflexivity.
Defined.

(** C7 as the code has it.  With a timeout T configured (any truthy
    value; ['...' + T] is its text), if the gate is not complete when the
    timer fires, the session emits [error] with the message
    "process ran into a timeout (Ts)" and the snapshots of both rings as
    they are at that moment.  When an ['error'] listener is attached, the
    completion callback is then called with the same arguments and
    [childProc.kill()] is called.  When none is attached - the simple
    usage of the README - the emitter throws the error out of the timer
    callback: the completion callback is not called and the process is
    not killed.  In both cases the run has exactly one terminal
    notification, whatever arrives afterwards, the gate completing
    included. *)
Theorem timeout_emits_error_and_kills (cmd : string)
  (arguments : list string) (o : options) (listeners handlers : nat)
  (s0 : session) (T : seconds) (before after : list event) :
  run cmd arguments o listeners handlers = inr s0 ->
  timeout o = Some T ->
  truthy T = true ->
  existsb is_timer before = false ->
  gate_done (run_events before s0) = false ->
  let s := run_events before s0 in
  let e := mkError ("process ran into a timeout (" ++ text T ++ "s)")%string in
  let out := get (stdoutRing s) in
  let errtext := get (stderrRing s) in
  trace (step TimerFired s)
    = trace s ++
      (if listening s
       then [EmitError e out errtext; EndCallback (Some e) out errtext;
             ProcKill None]
       else [EmitError e out errtext; Uncaught (UnhandledError e)]) /\
  contains ("timeout (" ++ text T ++ "s)")%string (message e) = true /\
  terminal_count (trace (run_events after (step TimerFired s))) = 1 /\
  callback_count (trace (run_events after (step TimerFired s)))
  = (if listening s then 1 else 0).
Proof.
  intros Hrun HT Hpos Hnt Hgate s e out errtext.
  destruct (run_settled _ _ _ _ _ _ Hrun) as (Hset & _ & Ho & _ & Ht).
  pose proof (accounted_run_events before s0 (run_accounted _ _ _ _ _ _ Hrun))
    as (_ & Hwhy & _).
  fold s in Hwhy, Hgate.
  assert (Htimer : timer s = true).
  { unfold s. rewrite (run_events_timer before s0 Hnt), Ht.
    unfold timeout_set. now rewrite HT. }
  assert (Hopen : ended s = false).
  { apply not_true_iff_false. intros Hended.
    destruct (Hwhy Hended) as [Hdone | [Hfired _]]; congruence. }
  assert (Hopts : timeout (opts s) = Some T).
  { unfold s. now rewrite run_events_opts, Ho. }
  assert (Hquiet : quiet (trace s)).
  { pose proof (run_events_settled before s0 Hset) as H.
    fold s in H. unfold settled in H. now rewrite Hopen in H. }
  assert (Htrace : trace (step TimerFired s)
                   = trace s ++
                     (if listening s
                      then [EmitError e out errtext;
                            EndCallback (Some e) out errtext; ProcKill None]
                      else [EmitError e out errtext;
                            Uncaught (UnhandledError e)])).
  { rewrite (timer_fired s Htimer). cbv zeta.
    unfold emit_throws. rewrite Hopen. cbn [negb andb].
    unfold timeout_message. rewrite Hopts. fold e.
    destruct (listening s) eqn:L; cbn [negb notify trace];
      rewrite finish_trace by exact Hopen;
      change (listening (set_timer false s)) with (listening s);
      rewrite L; cbn [set_timer trace terminal_out terminal_pair
                        terminal_throw];
      now rewrite <- ?app_assoc. }
  assert (Hended : ended (step TimerFired s) = true).
  { apply (timer_fired_frame s Htimer). }
  assert (Hlater : exists q,
             trace (run_events after (step TimerFired s))
             = trace (step TimerFired s) ++ q /\ quiet q).
  { destruct (advance_run_events after (step TimerFired s))
      as [[_ H] | (H & _)]; [exact H | congruence]. }
  destruct Hlater as (q & Hq & Hqq).
  destruct (quiet_counts _ Hquiet) as [S1 S2].
  destruct (quiet_counts _ Hqq) as [Q1 Q2].
  refine (conj Htrace (conj _ _)).
  - apply (contains_app_r "process ran into a ").
  - rewrite Hq, Htrace, !terminal_count_app, !callback_count_app,
      S1, S2, Q1, Q2.
    destruct (listening s); now split.
Qed.

Lemma timeout_emits_error_and_kills_witness :
  exists s0,
    simple_usage = inr s0 /\
    let s := run_events [StdoutData "partial"] s0 in
    let e := mkError ("process ran into a timeout (" ++ "120" ++ "s)")%string in
    let out := get (stdoutRing s) in
    let errtext := get (stderrRing s) in
    let after := [ProcExit None (Some "SIGTERM"); StdoutClose; StderrClose] in
    (trace (step TimerFired s)
       = trace s ++
         (if listening s
          then [EmitError e out errtext; EndCallback (Some e) out errtext;
                ProcKill None]
          else [EmitError e out errtext; Uncaught (UnhandledError e)]) /\
     contains ("timeout (" ++ "120" ++ "s)")%string (message e) = true /\
     terminal_count (trace (run_events after (step TimerFired s))) = 1 /\
     callback_count (trace (run_events after (step TimerFired s)))
     = (if listening s then 1 else 0)) /\
    trace (step TimerFired s)
    = [EmitStart "/lib/mediainfo" ["--Output=XML"; "--Full"];
       EmitData "partial";
       EmitError (mkError "process ran into a timeout (120s)") "partial" "";
       Uncaught (UnhandledError
                   (mkError "process ran into a timeout (120s)"))] /\
    callback_count (trace (run_events after (step TimerFired s))) = 0 /\
    trace (step TimerFired (run_events [OnError; StdoutData "partial"] s0))
    = [EmitStart "/lib/mediainfo" ["--Output=XML"; "--Full"];
       EmitData "partial";
       EmitError (mkError "process ran into a timeout (120s)") "partial" "";
       EndCallback (Some (mkError "process ran into a timeout (120s)"))
         "partial" "";
       ProcKill None].
Proof.
  eexists. split; [reflexivity|]. cbv zeta.
  split; [|split; [|split]; reflexivity].
  eapply (timeout_emits_error_and_kills "/lib/mediainfo"
            ["--Output=XML"; "--Full"]
            (mkOptions true 0%Z (Some (mkSeconds true "120"))) 0 0 _
            (mkSeconds true "120") [StdoutData "partial"]);
    reflexivity.
Defined.

End SessionClaims.

(** **** The stderr extract in the exit error, and the stderr lines *)

Section StderrClaims.

(** C9: the extract of a stderr text is the join of the maximal trailing
    run of its lines that do not begin with a space or an opening bracket
    (the line before the run, if any, begins with one of them); when the
    gate fires with the error of a non-zero exit code, the emitted error
    message is the "exited with code" message followed by ": " and the
    extract of the stderr text; and exit code 2 with the stderr text
    "  progress\nreal error" gives a message that ends in ": real error",
    emitted with ['error'] and passed to the callback on a command with an
    ['error'] listener, emitted and thrown by the emitter on one
    without. *)
Theorem extract_error_appended :
  (forall stderr : string,
     exists front run,
       split_nl stderr = front ++ run /\
       Forall (fun l => is_noise l = false) run /\
       (front = [] \/ exists f l, front = f ++ [l] /\ is_noise l = true) /\
       extractError stderr = concat nl run) /\
  (forall c : Z, c <> 0%Z ->
     exit_error (Some c) None = Some (mkError (exit_code_message c))) /\
  (forall (s : session) (rp : report) (c : Z),
     ended s = false ->
     snd (gate_report (captureStdout (opts s)) rp (the_gate s))
       = Some (Some (mkError (exit_code_message c))) ->
     trace (report_to_gate rp s)
     = trace s ++
       terminal_out (listening s)
         (Some (mkError (exit_code_message c ++ ": "
                         ++ extractError (get (stderrRing s)))%string))
         (get (stdoutRing s)) (get (stderrRing s))) /\
  (forall s0,
     ChildProcessCommand "cmd" None (mkRawOptions None None None) = inr s0 ->
     exists e,
       trace (run_events [OnError; StderrData progress_then_error;
                          StderrClose; StdoutClose;
                          ProcExit (Some 2%Z) None] s0)
       = [EmitStart "cmd" [];
          EmitError e "" progress_then_error;
          EndCallback (Some e) "" progress_then_error] /\
       trace (run_events [StderrData progress_then_error;
                          StderrClose; StdoutClose;
                          ProcExit (Some 2%Z) None] s0)
       = [EmitStart "cmd" [];
          EmitError e "" progress_then_error;
          Uncaught (UnhandledError e)] /\
       message e = (exit_code_message 2 ++ ": real error")%string).
Proof.
  refine (conj _ (conj _ (conj _ _))).
  - intros stderr. unfold extractError.
    destruct (keep_message_run (split_nl stderr) [])
      as [[Hall ->] | (front & l & run & Hs & Hl & Hrun & ->)].
    + exists [], (split_nl stderr). cbn [app]. repeat split; auto.
    + exists (front ++ [l]), run. rewrite <- app_assoc.
      repeat split; try assumption. right. now exists front, l.
  - intros c Hc. cbn. apply Z.eqb_neq in Hc. now rewrite Hc.
  - intros s rp c Hopen Hfired.
    destruct (report_to_gate_cases rp s)
      as [[Hc _] | (Hc & s1 & -> & He & Ht & _ & _ & _ & _ & _ & Hl)];
      rewrite gate_report_fired, Hc in Hfired; [discriminate|].
    injection Hfired as Hfired. rewrite Hfired.
    rewrite finish_trace by congruence. rewrite Ht.
    unfold listening. rewrite Hl.
    (* the message carries the words "exited with code" whatever [c] is *)
    reflexivity.
  - intros s0 [= <-]. eexists. split; [|split]; reflexivity.
Qed.

Lemma no_stderr_terminal_out (heard : bool) (err : option error)
  (out et : string) :
  Forall (fun n => is_stderr_line n = false) (terminal_out heard err out et).
Proof. destruct err; [destruct heard|]; repeat constructor. Qed.

Lemma finish_no_stderr (err : option error) (out et : string)
  (s : session) :
  exists added,
    trace (finish err out et s) = trace s ++ added /\
    Forall (fun n => is_stderr_line n = false) added.
Proof.
  destruct (ended s) eqn:E.
  - exists []. rewrite finish_idle by exact E. rewrite app_nil_r.
    split; [reflexivity | constructor].
  - exists (terminal_out (listening s) err out et).
    split; [now apply finish_trace | apply no_stderr_terminal_out].
Qed.

(** With no observer on the stderr ring, a step emits no stderr line and
    subscribes nobody. *)
Lemma step_without_observer (ev : event) (s : session) :
  cbs (stderrRing s) = [] ->
  cbs (stderrRing (step ev s)) = [] /\
  exists added,
    trace (step ev s) = trace s ++ added /\
    Forall (fun n => is_stderr_line n = false) added.
Proof.
  intros Hcbs.
  assert (Hrep : forall rp s1,
             cbs (stderrRing s1) = [] ->
             cbs (stderrRing (report_to_gate rp s1)) = [] /\
             exists added,
               trace (report_to_gate rp s1) = trace s1 ++ added /\
               Forall (fun n => is_stderr_line n = false) added).
  { intros rp s1 H1.
    destruct (report_to_gate_summary rp s1) as (_ & _ & _ & Hre & _).
    rewrite Hre. split; [exact H1|].
    destruct (report_to_gate_cases rp s1)
      as [[_ ->] | (_ & s2 & -> & He & Ht & _)].
    - exists []. cbn. rewrite app_nil_r. split; [reflexivity | constructor].
    - destruct (finish_no_stderr
                  (augmented (exitError (fst (gate_report
                     (captureStdout (opts s1)) rp (the_gate s1))))
                     (get (stderrRing s1)))
                  (get (stdoutRing s1)) (get (stderrRing s1)) s2)
        as (added & Ha & Hn).
      exists added. split; [now rewrite Ha, Ht | exact Hn]. }
  assert (Hnone : forall r ls, cbs r = [] -> flat_map (emit r) ls = []).
  { intros r ls Hr. unfold emit. rewrite Hr.
    induction ls as [|l ls IH]; [reflexivity | exact IH]. }
  by_event ev.
  - rewrite endCB_without_rings. unfold uncaught. cbn.
    split; [exact Hcbs|]. eexists. split; [reflexivity | repeat constructor].
  - now apply Hrep.
  - destruct (captureStdout (opts s)); cbn; (split; [exact Hcbs|]).
    + eexists. split; [reflexivity | repeat constructor].
    + exists []. rewrite app_nil_r. split; [reflexivity | constructor].
  - destruct (captureStdout (opts s)).
    + destruct (Hrep StdoutCloseReport
                  (set_stdoutRing (fst (close (stdoutRing s))) s) Hcbs)
        as (H1 & added & H2 & H3).
      split; [exact H1|]. exists added. split; [exact H2 | exact H3].
    + split; [exact Hcbs|]. exists []. rewrite app_nil_r.
      split; [reflexivity | constructor].
  - pose proof (append_fst data (stderrRing s)) as Hf.
    pose proof (append_snd data (stderrRing s)) as Hd.
    destruct (append data (stderrRing s)) as [r ds]. cbn [fst snd] in Hf, Hd.
    rewrite forward_eq. cbn. subst r ds.
    rewrite (proj1 (append_lines_cbs data (stderrRing s))).
    split; [exact Hcbs|]. rewrite (Hnone _ _ Hcbs).
    exists []. split; [reflexivity | constructor].
  - pose proof (close_fst (stderrRing s)) as Hf.
    pose proof (close_snd (stderrRing s)) as Hd.
    destruct (close (stderrRing s)) as [r ds]. cbn [fst snd] in Hf, Hd.
    subst r ds. rewrite (Hnone _ _ Hcbs).
    destruct (Hrep StderrCloseReport
                (forward [] (set_stderrRing (fst (close_lines (stderrRing s))) s)))
      as (H1 & added & H2 & H3).
    { rewrite forward_eq. cbn.
      now rewrite (proj1 (close_lines_cbs (stderrRing s))). }
    split; [exact H1|]. exists added. split; [|exact H3].
    rewrite H2, forward_eq. cbn. now rewrite app_nil_r.
  - destruct (timer s) eqn:Htimer.
    + destruct (timer_fired_frame s Htimer) as (_ & _ & _ & -> & _).
      split; [exact Hcbs|].
      rewrite (timer_fired s Htimer). cbv zeta.
      destruct (finish_no_stderr
                  (Some (mkError (timeout_message (timeout (opts s)))))
                  (get (stdoutRing s)) (get (stderrRing s))
                  (set_timer false s))
        as (added & Ha & Hn).
      destruct (emit_throws _ s).
      * exists added. split; [exact Ha | exact Hn].
      * exists (added ++ [ProcKill None]). cbn [notify trace]. rewrite Ha.
        cbn [set_timer trace]. rewrite <- app_assoc. split; [reflexivity|].
        apply Forall_app. split; [exact Hn | repeat constructor].
    + cbn [step]. rewrite Htimer. split; [exact Hcbs|]. exists [].
      rewrite app_nil_r. split; [reflexivity | constructor].
  - split; [exact Hcbs|]. exists []. cbn. rewrite app_nil_r.
    split; [reflexivity | constructor].
  - split; [exact Hcbs|]. exists []. cbn. rewrite app_nil_r.
    split; [reflexivity | constructor].
  - split; [exact Hcbs|]. exists []. cbn. rewrite app_nil_r.
    split; [reflexivity | constructor].
  - split; [now destruct (childProc s)|].
    destruct (childProc s); eexists; (split; [reflexivity|]);
      repeat constructor.
Qed.

(** C10: on a command object built by the constructor, whatever listeners
    the caller attaches afterwards and whatever the process writes, the
    stderr ring never has an observer and no ['stderr'] line notification
    is emitted. *)
Theorem stderr_line_never_emitted (cmd : string)
  (arguments : option (list string)) (raw : raw_options) (s0 : session)
  (evs : list event) :
  ChildProcessCommand cmd arguments raw = inr s0 ->
  cbs (stderrRing (run_events evs s0)) = [] /\
  Forall (fun n => is_stderr_line n = false) (trace (run_events evs s0)).
Proof.
  intros Hrun.
  assert (Hinit : cbs (stderrRing s0) = [] /\
                  Forall (fun n => is_stderr_line n = false) (trace s0)).
  { unfold ChildProcessCommand, run in Hrun.
    destruct (cmd =? "")%string; [discriminate|].
    cbn in Hrun. injection Hrun as <-. cbn. split; [reflexivity|].
    repeat constructor. }
  clear Hrun. revert s0 Hinit.
  induction evs as [|ev evs IH]; intros s0 [Hcbs Htr]; [now split|].
  cbn [run_events fold_left]. apply IH.
  destruct (step_without_observer ev s0 Hcbs) as (H1 & added & -> & H2).
  split; [exact H1 | apply Forall_app; now split].
Qed.

Lemma stderr_line_never_emitted_witness :
  exists s0,
    ChildProcessCommand "cmd" (Some ["-v"]) (mkRawOptions None None None)
      = inr s0 /\
    let evs := [OnStderr; StderrData (concat nl ["warning"; ""]);
                StderrClose; StdoutClose; ProcExit (Some 0%Z) None] in
    cbs (stderrRing (run_events evs s0)) = [] /\
    Forall (fun n => is_stderr_line n = false) (trace (run_events evs s0)).
Proof.
  eexists. split; [reflexivity|].
  eapply (stderr_line_never_emitted "cmd" (Some ["-v"])
            (mkRawOptions None None None)).
  reflexivity.
Defined.

End StderrClaims.

(* ================================================================== *)
(** ** Further properties of the splitter and of the error extract *)
(* ================================================================== *)

Import Observe.

Section SplitMore.

Lemma split_nl_terminators (s : string) :
  List.length (split_nl s) = S (terminators s).
Proof.
  induction s as [|c | c c' s IHs IHc] using string_ind2.
  - reflexivity.
  - cbn. destruct (c =? CR)%char; [reflexivity|].
    destruct (c =? LF)%char; reflexivity.
  - rewrite split_nl_step.
    change (terminators (String c (String c' s)))
      with (if (c =? CR)%char then
              if (c' =? LF)%char then S (terminators s)
              else S (terminators (String c' s))
            else if (c =? LF)%char then S (terminators (String c' s))
            else terminators (String c' s)).
    destruct (c =? CR)%char.
    + destruct (c' =? LF)%char; cbn [List.length]; now rewrite ?IHs, ?IHc.
    + destruct (c =? LF)%char; [cbn [List.length]; now rewrite IHc|].
      destruct (split_nl (String c' s)) as [|l ls] eqn:E.
      * now apply split_nl_nonempty in E.
      * cbn [List.length] in *. exact IHc.
Qed.

Lemma one_line_app (a b : string) :
  one_line (a ++ b) = one_line a && one_line b.
Proof.
  induction a as [|c a IH]; [reflexivity|].
  cbn. rewrite IH. now rewrite !andb_assoc.
Qed.

(** The pieces of a split hold no line terminator. *)
Lemma split_nl_one_line (s : string) :
  Forall (fun l => one_line l = true) (split_nl s).
Proof.
  induction s as [|c | c c' s IHs IHc] using string_ind2.
  - repeat constructor.
  - cbn. destruct (c =? CR)%char eqn:E1; [repeat constructor|].
    destruct (c =? LF)%char eqn:E2; repeat constructor.
    cbn. now rewrite E1, E2.
  - rewrite split_nl_step. destruct (c =? CR)%char eqn:E1.
    + destruct (c' =? LF)%char; constructor; auto.
    + destruct (c =? LF)%char eqn:E2; [constructor; auto|].
      destruct (split_nl (String c' s)) as [|l ls] eqn:E.
      * now apply split_nl_nonempty in E.
      * inversion IHc as [|? ? Hl Hls]; subst. constructor; [|exact Hls].
        cbn. now rewrite E1, E2, Hl.
Qed.

Lemma split_nl_of_one_line (a : string) :
  one_line a = true -> split_nl a = [a].
Proof.
  induction a as [|c a IH]; [reflexivity|].
  intros H. cbn [one_line] in H.
  apply andb_true_iff in H as [H Ha]. apply andb_true_iff in H as [H1 H2].
  apply negb_true_iff in H1, H2.
  cbn [split_nl]. rewrite H1, H2, (IH Ha). reflexivity.
Qed.

Lemma split_nl_line_then (a rest : string) :
  one_line a = true ->
  split_nl (a ++ nl ++ rest) = a :: split_nl rest.
Proof.
  induction a as [|c a IH]; intros H.
  - cbn. reflexivity.
  - cbn [one_line] in H.
    apply andb_true_iff in H as [H Ha]. apply andb_true_iff in H as [H1 H2].
    apply negb_true_iff in H1, H2.
    cbn [String.append split_nl]. rewrite H1, H2.
    change (a ++ String LF rest)%string with (a ++ nl ++ rest)%string.
    now rewrite (IH Ha).
Qed.

End SplitMore.

Section SplitJoin.

(** Splitting undoes joining. *)
Lemma split_nl_concat (ls : list string) :
  ls <> [] ->
  Forall (fun l => one_line l = true) ls ->
  split_nl (concat nl ls) = ls.
Proof.
  intros Hne Hall. induction Hall as [|a ls Ha Hls IH]; [contradiction|].
  destruct ls as [|b ls].
  - now apply split_nl_of_one_line.
  - rewrite concat_cons_cons, (split_nl_line_then _ _ Ha).
    f_equal. apply IH. discriminate.
Qed.

(** X1: joining lines with LF and splitting the text again gives the lines
    back, for every non-empty list of lines that hold no CR and no LF; and
    the text is then in normal form: replacing its newlines by LF changes
    nothing. *)
Theorem split_join_round_trip (ls : list string) :
  ls <> [] ->
  Forall (fun l => one_line l = true) ls ->
  split_nl (concat nl ls) = ls /\
  normalize_nl (concat nl ls) = concat nl ls.
Proof.
  intros Hne Hall. split; [now apply split_nl_concat|].
  rewrite <- join_split_nl. now rewrite split_nl_concat.
Qed.

Lemma split_join_round_trip_witness :
  split_nl (concat nl ["a"; ""; "b c"]) = ["a"; ""; "b c"] /\
  normalize_nl (concat nl ["a"; ""; "b c"]) = concat nl ["a"; ""; "b c"].
Proof.
  apply (split_join_round_trip ["a"; ""; "b c"]);
    [discriminate | repeat constructor].
Defined.

Lemma fold_keep_all (ls acc : list string) :
  Forall (fun l => is_noise l = false) ls ->
  fold_left keep_message ls acc = acc ++ ls.
Proof.
  revert acc. induction ls as [|x ls IH]; intros acc H.
  - now rewrite app_nil_r.
  - inversion H as [|? ? Hx Hls]; subst. cbn [fold_left].
    unfold keep_message at 2. rewrite Hx, (IH _ Hls), <- app_assoc.
    reflexivity.
Qed.

Lemma Forall_suffix {A} (P : A -> Prop) (front run : list A) :
  Forall P (front ++ run) -> Forall P run.
Proof. intros H. now apply Forall_app in H. Qed.

Lemma last_of_app {A} (a b : list A) (d : A) :
  b <> [] -> last (a ++ b) d = last b d.
Proof.
  intros Hb. induction a as [|x a IH]; [reflexivity|].
  cbn [app last]. rewrite IH.
  destruct (a ++ b) eqn:E; [|reflexivity].
  apply app_eq_nil in E as [_ ->]. contradiction.
Qed.

Lemma last_in {A} (l : list A) (d : A) : l <> [] -> In (last l d) l.
Proof.
  intros Hne. destruct (exists_last Hne) as (f & x & ->).
  rewrite last_last. apply in_or_app. right. now left.
Qed.

(** The extract is the join of a run of lines of the text, none of them
    noise, which is empty when the last line of the text is noise. *)
Lemma extractError_run (stderr : string) :
  exists run,
    extractError stderr = concat nl run /\
    Forall (fun l => is_noise l = false) run /\
    Forall (fun l => one_line l = true) run /\
    (is_noise (last (split_nl stderr) "") = true -> run = []).
Proof.
  unfold extractError.
  pose proof (split_nl_one_line stderr) as Hone.
  pose proof (split_nl_nonempty stderr) as Hne.
  destruct (keep_message_run (split_nl stderr) [])
    as [[Hall ->] | (front & l & run & Hs & Hl & Hrun & ->)].
  - exists (split_nl stderr). cbn [app]. repeat split; try assumption.
    intros Hlast. exfalso. rewrite Forall_forall in Hall.
    rewrite (Hall _ (last_in _ "" Hne)) in Hlast. discriminate.
  - exists run. rewrite Hs in Hone. apply Forall_suffix in Hone.
    inversion Hone as [|? ? _ Hone']; subst.
    repeat split; try assumption.
    intros Hlast. destruct run as [|x run']; [reflexivity|]. exfalso.
    rewrite Hs in Hlast.
    replace (front ++ l :: x :: run') with ((front ++ [l]) ++ x :: run')
      in Hlast by now rewrite <- app_assoc.
    rewrite last_of_app in Hlast by discriminate.
    rewrite Forall_forall in Hrun.
    rewrite (Hrun _ (last_in (x :: run') "" ltac:(discriminate))) in Hlast.
    discriminate.
Qed.

(** X2: the extract holds no line that begins with a space or an opening
    bracket, so extracting again changes nothing; and a text whose last
    line begins with one of them has an empty extract. *)
Theorem extractError_idempotent (stderr : string) :
  Forall (fun l => is_noise l = false) (split_nl (extractError stderr)) /\
  extractError (extractError stderr) = extractError stderr /\
  (is_noise (last (split_nl stderr) "") = true -> extractError stderr = "").
Proof.
  destruct (extractError_run stderr) as (run & -> & Hrun & Hone & Hlast).
  destruct run as [|x run'].
  - cbn [concat]. split; [repeat constructor|]. split; reflexivity.
  - assert (Hne : x :: run' <> []) by discriminate.
    split; [now rewrite (split_nl_concat _ Hne Hone)|]. split.
    + unfold extractError at 1.
      rewrite (split_nl_concat _ Hne Hone).
      now rewrite (fold_keep_all _ [] Hrun).
    + intros H. now rewrite (Hlast H).
Qed.

End SplitJoin.

(* ================================================================== *)
(** ** Further properties of the line ring *)
(* ================================================================== *)

Section RingMore.

Lemma removelast_length {A} (l : list A) :
  List.length (removelast l) = pred (List.length l).
Proof.
  rewrite removelast_firstn_len, length_firstn. lia.
Qed.

Lemma flat_map_emit_length (r : ring) (ls : list string) :
  List.length (flat_map (emit r) ls)
  = List.length ls * List.length (cbs r).
Proof.
  induction ls as [|l ls IH]; [reflexivity|].
  cbn [flat_map List.length]. rewrite length_app, IH.
  unfold emit. now rewrite length_map.
Qed.

(** X3: an append to an open ring emits exactly as many lines as the
    chunk holds line terminators (CR LF counting once); a chunk without
    terminator emits nothing.  Every observer is called with each emitted
    line, in emission order, once per subscription it holds: an observer
    that is subscribed once receives exactly the emitted lines, and nobody
    else is called. *)
Theorem append_emits_per_terminator (str : string) (r : ring) :
  closed r = false ->
  List.length (snd (append_lines str r)) = terminators str /\
  (forall cb,
     received cb (snd (append str r))
     = flat_map (fun l => repeat l (subscriptions cb r))
         (snd (append_lines str r))) /\
  (forall cb, subscriptions cb r = 1 ->
     received cb (snd (append str r)) = snd (append_lines str r)) /\
  (forall d, In d (snd (append str r)) -> In (fst d) (cbs r)) /\
  List.length (snd (append str r)) = terminators str * List.length (cbs r).
Proof.
  intros Hopen.
  assert (H : List.length (snd (append_lines str r)) = terminators str).
  { unfold append_lines. rewrite Hopen.
    destruct (str =? "")%string eqn:Hstr.
    - apply String.eqb_eq in Hstr. now subst str.
    - cbv zeta. pose proof (split_nl_terminators str) as Hlen.
      destruct (split_nl_cases str) as [[l Hs] | (first & rest & Hs & Hrest)];
        rewrite Hs in *.
      + cbn in Hlen |- *. lia.
      + assert (Hne : (List.length (first :: rest) =? 1)%nat = false).
        { destruct rest; [contradiction | reflexivity]. }
        rewrite Hne. cbn [List.length] in Hlen.
        destruct (current r); cbn [fst snd hd tl].
        * cbn [app List.length]. rewrite removelast_length.
          destruct rest; [contradiction|]. cbn [List.length] in *. lia.
        * cbn [app]. rewrite removelast_length. cbn [List.length]. lia. }
  assert (Hrec : forall cb,
             received cb (snd (append str r))
             = flat_map (fun l => repeat l (subscriptions cb r))
                 (snd (append_lines str r))).
  { intros cb. now rewrite append_snd, received_emits. }
  refine (conj H (conj Hrec (conj _ (conj _ _)))).
  - intros cb Hone. rewrite Hrec, Hone. apply flat_map_once.
  - intros d Hd. rewrite append_snd in Hd.
    apply in_flat_map in Hd as (l & _ & Hd). unfold emit in Hd.
    apply in_map_iff in Hd as (cb & <- & Hcb). exact Hcb.
  - now rewrite append_snd, flat_map_emit_length, H.
Qed.

Lemma append_emits_per_terminator_witness :
  let r := fst (callback 1 (fst (callback 0 (linesRing 0)))) in
  let str := concat nl ["a"; "b"; "c"] in
  (List.length (snd (append_lines str r)) = terminators str /\
   (forall cb,
      received cb (snd (append str r))
      = flat_map (fun l => repeat l (subscriptions cb r))
          (snd (append_lines str r))) /\
   (forall cb, subscriptions cb r = 1 ->
      received cb (snd (append str r)) = snd (append_lines str r)) /\
   (forall d, In d (snd (append str r)) -> In (fst d) (cbs r)) /\
   List.length (snd (append str r)) = terminators str * List.length (cbs r)) /\
  snd (append str r) = [(0, "a"); (1, "a"); (0, "b"); (1, "b")].
Proof.
  cbv zeta. split; [|reflexivity].
  apply (append_emits_per_terminator (concat nl ["a"; "b"; "c"])
           (fst (callback 1 (fst (callback 0 (linesRing 0)))))).
  reflexivity.
Defined.

(** A closed ring ignores [append] and [close]. *)
Lemma closed_append (str : string) (r : ring) :
  closed r = true -> append str r = (r, []).
Proof. intros H. unfold append, append_lines. now rewrite H. Qed.

Lemma closed_close (r : ring) : closed r = true -> close r = (r, []).
Proof. intros H. unfold close, close_lines. now rewrite H. Qed.

Lemma ring_step_closed (op : ring_op) (r : ring) :
  closed r = true -> feeds op = true -> ring_step op r = (r, [], []).
Proof.
  intros Hclosed H1. destruct op as [str| |cb]; cbn [ring_step].
  - rewrite (closed_append str r Hclosed).
    unfold append_lines. now rewrite Hclosed.
  - rewrite (closed_close r Hclosed).
    unfold close_lines. now rewrite Hclosed.
  - discriminate H1.
Qed.

(** X5: once a ring is closed, no sequence of further [append] and
    [close] calls changes it, emits a line or calls an observer. *)
Theorem closed_ring_is_frozen (ops : list ring_op) (r : ring) :
  closed r = true ->
  forallb feeds ops = true ->
  ring_run ops r = (r, [], []).
Proof.
  intros Hclosed. induction ops as [|op ops IH]; intros Hfeeds.
  - reflexivity.
  - cbn [forallb] in Hfeeds. apply andb_true_iff in Hfeeds as [H1 H2].
    cbn [ring_run].
    rewrite (ring_step_closed op r Hclosed H1), (IH H2). reflexivity.
Qed.

Lemma closed_ring_is_frozen_witness :
  let r := ring_of (fed_and_closed 2 [concat nl ["a"; "b"; "c"]]) in
  ring_run [Append (concat nl ["d"; "e"; ""]); Close; Append "f"] r
  = (r, [], []).
Proof.
  apply (closed_ring_is_frozen
           [Append (concat nl ["d"; "e"; ""]); Close; Append "f"]
           (ring_of (fed_and_closed 2 [concat nl ["a"; "b"; "c"]])));
    reflexivity.
Defined.

Lemma shown_lines_get (r : ring) : get r = concat nl (shown_lines r).
Proof. unfold get, shown_lines. now destruct (current r). Qed.

(** X6: a ring of capacity K > 0 never holds more than K-1 completed
    lines, whatever is appended, closed or registered, so [get()] never
    shows more than K lines: the K-1 retained ones and the pending one. *)
Theorem ring_capacity_always (K : Z) (ops : list ring_op) :
  (0 < K)%Z ->
  let r := ring_of (ring_run ops (linesRing K)) in
  (Z.of_nat (List.length (lines r)) <= K - 1)%Z /\
  (Z.of_nat (List.length (shown_lines r)) <= K)%Z.
Proof.
  intros HK r.
  pose proof (ring_run_retains ops (linesRing K) [] (linesRing_retains K))
    as Hr.
  unfold retains in Hr. rewrite ring_run_max in Hr. cbn [app] in Hr.
  fold r in Hr. cbn [linesRing max] in Hr.
  assert (Hlen : (Z.of_nat (List.length (lines r)) <= K - 1)%Z).
  { rewrite Hr. pose proof (kept_length (K - 1)
      (emitted_of (ring_run ops (linesRing K)))). lia. }
  split; [exact Hlen|]. unfold shown_lines.
  destruct (current r); [rewrite length_app; cbn [List.length]|]; lia.
Qed.

Lemma ring_capacity_always_witness :
  let r := ring_of (ring_run [Append (concat nl ["a"; "b"; "c"; "d"]);
                              Callback 0; Append (concat nl ["e"; "f"])]
                      (linesRing 3)) in
  (Z.of_nat (List.length (lines r)) <= 3 - 1)%Z /\
  (Z.of_nat (List.length (shown_lines r)) <= 3)%Z.
Proof.
  apply (ring_capacity_always 3
           [Append (concat nl ["a"; "b"; "c"; "d"]); Callback 0;
            Append (concat nl ["e"; "f"])]).
  reflexivity.
Defined.

(** X7: on an unbounded ring (capacity at most 0) [get()] is, at any
    moment before [close()], the text appended so far with the newlines of
    each chunk normalized, and [close()] does not change what [get()]
    returns. *)
Theorem get_while_open (maxLines : Z) (chunks : list string) :
  (maxLines <= 0)%Z ->
  let r := ring_of (ring_run (map Append chunks) (linesRing maxLines)) in
  get r = chunkwise_text chunks /\
  get (fst (close r)) = get r.
Proof.
  intros Hmax r.
  destruct (appends_spell chunks _ _ _ (linesRing_spells maxLines))
    as (Hopen & Hnone & Htext).
  cbn [app String.append] in *. fold r in Hopen, Hnone, Htext.
  pose proof (ring_run_retains (map Append chunks) (linesRing maxLines) []
                (linesRing_retains maxLines)) as Hr.
  unfold retains in Hr. rewrite ring_run_max in Hr. cbn [app] in Hr.
  fold r in Hr. cbn [linesRing max] in Hr. unfold kept in Hr.
  revert Hr. gtb_false. intros Hr.
  assert (Hget : get r = chunkwise_text chunks).
  { rewrite <- Htext. unfold get, pending_text. now rewrite Hr. }
  split; [exact Hget|].
  destruct (fed_and_closed_facts maxLines chunks) as (Ht & Hk & Hg & _).
  unfold fed_and_closed in Ht, Hk, Hg.
  rewrite ring_of_app, emitted_of_app in *. fold r in Ht, Hk, Hg.
  unfold ring_of at 1 2 in Hg. cbn [ring_run ring_step fst] in Hg.
  rewrite Hg. unfold ring_of at 1 in Hk.
  cbn [ring_run ring_step fst] in Hk. rewrite Hk, Hget.
  unfold kept. gtb_false. exact Ht.
Qed.

Lemma get_while_open_witness :
  let r := ring_of (ring_run (map Append ["ab"; String CR "c"; "d"])
                      (linesRing 0)) in
  get r = chunkwise_text ["ab"; String CR "c"; "d"] /\
  get (fst (close r)) = get r.
Proof.
  apply (get_while_open 0 ["ab"; String CR "c"; "d"]). lia.
Defined.

End RingMore.

Section RingLines.

Lemma tidy_skipn (n : nat) (ls : list string) : tidy ls -> tidy (skipn n ls).
Proof.
  unfold tidy. revert ls. induction n as [|n IH]; intros ls H; [exact H|].
  destruct ls as [|l ls]; [exact H|]. inversion H; subst. now apply IH.
Qed.

Lemma tidy_evict (m : Z) (ls : list string) : tidy ls -> tidy (evict m ls).
Proof. unfold evict. destruct (_ && _); [apply tidy_skipn | auto]. Qed.

Lemma tidy_evict_one (m : Z) (ls : list string) :
  tidy ls -> tidy (evict_one m ls).
Proof.
  unfold evict_one. destruct (_ && _); [|auto].
  intros H. destruct ls; [exact H | now inversion H].
Qed.

Lemma tidy_removelast_last (ls : list string) :
  tidy ls -> tidy (removelast ls) /\ one_line (last ls "") = true.
Proof.
  unfold tidy. intros H. destruct ls as [|x ls]; [now split|].
  assert (Hne : x :: ls <> []) by discriminate.
  rewrite (app_removelast_last "" Hne) in H.
  apply Forall_app in H as [H1 H2]. split; [exact H1 | now inversion H2].
Qed.

(** One [append]: the lines it emits and the lines the ring then shows
    hold no terminator. *)
Lemma append_tidy (str : string) (r : ring) :
  tidy (shown_lines r) ->
  tidy (snd (append_lines str r)) /\
  tidy (shown_lines (fst (append_lines str r))).
Proof.
  unfold tidy, shown_lines, append_lines. intros H.
  destruct (closed r); [split; [constructor | exact H]|].
  destruct (str =? "")%string; [split; [constructor | exact H]|].
  cbv zeta. pose proof (split_nl_one_line str) as Hs.
  destruct (split_nl_cases str) as [[l El] | (first & rest & El & Hrest)];
    rewrite El in *.
  - cbn [List.length Nat.eqb hd fst snd current lines].
    inversion Hs as [|? ? Hl _]; subst. split; [constructor|].
    destruct (current r) as [c|].
    + apply Forall_app in H as [H1 H2]. inversion H2; subst.
      apply Forall_app. split; [exact H1|]. constructor; [|constructor].
      rewrite one_line_app. now apply andb_true_iff.
    + apply Forall_app. split; [exact H | now repeat constructor].
  - assert (Hne : (List.length (first :: rest) =? 1)%nat = false).
    { destruct rest; [contradiction | reflexivity]. }
    rewrite Hne. cbn [hd tl].
    inversion Hs as [|? ? Hfirst Hrest']; subst.
    destruct (current r) as [c|]; cbn [fst snd current lines].
    + apply Forall_app in H as [H1 H2]. inversion H2 as [|? ? Hc _]; subst.
      destruct (tidy_removelast_last rest Hrest') as [Hrl Hlast].
      assert (Hem : Forall (fun l => one_line l = true)
                      ([(c ++ first)%string] ++ removelast rest)).
      { apply Forall_app. split; [|exact Hrl]. constructor; [|constructor].
        rewrite one_line_app. now apply andb_true_iff. }
      split; [exact Hem|]. apply Forall_app. split.
      * apply tidy_evict. apply Forall_app. now split.
      * now repeat constructor.
    + destruct (tidy_removelast_last (first :: rest) Hs) as [Hrl Hlast].
      split; [exact Hrl|]. apply Forall_app. split.
      * apply tidy_evict. apply Forall_app. now split.
      * now repeat constructor.
Qed.

Lemma close_tidy (r : ring) :
  tidy (shown_lines r) ->
  tidy (snd (close_lines r)) /\ tidy (shown_lines (fst (close_lines r))).
Proof.
  unfold tidy, shown_lines, close_lines. intros H.
  destruct (closed r); [split; [constructor | exact H]|].
  destruct (current r) as [c|]; cbn [fst snd current lines].
  - split; [|now apply tidy_evict_one].
    apply Forall_app in H as [_ H]. exact H.
  - split; [constructor | exact H].
Qed.

Lemma tidy_emit (r : ring) (ls : list string) :
  tidy ls -> Forall (fun d => one_line (snd d) = true) (flat_map (emit r) ls).
Proof.
  unfold tidy. induction 1 as [|l ls Hl _ IH]; [constructor|].
  cbn [flat_map]. apply Forall_app. split; [|exact IH].
  unfold emit. apply Forall_forall. intros d Hd.
  apply in_map_iff in Hd as (cb & <- & _). exact Hl.
Qed.

Lemma ring_run_tidy (ops : list ring_op) (r : ring) :
  tidy (shown_lines r) ->
  tidy (emitted_of (ring_run ops r)) /\
  Forall (fun d => one_line (snd d) = true) (delivered_of (ring_run ops r)) /\
  tidy (shown_lines (ring_of (ring_run ops r))).
Proof.
  revert r. induction ops as [|op ops IH]; intros r H.
  - repeat split; [constructor | constructor | exact H].
  - rewrite emitted_of_cons, delivered_of_cons, ring_of_cons.
    assert (Hstep : tidy (emitted_of (ring_step op r)) /\
                    Forall (fun d => one_line (snd d) = true)
                      (delivered_of (ring_step op r)) /\
                    tidy (shown_lines (ring_of (ring_step op r)))).
    { unfold emitted_of, delivered_of, ring_of.
      destruct op as [str| |cb]; cbn [ring_step fst snd].
      - rewrite append_fst, append_snd.
        destruct (append_tidy str r H) as [H1 H2].
        repeat split; [exact H1 | now apply tidy_emit | exact H2].
      - rewrite close_fst, close_snd.
        destruct (close_tidy r H) as [H1 H2].
        repeat split; [exact H1 | now apply tidy_emit | exact H2].
      - repeat split; [constructor | | exact H].
        unfold callback. cbn [snd]. apply Forall_forall. intros d Hd.
        apply in_map_iff in Hd as (l & <- & Hl). cbn [snd].
        unfold tidy, shown_lines in H.
        assert (Hlines : Forall (fun l => one_line l = true) (lines r)).
        { destruct (current r); [now apply Forall_app in H | exact H]. }
        rewrite Forall_forall in Hlines. now apply Hlines. }
    destruct Hstep as (S1 & S2 & S3).
    destruct (IH _ S3) as (I1 & I2 & I3).
    repeat split; [| | exact I3]; apply Forall_app; now split.
Qed.

(** X4: no line that a ring hands to an observer, emits or retains holds a
    CR or an LF; so whenever [get()] shows at least one line, splitting its
    text gives exactly the lines shown. *)
Theorem ring_lines_hold_no_terminator (maxLines : Z) (ops : list ring_op) :
  let x := ring_run ops (linesRing maxLines) in
  Forall (fun l => one_line l = true) (emitted_of x) /\
  Forall (fun d => one_line (snd d) = true) (delivered_of x) /\
  (shown_lines (ring_of x) <> [] ->
   split_nl (get (ring_of x)) = shown_lines (ring_of x)).
Proof.
  intros x.
  destruct (ring_run_tidy ops (linesRing maxLines)) as (H1 & H2 & H3);
    [constructor|].
  fold x in H1, H2, H3. repeat split; [exact H1 | exact H2 |].
  intros Hne. rewrite shown_lines_get.
  now apply split_nl_concat.
Qed.

End RingLines.

(** **** The round trip through a ring *)

Section RingRoundTrip.

Lemma normalize_nl_empty (s : string) : normalize_nl s = "" -> s = "".
Proof.
  destruct s as [|c s]; [reflexivity|]. cbn [normalize_nl].
  destruct (c =? CR)%char; [|discriminate].
  destruct s as [|c' s]; [discriminate|].
  destruct (c' =? LF)%char; discriminate.
Qed.

Lemma split_nl_normalize (s : string) :
  split_nl (normalize_nl s) = split_nl s.
Proof.
  rewrite <- join_split_nl.
  apply split_nl_concat; [apply split_nl_nonempty | apply split_nl_one_line].
Qed.

Lemma kept_all (m : Z) (l : list string) :
  (m <= -1 \/ Z.of_nat (List.length l) <= m)%Z -> kept m l = l.
Proof.
  intros H. unfold kept. destruct (m >? -1)%Z eqn:E; [|reflexivity].
  apply lastn_all. rewrite Z.gtb_ltb in E. apply Z.ltb_lt in E. lia.
Qed.

(** C6, as the claim states it, fails: a bounded ring drops the older
    lines when the text has more lines than it holds, and a CR LF pair cut
    by a chunk boundary is read as two line ends. *)
Lemma get_after_close_counterexample :
  let cut := [String "a" (String CR ""); String LF "b"] in
  get (ring_of (fed_and_closed 2 [five_lines]))
    <> normalize_nl (whole_text [five_lines]) /\
  get (ring_of (fed_and_closed 0 cut)) = concat nl ["a"; ""; "b"] /\
  normalize_nl (whole_text cut) = concat nl ["a"; "b"] /\
  get (ring_of (fed_and_closed 0 cut)) <> normalize_nl (whole_text cut).
Proof.
  vm_compute. repeat split; try reflexivity; intros H; discriminate H.
Qed.

(** C6 (amended): for every sequence of chunks in which no CR LF pair is
    cut by a chunk boundary, appended to a ring that is unbounded
    (capacity at most 0) or whose capacity is greater than the number of
    lines of the text, [get()] after [close()] is the concatenated text
    with CR LF, CR and LF normalized to LF.  It is the join of the lines
    of the ring, which are all the lines ever completed - the flushed
    partial line being the last - and these are the lines of the text:
    splitting what [get()] returns gives them back. *)
Theorem get_after_close_normalized (maxLines : Z) (chunks : list string) :
  crlf_safe chunks = true ->
  (maxLines <= 0 \/
   Z.of_nat (List.length (split_nl (whole_text chunks))) < maxLines)%Z ->
  let x := fed_and_closed maxLines chunks in
  get (ring_of x) = normalize_nl (whole_text chunks) /\
  get (ring_of x) = concat nl (lines (ring_of x)) /\
  lines (ring_of x) = emitted_of x /\
  (whole_text chunks <> "" ->
   lines (ring_of x) = split_nl (whole_text chunks) /\
   split_nl (get (ring_of x)) = lines (ring_of x)).
Proof.
  intros Hsafe Hroom x.
  destruct (fed_and_closed_facts maxLines chunks) as (Htext & Hkept & Hget & _).
  fold x in Htext, Hkept, Hget.
  rewrite (chunkwise_whole _ Hsafe) in Htext.
  assert (Htidy : tidy (emitted_of x)).
  { apply (ring_run_tidy (map Append chunks ++ [Close])
             (linesRing maxLines)). constructor. }
  assert (Hlines : emitted_of x <> [] ->
                   emitted_of x = split_nl (whole_text chunks)).
  { intros Hne. rewrite <- split_nl_normalize, <- Htext.
    symmetry. now apply split_nl_concat. }
  assert (Hall : lines (ring_of x) = emitted_of x).
  { rewrite Hkept. apply kept_all.
    destruct (emitted_of x) as [|l ls] eqn:E; [cbn; lia|].
    assert (Hne : l :: ls <> []) by discriminate.
    rewrite (Hlines Hne). lia. }
  assert (Hfull : get (ring_of x) = normalize_nl (whole_text chunks)).
  { now rewrite Hget, Hall. }
  refine (conj Hfull (conj Hget (conj Hall _))).
  intros Hne.
  assert (He : emitted_of x <> []).
  { intros E. rewrite E in Htext. cbn in Htext.
    symmetry in Htext. now apply normalize_nl_empty in Htext. }
  split; [now rewrite Hall; apply Hlines|].
  rewrite Hfull, split_nl_normalize, Hall. symmetry. now apply Hlines.
Qed.

Lemma get_after_close_normalized_witness :
  let chunks := [String "1" (String CR (String LF (String "2" (String LF "3"))));
                 String LF (String "4" (String CR "5"))] in
  let x := fed_and_closed 10 chunks in
  (get (ring_of x) = normalize_nl (whole_text chunks) /\
   get (ring_of x) = concat nl (lines (ring_of x)) /\
   lines (ring_of x) = emitted_of x /\
   (whole_text chunks <> "" ->
    lines (ring_of x) = split_nl (whole_text chunks) /\
    split_nl (get (ring_of x)) = lines (ring_of x))) /\
  get (ring_of x) = five_lines.
Proof.
  cbv zeta. split; [|reflexivity].
  apply (get_after_close_normalized 10); [reflexivity | right; cbn; lia].
Defined.

End RingRoundTrip.

(* ================================================================== *)
(** ** Further properties of the session *)
(* ================================================================== *)

Section SessionTrace.

Lemma finish_trace_cases (err : option error) (out et : string)
  (s : session) :
  trace (finish err out et s)
  = trace s ++ (if ended s then []
                else terminal_out (listening s) err out et).
Proof.
  destruct (ended s) eqn:E.
  - rewrite finish_idle by exact E. now rewrite app_nil_r.
  - now apply finish_trace.
Qed.

Lemma report_to_gate_trace (rp : report) (s : session) :
  exists e,
    trace (report_to_gate rp s) = trace s ++ e /\
    closing e s (report_to_gate rp s).
Proof.
  destruct (report_to_gate_cases rp s)
    as [[_ ->] | (_ & s1 & -> & He & Ht & _ & _ & _ & _ & _ & Hl)].
  - exists []. cbn. rewrite app_nil_r. split; [reflexivity | now left].
  - rewrite finish_trace_cases, Ht, He.
    replace (listening s1) with (listening s)
      by (unfold listening; now rewrite Hl).
    destruct (ended s) eqn:E.
    + exists []. split; [reflexivity|]. left. split; [reflexivity|].
      rewrite finish_idle by congruence. congruence.
    + eexists. split; [reflexivity|]. right. split; [exact E|].
      split; [apply finish_ended | now eexists _, _, _].
Qed.

(** A step that is not a report and does not fire the timer leaves the
    [ended] flag alone. *)
Lemma closing_none (s s' : session) :
  ended s' = ended s -> closing [] s s'.
Proof. intros H. now left. Qed.

(** The trace after a step: what the step forwards, then the terminal
    emission if the step ends the session, then what the step does
    afterwards. *)
Lemma step_trace (ev : event) (s : session) :
  exists e,
    trace (step ev s) = trace s ++ step_before ev s ++ e ++ step_after ev s /\
    closing e s (step ev s).
Proof.
  assert (Hrep : forall rp s1 q,
             ended s1 = ended s -> trace s1 = trace s ++ q ->
             error_listeners s1 = error_listeners s ->
             exists e,
               trace (report_to_gate rp s1) = trace s ++ q ++ e ++ [] /\
               closing e s (report_to_gate rp s1)).
  { intros rp s1 q He Ht Hl.
    destruct (report_to_gate_trace rp s1) as (e & -> & Hc).
    exists e. rewrite Ht, app_nil_r, <- app_assoc. split; [reflexivity|].
    unfold closing in *. unfold listening in *. rewrite He, Hl in Hc.
    exact Hc. }
  by_event ev; cbn [step_before step_after].
  - rewrite endCB_without_rings. exists [].
    split; [reflexivity | now apply closing_none].
  - apply (Hrep _ s []); [reflexivity | now rewrite app_nil_r | reflexivity].
  - exists []. rewrite !app_nil_r.
    destruct (captureStdout (opts s)); cbn; rewrite ?app_nil_r;
      (split; [reflexivity | now apply closing_none]).
  - destruct (captureStdout (opts s)).
    + apply (Hrep _ _ []);
        [reflexivity | now rewrite app_nil_r | reflexivity].
    + exists []. rewrite app_nil_r.
      split; [reflexivity | now apply closing_none].
  - destruct (append data (stderrRing s)) as [r ds]. rewrite forward_eq.
    exists []. cbn. rewrite !app_nil_r.
    split; [reflexivity | now apply closing_none].
  - destruct (close (stderrRing s)) as [r ds].
    apply (Hrep _ _ (stderr_lines ds)); now rewrite forward_eq.
  - destruct (timer s) eqn:Htimer.
    + destruct (timer_fired_frame s Htimer)
        as (_ & _ & _ & _ & _ & _ & _ & _ & Hend).
      destruct (ended s) eqn:E; cbn [negb andb app].
      * exists []. split; [|left; split; [reflexivity | congruence]].
        rewrite (timer_fired s Htimer). cbv zeta. unfold emit_throws.
        rewrite E. cbn [negb andb notify trace].
        rewrite finish_trace_cases. cbn [set_timer trace ended].
        rewrite E. now rewrite <- app_assoc.
      * exists (terminal_out (listening s)
                  (Some (mkError (timeout_message (timeout (opts s)))))
                  (get (stdoutRing s)) (get (stderrRing s))).
        split; [|right; split; [exact E|];
                 split; [exact Hend | now eexists _, _, _]].
        rewrite (timer_fired s Htimer). cbv zeta. unfold emit_throws.
        rewrite E. cbn [negb andb].
        destruct (listening s) eqn:L; cbn [negb notify trace];
          rewrite finish_trace_cases; cbn [set_timer trace ended];
          change (listening (set_timer false s)) with (listening s);
          rewrite E, L; now rewrite <- ?app_assoc, ?app_nil_r.
    + cbn [step]. rewrite Htimer. exists []. cbn [andb app].
      rewrite app_nil_r. split; [reflexivity | now apply closing_none].
  - exists []. cbn. rewrite app_nil_r.
    split; [reflexivity | now apply closing_none].
  - exists []. cbn. rewrite app_nil_r.
    split; [reflexivity | now apply closing_none].
  - exists []. cbn. rewrite app_nil_r.
    split; [reflexivity | now apply closing_none].
  - exists []. destruct (childProc s);
      (split; [reflexivity | now apply closing_none]).
Qed.

(** The rings of the session are the rings fed by the stream events. *)
Lemma step_stderrRing (ev : event) (s : session) :
  stderrRing (step ev s) = ring_of (ring_run (stderr_op ev) (stderrRing s)).
Proof.
  by_event ev; cbn [stderr_op ring_run ring_of fst].
  - now rewrite endCB_without_rings.
  - apply report_to_gate_summary.
  - now destruct (captureStdout (opts s)).
  - destruct (captureStdout (opts s)); [|reflexivity].
    now rewrite (proj1 (proj2 (proj2 (proj2 (report_to_gate_summary _ _))))).
  - cbn [ring_step]. destruct (append data (stderrRing s)) as [r ds].
    now rewrite forward_eq.
  - cbn [ring_step]. destruct (close (stderrRing s)) as [r ds].
    rewrite (proj1 (proj2 (proj2 (proj2 (report_to_gate_summary _ _))))).
    now rewrite forward_eq.
  - destruct (timer s) eqn:Htimer; [|cbn [step]; now rewrite Htimer].
    apply (timer_fired_frame s Htimer).
  - reflexivity.
  - reflexivity.
  - reflexivity.
  - now destruct (childProc s).
Qed.

Lemma step_stdoutRing (ev : event) (s : session) :
  stdoutRing (step ev s)
  = ring_of (ring_run (stdout_op (captureStdout (opts s)) ev) (stdoutRing s)).
Proof.
  assert (Htimer : stdoutRing (step TimerFired s) = stdoutRing s).
  { destruct (timer s) eqn:Htimer; [|cbn [step]; now rewrite Htimer].
    apply (timer_fired_frame s Htimer). }
  unfold stdout_op.
  by_event ev; cbn [ring_run ring_of fst];
    try (destruct (captureStdout (opts s)); cbn [ring_run ring_of fst]).
  all: try exact Htimer.
  all: try reflexivity.
  all: try (now rewrite endCB_without_rings).
  all: try apply report_to_gate_summary.
  all: try (cbn [ring_step];
            now rewrite (proj1 (proj2 (proj2 (report_to_gate_summary _ _))))).
  all: try (destruct (append data (stderrRing s)); now rewrite forward_eq).
  all: try (destruct (close (stderrRing s));
            rewrite (proj1 (proj2 (proj2 (report_to_gate_summary _ _))));
            now rewrite forward_eq).
  all: now destruct (childProc s).
Qed.

Lemma run_events_cons (ev : event) (evs : list event) (s : session) :
  run_events (ev :: evs) s = run_events evs (step ev s).
Proof. reflexivity. Qed.

Lemma run_events_stderrRing (evs : list event) (s : session) :
  stderrRing (run_events evs s)
  = ring_of (ring_run (stderr_ops evs) (stderrRing s)).
Proof.
  revert s. induction evs as [|ev evs IH]; intros s; [reflexivity|].
  rewrite run_events_cons, IH, step_stderrRing.
  unfold stderr_ops. cbn [flat_map]. now rewrite ring_of_app.
Qed.

Lemma run_events_stdoutRing (evs : list event) (s : session) :
  stdoutRing (run_events evs s)
  = ring_of (ring_run (stdout_ops (captureStdout (opts s)) evs)
               (stdoutRing s)).
Proof.
  revert s. induction evs as [|ev evs IH]; intros s; [reflexivity|].
  rewrite run_events_cons, IH, step_stdoutRing, step_opts.
  unfold stdout_ops. cbn [flat_map]. now rewrite ring_of_app.
Qed.

End SessionTrace.

(** **** The event that ends a session *)

Section SessionEnd.

Lemma quiet_step_before (ev : event) (s : session) :
  quiet (step_before ev s).
Proof.
  destruct ev; cbn [step_before]; try constructor.
  - destruct (captureStdout (opts s)); [now apply quiet_one | constructor].
  - apply quiet_stderr_lines.
  - apply quiet_stderr_lines.
Qed.

Lemma quiet_step_after (ev : event) (s : session) : quiet (step_after ev s).
Proof.
  destruct ev; cbn [step_after]; try apply Forall_nil.
  - now apply quiet_one.
  - destruct (timer s && _); [now apply quiet_one | constructor].
  - destruct (childProc s); now apply quiet_one.
Qed.

(** The step that ends a session makes its terminal emission with the
    ['error'] listeners attached at that moment. *)
Lemma step_ends (ev : event) (s : session) :
  ended s = false -> ended (step ev s) = true ->
  exists q1 err out et q2,
    trace (step ev s)
    = trace s ++ q1 ++ terminal_out (listening s) err out et ++ q2 /\
    quiet q1 /\ quiet q2.
Proof.
  intros Hopen Hend.
  destruct (step_trace ev s)
    as (e & Ht & [[_ He] | (_ & _ & err & out & et & ->)]); [congruence|].
  exists (step_before ev s), err, out, et, (step_after ev s).
  split; [exact Ht|].
  split; [apply quiet_step_before | apply quiet_step_after].
Qed.

(** A session that is ended after a run of events was ended by one of
    them. *)
Lemma run_ends_at (evs : list event) (s : session) :
  ended s = false -> ended (run_events evs s) = true ->
  exists pre ev post,
    evs = pre ++ ev :: post /\
    ended (run_events pre s) = false /\
    ended (step ev (run_events pre s)) = true.
Proof.
  revert s. induction evs as [|ev evs IH]; intros s Hopen Hend.
  - cbn in Hend. congruence.
  - destruct (ended (step ev s)) eqn:E.
    + exists [], ev, evs. now repeat split.
    + rewrite run_events_cons in Hend.
      destruct (IH (step ev s) E Hend) as (pre & ev' & post & -> & H1 & H2).
      exists (ev :: pre), ev', post. now repeat split.
Qed.

(** The trace of a run that has ended: the terminal emission of the event
    that ended it, made with the listeners attached just before that
    event, between two quiet stretches. *)
Lemma run_ends (evs : list event) (s : session) :
  quiet (trace s) -> ended s = false -> ended (run_events evs s) = true ->
  exists pre ev post front err out et back,
    evs = pre ++ ev :: post /\
    ended (run_events pre s) = false /\
    ended (step ev (run_events pre s)) = true /\
    trace (run_events evs s)
    = front ++ terminal_out (listening (run_events pre s)) err out et
        ++ back /\
    quiet front /\ quiet back.
Proof.
  intros Hq Hopen Hend.
  destruct (run_ends_at evs s Hopen Hend) as (pre & ev & post & -> & H1 & H2).
  destruct (step_ends ev _ H1 H2) as (q1 & err & out & et & q2 & Ht & Q1 & Q2).
  destruct (advance_run_events pre s) as [[_ (q0 & Ht0 & Q0)] | (_ & H & _)];
    [|congruence].
  destruct (advance_run_events post (step ev (run_events pre s)))
    as [[_ (q3 & Ht3 & Q3)] | (H & _)]; [|congruence].
  exists pre, ev, post, (trace s ++ q0 ++ q1), err, out, et, (q2 ++ q3).
  refine (conj eq_refl (conj H1 (conj H2 (conj _ (conj _ _))))).
  - rewrite run_events_app, run_events_cons, Ht3, Ht, Ht0.
    now rewrite <- !app_assoc.
  - repeat apply quiet_app; assumption.
  - now apply quiet_app.
Qed.

(** A trace has at most one reading as a terminal emission between two
    quiet stretches. *)
Lemma terminal_out_unique (front front' back back' : list notification)
  (h h' : bool) (err err' : option error) (out out' et et' : string) :
  quiet front -> quiet front' ->
  front ++ terminal_out h err out et ++ back
  = front' ++ terminal_out h' err' out' et' ++ back' ->
  front = front' /\
  terminal_out h err out et = terminal_out h' err' out' et' /\
  back = back'.
Proof.
  assert (Hhead : forall h err out et,
             exists n rest, terminal_out h err out et = n :: rest /\
                            is_terminal n = true).
  { intros [|] [e|] o t; cbn; eexists _, _; now split. }
  intros Hf. revert front'.
  induction Hf as [|n front [Hn _] _ IH]; intros front' Hf' Heq.
  - destruct Hf' as [|n' front' [Hn' _] _].
    + cbn [app] in Heq. split; [reflexivity|].
      destruct h, h', err as [e|], err' as [e'|]; cbn in Heq |- *;
        try discriminate; inversion Heq; subst; now split.
    + destruct (Hhead h err out et) as (m & rest & Hm & Hterm).
      rewrite Hm in Heq. cbn [app] in Heq. injection Heq as -> _.
      congruence.
  - destruct Hf' as [|n' front' [Hn' _] Hf'].
    + destruct (Hhead h' err' out' et') as (m & rest & Hm & Hterm).
      rewrite Hm in Heq. cbn [app] in Heq. injection Heq as -> _.
      congruence.
    + cbn [app] in Heq. injection Heq as -> Heq.
      destruct (IH front' Hf' Heq) as (-> & H1 & H2). now repeat split.
Qed.

(** C1 as the code has it.  For every run in which the process exit, the
    stderr close and (when stdout is captured) the stdout close arrive, in
    any order and interleaved with anything else - listeners being added
    and removed included - exactly one of [error] and [end] is emitted:
    by the event [ev] that ends the session.  The completion callback is
    called directly after it, with the same arguments, when the
    notification is [end] or when an ['error'] listener is attached at the
    moment [ev] arrives.  An [error] that finds no listener at that moment
    is thrown by the emitter instead: the callback is then never called.
    The claim is right about what [emitEnd] is written to do; the code
    misses it for a command that is used with a callback only. *)
Theorem session_ends_exactly_once (cmd : string) (arguments : list string)
  (o : options) (listeners handlers : nat) (s0 : session)
  (evs : list event) :
  run cmd arguments o listeners handlers = inr s0 ->
  (exists code signal, In (ProcExit code signal) evs) ->
  In StderrClose evs ->
  (captureStdout o = true -> In StdoutClose evs) ->
  let final := run_events evs s0 in
  terminal_count (trace final) = 1 /\
  exists pre ev post front err out errtext back,
    evs = pre ++ ev :: post /\
    ended (run_events pre s0) = false /\
    ended (step ev (run_events pre s0)) = true /\
    let heard := listening (run_events pre s0) in
    trace final = front ++ terminal_out heard err out errtext ++ back /\
    quiet front /\ quiet back /\
    callback_count (trace final) = (if called heard err then 1 else 0) /\
    (called heard err = true -> ends_exactly_once (trace final)).
Proof.
  intros Hrun Hexit Herr Hout final.
  destruct (run_settled _ _ _ _ _ _ Hrun) as (Hset & Hopen & _).
  destruct (run_gate_done _ _ _ _ _ _ _ Hrun Hexit Herr Hout)
    as (_ & Hended).
  assert (Hq : quiet (trace s0)).
  { unfold settled in Hset. now rewrite Hopen in Hset. }
  destruct (run_ends evs s0 Hq Hopen Hended)
    as (pre & ev & post & front & err & out & et & back
        & Hevs & H1 & H2 & Ht & Hf & Hb).
  fold final in Ht.
  destruct (ends_once_counts front (listening (run_events pre s0))
              err out et back Hf Hb) as [C1 C2].
  rewrite <- Ht in C1, C2.
  split; [exact C1|].
  exists pre, ev, post, front, err, out, et, back. cbv zeta.
  refine (conj Hevs (conj H1 (conj H2 (conj Ht (conj Hf (conj Hb
           (conj C2 _))))))).
  intros Hc. rewrite Ht. now apply heard_ends_exactly_once.
Qed.

Lemma session_ends_exactly_once_witness :
  exists s0,
    simple_usage = inr s0 /\
    let evs := [StderrData "boom"; StderrClose; StdoutClose;
                ProcExit (Some 1%Z) None] in
    let final := run_events evs s0 in
    (terminal_count (trace final) = 1 /\
     exists pre ev post front err out errtext back,
       evs = pre ++ ev :: post /\
       ended (run_events pre s0) = false /\
       ended (step ev (run_events pre s0)) = true /\
       let heard := listening (run_events pre s0) in
       trace final = front ++ terminal_out heard err out errtext ++ back /\
       quiet front /\ quiet back /\
       callback_count (trace final) = (if called heard err then 1 else 0) /\
       (called heard err = true -> ends_exactly_once (trace final))) /\
    trace final
    = [EmitStart "/lib/mediainfo" ["--Output=XML"; "--Full"];
       EmitError (mkError "child process target exited with code 1: boom")
         "" "boom";
       Uncaught (UnhandledError
                   (mkError "child process target exited with code 1: boom"))] /\
    callback_count (trace final) = 0 /\
    trace (run_events (OnError :: evs) s0)
    = [EmitStart "/lib/mediainfo" ["--Output=XML"; "--Full"];
       EmitError (mkError "child process target exited with code 1: boom")
         "" "boom";
       EndCallback
         (Some (mkError "child process target exited with code 1: boom"))
         "" "boom"] /\
    trace (run_events (OnError :: OffError :: evs) s0) = trace final.
Proof.
  eexists. split; [reflexivity|]. cbv zeta.
  split; [|split; [|split; [|split]]; vm_compute; reflexivity].
  eapply (session_ends_exactly_once "/lib/mediainfo"
            ["--Output=XML"; "--Full"]
            (mkOptions true 0%Z (Some (mkSeconds true "120"))) 0 0 _).
  - reflexivity.
  - exists (Some 1%Z), None. cbn. auto 6.
  - cbn. auto 6.
  - intros _. cbn. auto 6.
Defined.

End SessionEnd.

Section SessionEmissions.

Lemma closing_emits_no_data (e : list notification) (s s' : session) :
  closing e s s' ->
  emitted_data e = [] /\ emitted_stderr e = [] /\ filter is_start e = [].
Proof.
  intros [[-> _] | (_ & _ & err & out & et & ->)]; [now repeat split|].
  destruct err; [destruct (listening s)|]; now repeat split.
Qed.

Lemma step_after_emits_no_data (ev : event) (s : session) :
  emitted_data (step_after ev s) = [] /\
  emitted_stderr (step_after ev s) = [] /\
  filter is_start (step_after ev s) = [].
Proof.
  destruct ev; cbn [step_after]; try (now repeat split).
  - destruct (timer s && _); now repeat split.
  - destruct (childProc s); now repeat split.
Qed.

Lemma stderr_lines_projections (ds : list delivery) :
  emitted_data (stderr_lines ds) = [] /\
  emitted_stderr (stderr_lines ds) = map snd ds /\
  filter is_start (stderr_lines ds) = [].
Proof.
  unfold stderr_lines, emitted_data, emitted_stderr.
  induction ds as [|d ds (IH1 & IH2 & IH3)]; [now repeat split|].
  simpl. repeat split; [exact IH1 | now f_equal | exact IH3].
Qed.

(** X8: in every run of a session, whatever events arrive and in whatever
    order, at most one terminal notification is emitted, exactly when the
    session has ended, and the completion callback is called at most once
    and never without a terminal notification.  A session that has ended
    was ended by one event of the run: its trace holds the terminal
    emission of that event, and the callback was called once if the
    notification is [end] or an ['error'] listener was attached just
    before that event, and never otherwise. *)
Theorem session_never_ends_twice (cmd : string) (arguments : list string)
  (o : options) (listeners handlers : nat) (s0 : session) (evs : list event) :
  run cmd arguments o listeners handlers = inr s0 ->
  terminal_count (trace (run_events evs s0)) <= 1 /\
  callback_count (trace (run_events evs s0))
  <= terminal_count (trace (run_events evs s0)) /\
  (terminal_count (trace (run_events evs s0)) = 1 <->
   ended (run_events evs s0) = true) /\
  (ended (run_events evs s0) = true ->
   exists pre ev post front err out errtext back,
     evs = pre ++ ev :: post /\
     ended (run_events pre s0) = false /\
     ended (step ev (run_events pre s0)) = true /\
     trace (run_events evs s0)
     = front ++ terminal_out (listening (run_events pre s0)) err out errtext
         ++ back /\
     quiet front /\ quiet back /\
     callback_count (trace (run_events evs s0))
     = if called (listening (run_events pre s0)) err then 1 else 0).
Proof.
  intros Hrun. destruct (run_settled _ _ _ _ _ _ Hrun) as (Hset & Hopen & _).
  assert (Hq : quiet (trace s0)).
  { unfold settled in Hset. now rewrite Hopen in Hset. }
  pose proof (run_events_settled evs s0 Hset) as Hfinal.
  unfold settled in Hfinal. destruct (ended (run_events evs s0)) eqn:Hend.
  - destruct (run_ends evs s0 Hq Hopen Hend)
      as (pre & ev & post & front & err & out & et & back
          & Hevs & H1 & H2 & Ht & Hf & Hb).
    destruct (ends_once_counts front (listening (run_events pre s0))
                err out et back Hf Hb) as [C1 C2].
    rewrite <- Ht in C1, C2. rewrite C1, C2.
    refine (conj (le_n 1) (conj _ (conj (conj (fun _ => eq_refl)
                                               (fun _ => eq_refl)) _))).
    + destruct (called _ err); [apply le_n | apply Nat.le_0_1].
    + intros _. exists pre, ev, post, front, err, out, et, back.
      now rewrite <- C2.
  - destruct (quiet_counts _ Hfinal) as [-> ->].
    repeat split; auto; discriminate.
Qed.

Lemma session_never_ends_twice_witness :
  exists s0,
    run "cmd" [] (mkOptions true 0%Z (Some (mkSeconds true "5"))) 0 1 = inr s0 /\
    let evs := [ProcExit (Some 1%Z) None; OffError; ProcExit (Some 1%Z) None;
                StderrClose; StdoutClose; StderrClose; TimerFired] in
    (terminal_count (trace (run_events evs s0)) <= 1 /\
     callback_count (trace (run_events evs s0))
     <= terminal_count (trace (run_events evs s0)) /\
     (terminal_count (trace (run_events evs s0)) = 1 <->
      ended (run_events evs s0) = true) /\
     (ended (run_events evs s0) = true ->
      exists pre ev post front err out errtext back,
        evs = pre ++ ev :: post /\
        ended (run_events pre s0) = false /\
        ended (step ev (run_events pre s0)) = true /\
        trace (run_events evs s0)
        = front ++ terminal_out (listening (run_events pre s0)) err out
                     errtext ++ back /\
        quiet front /\ quiet back /\
        callback_count (trace (run_events evs s0))
        = if called (listening (run_events pre s0)) err then 1 else 0)) /\
    ended (run_events evs s0) = true /\
    callback_count (trace (run_events evs s0)) = 0.
Proof.
  eexists. split; [reflexivity|]. cbv zeta.
  split; [|split; reflexivity].
  eapply (session_never_ends_twice "cmd" []
            (mkOptions true 0%Z (Some (mkSeconds true "5"))) 0 1).
  reflexivity.
Defined.

Lemma emitted_data_app (a b : list notification) :
  emitted_data (a ++ b) = emitted_data a ++ emitted_data b.
Proof. apply flat_map_app. Qed.

Lemma emitted_stderr_app (a b : list notification) :
  emitted_stderr (a ++ b) = emitted_stderr a ++ emitted_stderr b.
Proof. apply flat_map_app. Qed.

Lemma step_emitted_data (ev : event) (s : session) :
  emitted_data (trace (step ev s))
  = emitted_data (trace s)
    ++ (if captureStdout (opts s) then stdout_chunks [ev] else []).
Proof.
  destruct (step_trace ev s) as (e & -> & He).
  destruct (closing_emits_no_data e s _ He) as (E1 & _).
  destruct (step_after_emits_no_data ev s) as (A1 & _).
  rewrite !emitted_data_app, E1, A1, app_nil_r. cbn [app]. f_equal.
  destruct ev; cbn [step_before stdout_chunks flat_map app];
    rewrite ?(proj1 (stderr_lines_projections _));
    now destruct (captureStdout (opts s)).
Qed.

(** X9: when stdout is captured, the ['data'] notifications of a run are
    exactly the chunks of its stdout data events, in order - whether or
    not the session has already ended; when stdout is not captured, no
    ['data'] notification is emitted and the stdout ring is never
    touched. *)
Theorem data_is_forwarded (cmd : string) (arguments : list string)
  (o : options) (listeners handlers : nat) (s0 : session) (evs : list event) :
  run cmd arguments o listeners handlers = inr s0 ->
  emitted_data (trace (run_events evs s0))
  = (if captureStdout o then stdout_chunks evs else []) /\
  (captureStdout o = false ->
   stdoutRing (run_events evs s0) = linesRing (stdoutLines o)).
Proof.
  intros Hrun.
  assert (Hinit : emitted_data (trace s0) = [] /\ opts s0 = o /\
                  stdoutRing s0 = linesRing (stdoutLines o)).
  { unfold run in Hrun. destruct (cmd =? "")%string; [discriminate|].
    destruct (listeners =? 0)%nat; injection Hrun as <-;
      rewrite ?forward_eq; now cbn. }
  destruct Hinit as (Hdata & Ho & Hring). split.
  - rewrite <- Ho. clear Hrun Hring Ho.
    replace (if captureStdout (opts s0) then stdout_chunks evs else [])
      with (emitted_data (trace s0)
            ++ (if captureStdout (opts s0) then stdout_chunks evs else []))
      by now rewrite Hdata.
    clear Hdata. revert s0.
    induction evs as [|ev evs IH]; intros s0.
    + cbn. destruct (captureStdout (opts s0)); now rewrite app_nil_r.
    + rewrite run_events_cons, IH, step_emitted_data, step_opts,
        <- app_assoc.
      f_equal. unfold stdout_chunks.
      destruct (captureStdout (opts s0)); [|reflexivity].
      now cbn [flat_map]; rewrite app_nil_r.
  - intros Hc. rewrite run_events_stdoutRing, Ho, Hc, Hring.
    unfold stdout_ops, stdout_op.
    induction evs as [|ev evs IH]; [reflexivity | exact IH].
Qed.

Lemma data_is_forwarded_witness :
  exists s0,
    run "cmd" [] (mkOptions true 0%Z None) 0 0 = inr s0 /\
    let evs := [StdoutData "a"; StderrData "x"; StdoutClose;
                StderrClose; ProcExit (Some 0%Z) None; StdoutData "b"] in
    emitted_data (trace (run_events evs s0))
    = (if true then stdout_chunks evs else []) /\
    (true = false -> stdoutRing (run_events evs s0) = linesRing 0).
Proof.
  eexists. split; [reflexivity|].
  eapply (data_is_forwarded "cmd" [] (mkOptions true 0%Z None) 0 0).
  reflexivity.
Defined.

End SessionEmissions.

Section SessionStderr.

Lemma single_observer_lines (r : ring) (cb : nat) (ls : list string) :
  cbs r = [cb] -> map snd (flat_map (emit r) ls) = ls.
Proof.
  intros H. induction ls as [|l ls IH]; [reflexivity|].
  change (flat_map (emit r) (l :: ls))
    with (emit r l ++ flat_map (emit r) ls).
  rewrite map_app. unfold emit at 1. rewrite H. cbn [map app snd].
  f_equal. exact IH.
Qed.

Lemma stderr_op_cbs (ev : event) (r : ring) :
  cbs (ring_of (ring_run (stderr_op ev) r)) = cbs r.
Proof.
  destruct ev; cbn [stderr_op]; try reflexivity;
    rewrite ring_of_cons; cbn [ring_run]; unfold ring_of;
    cbn [ring_step fst].
  - rewrite append_fst. apply append_lines_cbs.
  - rewrite close_fst. apply close_lines_cbs.
Qed.

Lemma step_emitted_stderr (ev : event) (s : session) (cb : nat) :
  cbs (stderrRing s) = [cb] ->
  emitted_stderr (trace (step ev s))
  = emitted_stderr (trace s)
    ++ emitted_of (ring_run (stderr_op ev) (stderrRing s)).
Proof.
  intros Hcbs.
  destruct (step_trace ev s) as (e & -> & He).
  destruct (closing_emits_no_data e s _ He) as (_ & E2 & _).
  destruct (step_after_emits_no_data ev s) as (_ & A2 & _).
  rewrite !emitted_stderr_app, E2, A2, app_nil_r. cbn [app]. f_equal.
  destruct ev; cbn [step_before stderr_op]; try reflexivity.
  - now destruct (captureStdout (opts s)).
  - rewrite (proj1 (proj2 (stderr_lines_projections _))).
    rewrite emitted_of_cons. cbn [ring_run]. unfold emitted_of.
    cbn [ring_step fst snd].
    rewrite app_nil_r, append_snd. now apply single_observer_lines with cb.
  - rewrite (proj1 (proj2 (stderr_lines_projections _))).
    rewrite emitted_of_cons. cbn [ring_run]. unfold emitted_of.
    cbn [ring_step fst snd].
    rewrite app_nil_r, close_snd. now apply single_observer_lines with cb.
Qed.

(** X10: when a ['stderr'] listener is already attached at the time
    [run()] is called, every line that the stderr ring completes - the
    partial line flushed at the close of the stream included - is emitted
    as a ['stderr'] notification, once and in order. *)
Theorem stderr_lines_are_forwarded (cmd : string) (arguments : list string)
  (o : options) (listeners handlers : nat) (s0 : session) (evs : list event) :
  run cmd arguments o listeners handlers = inr s0 ->
  listeners <> 0 ->
  emitted_stderr (trace (run_events evs s0))
  = emitted_of (ring_run (stderr_ops evs) (stderrRing s0)).
Proof.
  intros Hrun Hl.
  assert (Hinit : emitted_stderr (trace s0) = [] /\
                  cbs (stderrRing s0) = [stderr_forwarder]).
  { unfold run in Hrun. destruct (cmd =? "")%string; [discriminate|].
    apply Nat.eqb_neq in Hl. rewrite Hl in Hrun.
    injection Hrun as <-. rewrite ?forward_eq. now cbn. }
  destruct Hinit as [Hnone Hcbs]. clear Hrun.
  replace (emitted_of (ring_run (stderr_ops evs) (stderrRing s0)))
    with (emitted_stderr (trace s0)
          ++ emitted_of (ring_run (stderr_ops evs) (stderrRing s0)))
    by now rewrite Hnone.
  clear Hnone. revert s0 Hcbs.
  induction evs as [|ev evs IH]; intros s0 Hcbs.
  - cbn. now rewrite app_nil_r.
  - rewrite run_events_cons, IH.
    + rewrite (step_emitted_stderr ev s0 _ Hcbs), <- app_assoc. f_equal.
      unfold stderr_ops. cbn [flat_map].
      now rewrite emitted_of_app, step_stderrRing.
    + now rewrite step_stderrRing, stderr_op_cbs.
Qed.

Lemma stderr_lines_are_forwarded_witness :
  exists s0,
    run "cmd" [] (mkOptions true 0%Z None) 1 0 = inr s0 /\
    let evs := [StderrData (concat nl ["warn"; "par"]); StdoutClose;
                StderrData (concat nl ["tial"; "x"]); StderrClose] in
    emitted_stderr (trace (run_events evs s0))
    = emitted_of (ring_run (stderr_ops evs) (stderrRing s0)).
Proof.
  eexists. split; [reflexivity|].
  eapply (stderr_lines_are_forwarded "cmd" [] (mkOptions true 0%Z None) 1 0);
    [reflexivity | discriminate].
Defined.

Lemma step_starts_nothing (ev : event) (s : session) :
  exists added,
    trace (step ev s) = trace s ++ added /\ filter is_start added = [].
Proof.
  destruct (step_trace ev s) as (e & -> & He).
  destruct (closing_emits_no_data e s _ He) as (_ & _ & E3).
  destruct (step_after_emits_no_data ev s) as (_ & _ & A3).
  eexists. split; [reflexivity|].
  rewrite !filter_app, E3, A3, app_nil_r. cbn [app].
  destruct ev; cbn [step_before]; try reflexivity.
  - now destruct (captureStdout (opts s)).
  - apply stderr_lines_projections.
  - apply stderr_lines_projections.
Qed.

(** X11: the ['start'] notification, with the command and its arguments,
    is the first notification of every run and is never emitted again. *)
Theorem start_is_first_and_only (cmd : string) (arguments : list string)
  (o : options) (listeners handlers : nat) (s0 : session) (evs : list event) :
  run cmd arguments o listeners handlers = inr s0 ->
  exists rest,
    trace (run_events evs s0) = EmitStart cmd arguments :: rest /\
    filter is_start rest = [].
Proof.
  intros Hrun.
  assert (Hinit : trace s0 = [EmitStart cmd arguments]).
  { unfold run in Hrun. destruct (cmd =? "")%string; [discriminate|].
    destruct (listeners =? 0)%nat; injection Hrun as <-;
      rewrite ?forward_eq; now cbn. }
  clear Hrun.
  assert (Hgen : forall evs s rest,
             trace s = EmitStart cmd arguments :: rest ->
             filter is_start rest = [] ->
             exists rest',
               trace (run_events evs s) = EmitStart cmd arguments :: rest' /\
               filter is_start rest' = []).
  { clear. induction evs as [|ev evs IH]; intros s rest Ht Hr.
    - now exists rest.
    - rewrite run_events_cons.
      destruct (step_starts_nothing ev s) as (added & Hadd & Hnone).
      apply (IH (step ev s) (rest ++ added)).
      + now rewrite Hadd, Ht.
      + now rewrite filter_app, Hr, Hnone. }
  now apply (Hgen evs s0 []).
Qed.

Lemma start_is_first_and_only_witness :
  exists s0,
    run "cmd" ["-v"] (mkOptions true 0%Z None) 0 0 = inr s0 /\
    exists rest,
      trace (run_events [StdoutData "x"; StdoutClose; StderrClose;
                         ProcExit (Some 0%Z) None] s0)
      = EmitStart "cmd" ["-v"] :: rest /\
      filter is_start rest = [].
Proof.
  eexists. split; [reflexivity|].
  eapply (start_is_first_and_only "cmd" ["-v"] (mkOptions true 0%Z None) 0 0).
  reflexivity.
Defined.

End SessionStderr.

Section SessionKill.

Lemma endCB_childProc (err : option error) (ro re : option ring)
  (s : session) :
  childProc (uncaught (endCB err ro re s)) = false.
Proof.
  unfold endCB.
  destruct err as [e|]; [destruct (contains "exited with code" (message e))|];
    destruct ro, re; try reflexivity;
    match goal with
    | |- childProc (uncaught (emitEnd ?a ?b ?c ?x)) = false =>
        change (childProc (finish a b c x) = false);
        now rewrite (proj1 (proj2 (proj2 (proj2 (proj2 (proj2 (proj2
                       (finish_frame a b c x))))))))
    end.
Qed.

Lemma report_to_gate_gate_done (rp : report) (s : session) :
  gate_done (report_to_gate rp s)
  = gate_complete (captureStdout (opts s))
      (fst (gate_report (captureStdout (opts s)) rp (the_gate s))).
Proof.
  destruct (report_to_gate_cases rp s)
    as [[Hc ->] | (Hc & s1 & -> & _ & _ & Ho & _ & _ & _ & Hfl & _)].
  - reflexivity.
  - unfold gate_done.
    destruct (finish_frame
                (augmented (exitError (fst (gate_report
                   (captureStdout (opts s)) rp (the_gate s))))
                   (get (stderrRing s)))
                (get (stdoutRing s)) (get (stderrRing s)) s1)
      as (E1 & _ & _ & _ & E5 & _).
    rewrite E1, E5, Ho. now apply gate_complete_ext.
Qed.

Lemma report_to_gate_childProc (rp : report) (s : session) :
  childProc (report_to_gate rp s)
  = if gate_done (report_to_gate rp s) then false else childProc s.
Proof.
  rewrite report_to_gate_gate_done. unfold report_to_gate.
  pose proof (gate_report_fired (captureStdout (opts s)) rp (the_gate s))
    as Hf.
  destruct (gate_report (captureStdout (opts s)) rp (the_gate s))
    as [g fired].
  cbn [fst snd] in *. subst fired.
  destruct (gate_complete (captureStdout (opts s)) g); [|reflexivity].
  apply endCB_childProc.
Qed.

Lemma step_gate_done_mono (ev : event) (s : session) :
  gate_done s = true -> gate_done (step ev s) = true.
Proof.
  unfold gate_done. rewrite step_opts.
  apply gate_complete_mono. intros n Hn. now rewrite step_flag, Hn.
Qed.

(** What a step does to [self.childProc]: a process error deletes it, a
    report deletes it when it finds the gate complete, any other step
    leaves it and the gate alone. *)
Lemma step_childProc_cases (ev : event) (s : session) :
  (is_proc_error ev = true /\ childProc (step ev s) = false) \/
  (is_proc_error ev = false /\
   childProc (step ev s)
   = if gate_done (step ev s) then false else childProc s) \/
  (is_proc_error ev = false /\
   childProc (step ev s) = childProc s /\
   gate_done (step ev s) = gate_done s).
Proof.
  by_event ev; cbn [is_proc_error].
  - left. now rewrite endCB_without_rings.
  - right. left. split; [reflexivity | apply report_to_gate_childProc].
  - right. right. now destruct (captureStdout (opts s)).
  - destruct (captureStdout (opts s)).
    + right. left. split; [reflexivity|].
      now rewrite report_to_gate_childProc.
    + right. right. now repeat split.
  - right. right. destruct (append data (stderrRing s)) as [r ds].
    now rewrite forward_eq.
  - right. left. split; [reflexivity|].
    destruct (close (stderrRing s)) as [r ds].
    now rewrite report_to_gate_childProc, forward_eq.
  - right. right. split; [reflexivity|].
    destruct (timer s) eqn:Htimer;
      [|cbn [step]; rewrite Htimer; now split].
    destruct (timer_fired_frame s Htimer)
      as (E1 & E2 & _ & _ & _ & E3 & _).
    split; [exact E3|]. unfold gate_done. now rewrite E1, E2.
  - right. right. now repeat split.
  - right. right. now repeat split.
  - right. right. now repeat split.
  - right. right. split; [reflexivity|].
    destruct (childProc s) eqn:E; cbn; now rewrite E.
Qed.

(** Once the gate is complete, or a process error was delivered, the
    process handle is gone. *)
Lemma childProc_gone (evs : list event) (s : session) :
  (gate_done s = true -> childProc s = false) ->
  (gate_done (run_events evs s) = true -> childProc (run_events evs s) = false)
  /\ (childProc s = false -> childProc (run_events evs s) = false)
  /\ (existsb is_proc_error evs = true ->
      childProc (run_events evs s) = false).
Proof.
  revert s. induction evs as [|ev evs IH]; intros s Hinv.
  - repeat split; auto. discriminate.
  - rewrite !run_events_cons. cbn [existsb].
    assert (Hstep : (gate_done (step ev s) = true ->
                     childProc (step ev s) = false) /\
                    (childProc s = false -> childProc (step ev s) = false) /\
                    (is_proc_error ev = true -> childProc (step ev s) = false)).
    { destruct (step_childProc_cases ev s)
        as [[He Hc] | [[He Hc] | (He & Hc & Hg)]]; rewrite Hc.
      - now repeat split.
      - repeat split.
        + now intros ->.
        + intros ->. now destruct (gate_done (step ev s)).
        + congruence.
      - rewrite Hg. repeat split; auto. congruence. }
    destruct Hstep as (S1 & S2 & S3).
    destruct (IH (step ev s) S1) as (I1 & I2 & I3).
    repeat split; auto.
    intros H. apply orb_true_iff in H as [H | H]; auto.
Qed.

(** While no process error arrives and the gate is not complete, the
    process handle stays. *)
Lemma childProc_stays (evs : list event) (s : session) :
  existsb is_proc_error evs = false ->
  gate_done (run_events evs s) = false ->
  childProc (run_events evs s) = childProc s.
Proof.
  revert s. induction evs as [|ev evs IH]; intros s Hne Hg; [reflexivity|].
  cbn [existsb] in Hne. apply orb_false_iff in Hne as [Hev Hevs].
  rewrite run_events_cons in *. rewrite (IH _ Hevs Hg).
  assert (Hstep : gate_done (step ev s) = false).
  { apply not_true_iff_false. intros H. apply not_true_iff_false in Hg.
    apply Hg. clear - H. revert H. generalize (step ev s). 
    induction evs as [|e evs IH]; intros s' H; [exact H|].
    rewrite run_events_cons. apply IH. now apply step_gate_done_mono. }
  destruct (step_childProc_cases ev s)
    as [[He _] | [[_ Hc] | (_ & Hc & _)]]; [congruence | | exact Hc].
  now rewrite Hc, Hstep.
Qed.

End SessionKill.

Section SessionKillClaims.

Lemma run_initial (cmd : string) (arguments : list string) (o : options)
  (listeners handlers : nat) (s0 : session) :
  run cmd arguments o listeners handlers = inr s0 ->
  childProc s0 = true /\ gate_done s0 = false /\ opts s0 = o /\
  stdoutRing s0 = linesRing (stdoutLines o) /\
  lines (stderrRing s0) = [] /\ current (stderrRing s0) = None /\
  closed (stderrRing s0) = false /\
  max (stderrRing s0) = (stdoutLines o - 1)%Z.
Proof.
  unfold run. destruct (cmd =? "")%string; [discriminate|].
  destruct (listeners =? 0)%nat; intros [= <-]; rewrite ?forward_eq;
    now cbn.
Qed.

(** X12: once the session has completed through the gate, or a process
    error was delivered, [kill()] sends no signal: it only logs the
    warning that no child process is running. *)
Theorem kill_after_completion_warns (cmd : string)
  (arguments : list string) (o : options) (listeners handlers : nat) (s0 : session)
  (evs : list event) (signal : option string) :
  run cmd arguments o listeners handlers = inr s0 ->
  gate_done (run_events evs s0) = true \/ existsb is_proc_error evs = true ->
  step (CallKill signal) (run_events evs s0)
  = notify (LoggerWarn "No running child process, cannot send signal")
      (run_events evs s0).
Proof.
  intros Hrun Hwhy.
  destruct (run_initial _ _ _ _ _ _ Hrun) as (_ & Hg & _).
  destruct (childProc_gone evs s0) as (H1 & _ & H3); [congruence|].
  cbn [step]. destruct Hwhy as [H | H]; [rewrite (H1 H) | rewrite (H3 H)];
    reflexivity.
Qed.

Lemma kill_after_completion_warns_witness :
  exists s0,
    run "cmd" [] (mkOptions false 0%Z None) 0 0 = inr s0 /\
    let evs := [StderrClose; ProcExit (Some 0%Z) None] in
    step (CallKill (Some "SIGINT")) (run_events evs s0)
    = notify (LoggerWarn "No running child process, cannot send signal")
        (run_events evs s0).
Proof.
  eexists. split; [reflexivity|].
  eapply (kill_after_completion_warns "cmd" []
            (mkOptions false 0%Z None) 0 0);
    [reflexivity | left; reflexivity].
Defined.

(** X13: as long as no process error was delivered and the gate is not
    complete - even after a timeout has already ended the session -
    [kill(signal)] sends the given signal to the process, and SIGKILL when
    none (or an empty name) is given. *)
Theorem kill_while_running_sends (cmd : string) (arguments : list string)
  (o : options) (listeners handlers : nat) (s0 : session) (evs : list event)
  (signal : option string) :
  run cmd arguments o listeners handlers = inr s0 ->
  existsb is_proc_error evs = false ->
  gate_done (run_events evs s0) = false ->
  step (CallKill signal) (run_events evs s0)
  = notify (ProcKill (Some (match signal with
                            | Some (String a sg) => String a sg
                            | _ => "SIGKILL"
                            end))) (run_events evs s0).
Proof.
  intros Hrun Hne Hg.
  destruct (run_initial _ _ _ _ _ _ Hrun) as (Hc & _).
  cbn [step]. now rewrite (childProc_stays evs s0 Hne Hg), Hc.
Qed.

Lemma kill_while_running_sends_witness :
  exists s0,
    run "cmd" [] (mkOptions true 0%Z (Some (mkSeconds true "1"))) 0 0 = inr s0 /\
    let evs := [StdoutData "x"; TimerFired; StderrClose] in
    step (CallKill None) (run_events evs s0)
    = notify (ProcKill (Some "SIGKILL")) (run_events evs s0).
Proof.
  eexists. split; [reflexivity|].
  eapply (kill_while_running_sends "cmd" []
            (mkOptions true 0%Z (Some (mkSeconds true "1"))) 0 0 _ _ None); reflexivity.
Defined.

(** X14: the timer is never cancelled: when a timeout is configured and
    the session has already ended before the timer fires, the timer emits
    nothing, but it still calls [childProc.kill()] on the process. *)
Theorem timer_after_end_still_kills (cmd : string)
  (arguments : list string) (o : options) (listeners handlers : nat) (s0 : session)
  (evs : list event) :
  run cmd arguments o listeners handlers = inr s0 ->
  timeout_set o = true ->
  existsb is_timer evs = false ->
  ended (run_events evs s0) = true ->
  trace (step TimerFired (run_events evs s0))
    = trace (run_events evs s0) ++ [ProcKill None] /\
  ended (step TimerFired (run_events evs s0)) = true.
Proof.
  intros Hrun Hset Hnt Hended.
  destruct (run_settled _ _ _ _ _ _ Hrun) as (_ & _ & _ & _ & Ht).
  assert (Htimer : timer (run_events evs s0) = true).
  { now rewrite (run_events_timer evs s0 Hnt), Ht. }
  split; [|apply (timer_fired_frame _ Htimer)].
  rewrite (timer_fired _ Htimer). cbv zeta. unfold emit_throws.
  rewrite Hended. cbn [negb andb notify trace].
  now rewrite finish_idle by exact Hended.
Qed.

Lemma timer_after_end_still_kills_witness :
  exists s0,
    run "cmd" [] (mkOptions true 0%Z (Some (mkSeconds true "30"))) 0 0 = inr s0 /\
    let evs := [StdoutClose; StderrClose; ProcExit (Some 0%Z) None] in
    trace (step TimerFired (run_events evs s0))
      = trace (run_events evs s0) ++ [ProcKill None] /\
    ended (step TimerFired (run_events evs s0)) = true.
Proof.
  eexists. split; [reflexivity|].
  eapply (timer_after_end_still_kills "cmd" []
            (mkOptions true 0%Z (Some (mkSeconds true "30"))) 0 0); reflexivity.
Defined.

End SessionKillClaims.

Section SessionResult.

Lemma gate_report_exitError (capture : bool) (rp : report) (g : gate) :
  exitError (fst (gate_report capture rp g))
  = match rp with
    | ExitReport code signal =>
        match exit_error code signal with
        | Some e => Some e
        | None => exitError g
        end
    | _ => exitError g
    end.
Proof.
  destruct rp as [code signal| |]; cbn; [|reflexivity..].
  now destruct (exit_error code signal).
Qed.

(** A report: when the session stays open the gate holds the exit error;
    when the report ends the session, the terminal emission carries the
    augmented exit error and the snapshots of the rings. *)
Lemma report_to_gate_result (rp : report) (s : session) :
  let g := fst (gate_report (captureStdout (opts s)) rp (the_gate s)) in
  let s' := report_to_gate rp s in
  (ended s' = false -> exitError (the_gate s') = exitError g) /\
  (ended s = false -> ended s' = true ->
   trace s' = trace s
              ++ terminal_out (listening s)
                   (augmented (exitError g) (get (stderrRing s)))
                   (get (stdoutRing s)) (get (stderrRing s))).
Proof.
  cbv zeta.
  destruct (report_to_gate_cases rp s)
    as [[Hc ->] | (Hc & s1 & -> & He & Ht & _ & _ & _ & _ & _ & Hl)].
  - split; [reflexivity|]. cbn. congruence.
  - split.
    + rewrite finish_ended. discriminate.
    + intros Hopen _. rewrite finish_trace by congruence. rewrite Ht.
      unfold listening. now rewrite Hl.
Qed.

(** The gate after a step that leaves the session open. *)
Lemma step_exitError (ev : event) (s : session) :
  ended (step ev s) = false ->
  exitError (the_gate (step ev s)) = exit_error_after ev (the_gate s).
Proof.
  by_event ev; cbn [exit_error_after]; intros Hopen.
  - now rewrite endCB_without_rings.
  - rewrite (proj1 (report_to_gate_result _ _) Hopen).
    now rewrite gate_report_exitError.
  - now destruct (captureStdout (opts s)).
  - destruct (captureStdout (opts s)); [|reflexivity].
    rewrite (proj1 (report_to_gate_result _ _) Hopen).
    now rewrite gate_report_exitError.
  - destruct (append data (stderrRing s)) as [r ds]. now rewrite forward_eq.
  - destruct (close (stderrRing s)) as [r ds].
    rewrite (proj1 (report_to_gate_result _ _) Hopen).
    rewrite gate_report_exitError. now rewrite forward_eq.
  - destruct (timer s) eqn:Htimer; [|cbn [step]; now rewrite Htimer].
    now rewrite (proj1 (proj2 (timer_fired_frame s Htimer))).
  - reflexivity.
  - reflexivity.
  - reflexivity.
  - now destruct (childProc s).
Qed.

(** The step that ends the session through the gate. *)
Lemma step_ending_trace (ev : event) (s : session) :
  is_timer ev = false ->
  ended s = false ->
  ended (step ev s) = true ->
  trace (step ev s)
  = trace s ++ step_before ev s
    ++ terminal_out (listening s)
         (augmented (exit_error_after ev (the_gate s))
            (get (stderrRing (step ev s))))
         (get (stdoutRing (step ev s))) (get (stderrRing (step ev s))).
Proof.
  intros Hnt Hopen Hend.
  assert (Hrep : forall rp s1,
             ended s1 = false ->
             ended (report_to_gate rp s1) = true ->
             trace (report_to_gate rp s1)
             = trace s1
               ++ terminal_out (listening s1)
                    (augmented
                       (exitError (fst (gate_report (captureStdout (opts s1))
                                          rp (the_gate s1))))
                       (get (stderrRing (report_to_gate rp s1))))
                    (get (stdoutRing (report_to_gate rp s1)))
                    (get (stderrRing (report_to_gate rp s1)))).
  { intros rp s1 H1 H2.
    destruct (report_to_gate_summary rp s1) as (_ & _ & Hro & Hre & _).
    rewrite Hro, Hre. now apply report_to_gate_result. }
  destruct ev; cbn [step step_before exit_error_after] in *;
    try discriminate Hnt.
  - rewrite endCB_without_rings in Hend. cbn in Hend. congruence.
  - rewrite (Hrep _ s Hopen Hend), gate_report_exitError. reflexivity.
  - destruct (captureStdout (opts s)); cbn in Hend; congruence.
  - destruct (captureStdout (opts s)); [|congruence].
    rewrite (Hrep StdoutCloseReport
               (set_stdoutRing (fst (close (stdoutRing s))) s) Hopen Hend).
    rewrite gate_report_exitError. reflexivity.
  - destruct (append data (stderrRing s)) as [r ds].
    rewrite forward_eq in Hend. cbn in Hend. congruence.
  - destruct (close (stderrRing s)) as [r ds]. cbn [snd].
    assert (H1 : ended (forward ds (set_stderrRing r s)) = false)
      by now rewrite forward_eq.
    rewrite (Hrep _ _ H1 Hend), gate_report_exitError.
    rewrite forward_eq at 1 2 3. cbn [trace the_gate set_stderrRing].
    now rewrite <- app_assoc.
  - cbn in Hend. congruence.
  - cbn in Hend. congruence.
  - cbn in Hend. congruence.
  - destruct (childProc s); cbn in Hend; congruence.
Qed.

Lemma close_closed (r : ring) : closed (fst (close r)) = true.
Proof.
  rewrite close_fst. unfold close_lines.
  destruct (closed r) eqn:E; [exact E|]. now destruct (current r).
Qed.

(** A ring that is closed stays the ring it is under stream events. *)
Lemma closed_ring_stays (ops : list ring_op) (r : ring) :
  closed r = true -> forallb feeds ops = true ->
  ring_of (ring_run ops r) = r.
Proof.
  intros Hc. induction ops as [|op ops IH]; intros Hf; [reflexivity|].
  cbn [forallb] in Hf. apply andb_true_iff in Hf as [H1 H2].
  rewrite ring_of_cons, (ring_step_closed op r Hc H1).
  now apply IH.
Qed.

Lemma stderr_op_feeds (ev : event) : forallb feeds (stderr_op ev) = true.
Proof. now destruct ev. Qed.

Lemma stdout_op_feeds (capture : bool) (ev : event) :
  forallb feeds (stdout_op capture ev) = true.
Proof. unfold stdout_op. now destruct capture, ev. Qed.

End SessionResult.

Section SessionCourse.

Lemma gate_done_flags (s : session) :
  gate_done s = true ->
  processExited (the_gate s) = true /\
  stderrClosed (the_gate s) = true /\
  (captureStdout (opts s) = true -> stdoutClosed (the_gate s) = true).
Proof.
  unfold gate_done, gate_complete.
  destruct (processExited (the_gate s)), (stderrClosed (the_gate s)),
    (stdoutClosed (the_gate s)), (captureStdout (opts s)); cbn;
    intros H; try discriminate H; repeat split; auto.
Qed.

(** The exit error that the gate holds after an event of a run whose exit
    events agree. *)
Lemma exit_error_after_agrees (exit_err : option error) (ev : event)
  (s : session) :
  exits_agree exit_err ev ->
  (processExited (the_gate s) = false -> exitError (the_gate s) = None) ->
  (processExited (the_gate s) = true -> exitError (the_gate s) = exit_err) ->
  processExited (the_gate (step ev s)) = true ->
  exit_error_after ev (the_gate s) = exit_err.
Proof.
  intros Hagree H2 H3 Hpe.
  pose proof (step_flag ev s processExitedN) as Hf. cbn [flag] in Hf.
  rewrite Hpe in Hf.
  destruct ev; cbn [exit_error_after exits_agree raises] in *;
    rewrite ?orb_false_r in Hf; try (now apply H3).
  - rewrite Hagree. destruct exit_err as [e|]; [reflexivity|].
    destruct (processExited (the_gate s)); [now apply H3 | now apply H2].
  - apply H3. destruct (captureStdout (opts s)); cbn in Hf;
      now rewrite ?orb_false_r in Hf.
Qed.

(** One step of a run without timer events keeps the session on course. *)
Lemma on_course_step (exit_err : option error) (ev : event) (s : session) :
  settled s ->
  on_course exit_err s ->
  is_timer ev = false ->
  exits_agree exit_err ev ->
  on_course exit_err (step ev s).
Proof.
  intros Hset (I1 & I2 & I3 & I4 & I5 & I6 & I7) Hnt Hagree.
  pose proof (step_opts ev s) as Hopts.
  pose proof (step_flag ev s) as Hflag.
  pose proof (step_stderrRing ev s) as Hre.
  pose proof (step_stdoutRing ev s) as Hro.
  assert (Hsum : (gate_done (step ev s) = gate_done s /\
                  ended (step ev s) = ended s /\
                  timer (step ev s) = timer s) \/
                 (gate_done (step ev s) = true /\
                  ended (step ev s) = true /\
                  timer (step ev s) = timer s)).
  { destruct (step_summary ev s) as [H | [H | (-> & _)]];
      [now left | now right | discriminate Hnt]. }
  assert (Hdone : ended (step ev s) = true -> gate_done (step ev s) = true).
  { destruct Hsum as [(Hg & He & _) | (Hg & _)]; [|auto].
    rewrite Hg, He. intros H. now apply I7. }
  assert (Hmono : ended (step ev s) = false -> ended s = false).
  { destruct Hsum as [(_ & He & _) | (_ & He & _)]; congruence. }
  assert (Herr_closed :
            stderrClosed (the_gate (step ev s)) = true ->
            closed (stderrRing (step ev s)) = true).
  { intros H. rewrite Hre. pose proof (Hflag stderrClosedN) as Hf.
    cbn [flag] in Hf. rewrite H in Hf.
    destruct (stderrClosed (the_gate s)) eqn:E.
    - rewrite (closed_ring_stays _ _ (I4 eq_refl) (stderr_op_feeds ev)).
      now apply I4.
    - cbn [orb] in Hf. destruct ev; cbn [raises] in Hf;
        try discriminate Hf.
      + destruct (captureStdout (opts s)); discriminate Hf.
      + cbn [stderr_op]. rewrite ring_of_cons. cbn [ring_run].
        unfold ring_of. cbn [ring_step fst]. apply close_closed. }
  assert (Hout_closed :
            stdoutClosed (the_gate (step ev s)) = true ->
            closed (stdoutRing (step ev s)) = true).
  { intros H. rewrite Hro. pose proof (Hflag stdoutClosedN) as Hf.
    cbn [flag] in Hf. rewrite H in Hf.
    destruct (stdoutClosed (the_gate s)) eqn:E.
    - rewrite (closed_ring_stays _ _ (I5 eq_refl) (stdout_op_feeds _ ev)).
      now apply I5.
    - cbn [orb] in Hf. destruct ev; cbn [raises] in Hf;
        try discriminate Hf.
      destruct (captureStdout (opts s)); [|discriminate Hf].
      cbn [stdout_op]. rewrite ring_of_cons. cbn [ring_run].
      unfold ring_of. cbn [ring_step fst]. apply close_closed. }
  unfold on_course. rewrite Hopts.
  refine (conj _ (conj _ (conj _ (conj Herr_closed (conj Hout_closed
            (conj _ _)))))).
  - destruct Hsum as [(_ & _ & ->) | (_ & _ & ->)]; exact I1.
  - intros Hpe.
    destruct (ended (step ev s)) eqn:Hend.
    + destruct (gate_done_flags _ (Hdone eq_refl)) as (Hp & _). congruence.
    + rewrite (step_exitError ev s Hend).
      pose proof (Hflag processExitedN) as Hf. cbn [flag] in Hf.
      rewrite Hpe in Hf. symmetry in Hf. apply orb_false_iff in Hf as [Hf1 Hf2].
      destruct ev; cbn [exit_error_after raises] in *; try (now apply I2).
      discriminate Hf2.
  - intros Hend Hpe. rewrite (step_exitError ev s Hend).
    apply (exit_error_after_agrees exit_err ev s Hagree I2); [|exact Hpe].
    intros Hp. apply I3; [now apply Hmono | exact Hp].
  - destruct Hsum as [(Hg & He & _) | (_ & He & _)]; [|auto].
    rewrite Hg, He. exact I6.
  - intros Hend. split; [now apply Hdone|].
    destruct (ended s) eqn:Hs.
    + destruct (I7 eq_refl)
        as (Hgd & front & h & back & Ht & Hf & Hb).
      destruct (gate_done_flags _ Hgd) as (_ & Hsc & Hso).
      assert (Hre' : stderrRing (step ev s) = stderrRing s).
      { rewrite Hre. apply closed_ring_stays;
          [now apply I4 | apply stderr_op_feeds]. }
      assert (Hro' : stdoutRing (step ev s) = stdoutRing s).
      { rewrite Hro. destruct (captureStdout (opts s)) eqn:Hc.
        - apply closed_ring_stays; [|apply stdout_op_feeds].
          apply I5. now apply Hso.
        - reflexivity. }
      rewrite Hre', Hro'.
      destruct (step_trace ev s) as (e & Hte & He).
      assert (e = []) as ->.
      { destruct He as [[-> _] | (Hopen & _)]; [reflexivity | congruence]. }
      exists front, h, (back ++ step_before ev s ++ step_after ev s).
      rewrite Hte, Ht. cbn [app]. rewrite <- !app_assoc.
      refine (conj eq_refl (conj Hf _)).
      apply quiet_app; [exact Hb|].
      apply quiet_app; [apply quiet_step_before | apply quiet_step_after].
    + exists (trace s ++ step_before ev s), (listening s), [].
      rewrite (step_ending_trace ev s Hnt Hs Hend), app_nil_r, <- app_assoc.
      destruct (gate_done_flags _ (Hdone Hend)) as (Hpe & _).
      rewrite (exit_error_after_agrees exit_err ev s Hagree I2);
        [| intros Hp; now apply I3 | exact Hpe].
      refine (conj eq_refl (conj _ _)).
      * apply quiet_app; [|apply quiet_step_before].
        unfold settled in Hset. now rewrite Hs in Hset.
      * constructor.
Qed.

Lemma on_course_run_events (exit_err : option error) (evs : list event)
  (s : session) :
  settled s ->
  on_course exit_err s ->
  existsb is_timer evs = false ->
  Forall (exits_agree exit_err) evs ->
  on_course exit_err (run_events evs s).
Proof.
  revert s. induction evs as [|ev evs IH]; intros s Hset Hc Hnt Hag;
    [exact Hc|].
  cbn [existsb] in Hnt. apply orb_false_iff in Hnt as [H1 H2].
  inversion Hag as [|? ? Ha Has]; subst.
  rewrite run_events_cons. apply IH; try assumption.
  - apply (settled_advance s); [exact Hset | apply advance_step].
  - now apply on_course_step.
Qed.

End SessionCourse.

Section SessionResultClaims.

Lemma run_on_course (cmd : string) (arguments : list string) (o : options)
  (listeners handlers : nat) (s0 : session) (exit_err : option error) :
  run cmd arguments o listeners handlers = inr s0 ->
  on_course exit_err s0.
Proof.
  intros Hrun.
  destruct (run_settled _ _ _ _ _ _ Hrun) as (_ & He & Ho & Hg & Ht).
  destruct (run_initial _ _ _ _ _ _ Hrun) as (_ & Hgd & _).
  unfold on_course. rewrite Hg, He, Ho, Hgd. cbn [new_gate processExited
    exitError stderrClosed stdoutClosed].
  refine (conj Ht (conj _ (conj _ (conj _ (conj _ (conj _ _))))));
    try discriminate; auto.
Qed.

(** X15: the result of a run that no timeout cuts short.  When the process
    exit, the stderr close and (when stdout is captured) the stdout close
    have arrived, in any order, and every exit event carries the same exit
    error, the one terminal notification carries the exit error - with
    the extract of stderr appended when it is of the kind exited with
    code - together with the text of the stdout ring fed the stdout events
    and the text of the stderr ring fed the stderr events, all of them,
    also those that arrived after the exit.  It is emitted by the event
    [ev] that ends the session, and followed by the call of the
    completion callback with the same arguments when there is no exit
    error, or when an ['error'] listener is attached at the moment [ev]
    arrives; when there is an exit error and no ['error'] listener at
    that moment, the emitter throws the error instead. *)
Theorem run_result (cmd : string) (arguments : list string) (o : options)
  (listeners handlers : nat) (s0 : session) (evs : list event)
  (exit_err : option error) :
  run cmd arguments o listeners handlers = inr s0 ->
  existsb is_timer evs = false ->
  Forall (exits_agree exit_err) evs ->
  (exists code signal, In (ProcExit code signal) evs) ->
  In StderrClose evs ->
  (captureStdout o = true -> In StdoutClose evs) ->
  let out := get (ring_of (ring_run (stdout_ops (captureStdout o) evs)
                             (linesRing (stdoutLines o)))) in
  let err := get (ring_of (ring_run (stderr_ops evs) (stderrRing s0))) in
  exists pre ev post front back,
    evs = pre ++ ev :: post /\
    ended (run_events pre s0) = false /\
    ended (step ev (run_events pre s0)) = true /\
    trace (run_events evs s0)
    = front
      ++ terminal_out (listening (run_events pre s0))
           (augmented exit_err err) out err
      ++ back /\
    quiet front /\ quiet back.
Proof.
  intros Hrun Hnt Hag Hexit Herr Hout out err.
  destruct (run_settled _ _ _ _ _ _ Hrun) as (Hset & Hopen & Ho & Hg & _).
  destruct (run_initial _ _ _ _ _ _ Hrun) as (_ & _ & _ & Hro & _).
  pose proof (on_course_run_events exit_err evs s0 Hset
                (run_on_course _ _ _ _ _ _ exit_err Hrun) Hnt Hag)
    as (_ & _ & _ & _ & _ & _ & Hshape).
  destruct (run_gate_done _ _ _ _ _ _ _ Hrun Hexit Herr Hout)
    as (_ & Hended).
  destruct (Hshape Hended) as (_ & front & h & back & Ht & Hf & Hb).
  rewrite run_events_stderrRing, run_events_stdoutRing, Ho, Hro in Ht.
  assert (Hq : quiet (trace s0)).
  { unfold settled in Hset. now rewrite Hopen in Hset. }
  destruct (run_ends evs s0 Hq Hopen Hended)
    as (pre & ev & post & front' & err' & out' & et' & back'
        & Hevs & H1 & H2 & Ht' & Hf' & Hb').
  exists pre, ev, post, front, back.
  refine (conj Hevs (conj H1 (conj H2 (conj _ (conj Hf Hb))))).
  rewrite Ht in Ht'.
  destruct (terminal_out_unique _ _ _ _ _ _ _ _ _ _ _ _ Hf Hf' Ht')
    as (_ & Hsame & _).
  fold out err in Ht, Hsame. rewrite Ht.
  assert (Hh : terminal_out h (augmented exit_err err) out err
               = terminal_out (listening (run_events pre s0))
                   (augmented exit_err err) out err).
  { destruct (augmented exit_err err) as [e|] eqn:Ea; [|reflexivity].
    destruct h, (listening (run_events pre s0)), err' as [e'|];
      cbn in Hsame |- *; try reflexivity; try discriminate Hsame. }
  now rewrite Hh.
Qed.

Lemma run_result_witness :
  exists s0,
    run "ls" ["-l"] (mkOptions true 10%Z None) 1 1 = inr s0 /\
    let evs := [StdoutData ("a" ++ String LF "b")%string;
                ProcExit (Some 2%Z) None; OffError;
                StderrData ("ls: no such file" ++ String LF "")%string;
                StderrClose; StdoutClose] in
    (exists pre ev post front back,
       evs = pre ++ ev :: post /\
       ended (run_events pre s0) = false /\
       ended (step ev (run_events pre s0)) = true /\
       trace (run_events evs s0)
       = front ++
         terminal_out (listening (run_events pre s0))
           (augmented (exit_error (Some 2%Z) None)
              (get (ring_of (ring_run (stderr_ops evs) (stderrRing s0)))))
           (get (ring_of (ring_run (stdout_ops true evs) (linesRing 10%Z))))
           (get (ring_of (ring_run (stderr_ops evs) (stderrRing s0))))
         ++ back /\
       quiet front /\ quiet back) /\
    trace (run_events evs s0)
    = [EmitStart "ls" ["-l"];
       EmitData ("a" ++ String LF "b")%string;
       EmitStderr "ls: no such file";
       EmitStderr "";
       EmitError
         (mkError
            ("child process target exited with code 2: ls: no such file"
             ++ String LF "")%string)
         ("a" ++ String LF "b")%string
         ("ls: no such file" ++ String LF "")%string;
       Uncaught
         (UnhandledError
            (mkError
               ("child process target exited with code 2: ls: no such file"
                ++ String LF "")%string))].
Proof.
  eexists. split; [reflexivity|]. cbv zeta.
  split; [|vm_compute; reflexivity].
  apply (run_result "ls" ["-l"] (mkOptions true 10%Z None) 1 1 _ _
           (exit_error (Some 2%Z) None)).
  - reflexivity.
  - reflexivity.
  - repeat constructor.
  - exists (Some 2%Z), None. cbn. auto.
  - cbn. do 4 right. now left.
  - intros _. cbn. do 5 right. now left.
Defined.

End SessionResultClaims.

(* ------------------------------------------------------------------ *)
(** *** The argument list *)
(* ------------------------------------------------------------------ *)

Section ArgsFacts.

Lemma read_alloc_old (a : nat) (v : list string) (st : Args.store) :
  a < List.length st -> Args.read a (st ++ [v]) = Args.read a st.
Proof. intros H. unfold Args.read. now apply app_nth1. Qed.

Lemma read_alloc_new (v : list string) (st : Args.store) :
  Args.read (List.length st) (st ++ [v]) = v.
Proof. unfold Args.read. apply nth_middle. Qed.

Lemma read_write_same (a : nat) (v : list string) (st : Args.store) :
  a < List.length st -> Args.read a (Args.write a v st) = v.
Proof.
  revert a. induction st as [|x st IH]; intros a H; cbn in H; [lia|].
  destruct a as [|a]; [reflexivity|]. cbn. apply IH. lia.
Qed.

Lemma read_write_other (a b : nat) (v : list string) (st : Args.store) :
  a <> b -> Args.read b (Args.write a v st) = Args.read b st.
Proof.
  revert a b. induction st as [|x st IH]; intros a b H;
    [now destruct a|].
  destruct a as [|a], b as [|b]; try reflexivity; [congruence|].
  cbn. apply IH. congruence.
Qed.

Lemma indexOf_found (arg : string) (l : list string) (i : nat) :
  Args.indexOf arg l = Some i ->
  l = firstn i l ++ arg :: skipn (S i) l /\ ~ In arg (firstn i l).
Proof.
  revert i. induction l as [|x l IH]; intros i H; [discriminate H|].
  cbn [Args.indexOf] in H. destruct (x =? arg)%string eqn:E.
  - injection H as <-. apply String.eqb_eq in E as ->. now split.
  - destruct (Args.indexOf arg l) as [j|]; [|discriminate H].
    injection H as <-. destruct (IH j eq_refl) as (Hl & Hn).
    change (firstn (S j) (x :: l)) with (x :: firstn j l).
    change (skipn (S (S j)) (x :: l)) with (skipn (S j) l).
    split; [cbn [app]; f_equal; exact Hl|].
    intros [-> | Hin]; [|now apply Hn].
    now rewrite String.eqb_refl in E.
Qed.

Lemma indexOf_missing (arg : string) (l : list string) :
  Args.indexOf arg l = None -> ~ In arg l.
Proof.
  induction l as [|x l IH]; intros H; [now intros []|].
  cbn [Args.indexOf] in H. destruct (x =? arg)%string eqn:E;
    [discriminate H|].
  destruct (Args.indexOf arg l); [discriminate H|].
  intros [-> | Hin]; [now rewrite String.eqb_refl in E | now apply IH].
Qed.

(** X16: [remove(arg, count)] deletes what [find(arg, count)] returns.
    When [find] returns an array, the list is some front without [arg],
    then [arg], then the returned items, then some back, and [remove]
    leaves the front followed by the back; fewer than [count] items are
    returned only when the list ends there.  When [find] returns
    undefined, [arg] is not in the list and [remove] changes nothing. *)
Theorem remove_deletes_what_find_returns (arg : string)
  (count : option nat) (f : Args.argfunc) (st : Args.store) :
  Args.the_list f < List.length st ->
  match Args.find arg count f st with
  | Some found =>
      exists front back,
        Args.contents f st = front ++ arg :: found ++ back /\
        ~ In arg front /\
        Args.contents f (Args.remove arg count f st) = front ++ back /\
        List.length found <= Args.or_zero count /\
        (List.length found < Args.or_zero count -> back = [])
  | None =>
      ~ In arg (Args.contents f st) /\ Args.remove arg count f st = st
  end.
Proof.
  intros Hf. unfold Args.find, Args.remove, Args.contents.
  set (l := Args.read (Args.the_list f) st).
  set (c := Args.or_zero count).
  destruct (Args.indexOf arg l) as [i|] eqn:E.
  - destruct (indexOf_found _ _ _ E) as (Hl & Hn).
    exists (firstn i l), (skipn c (skipn (S i) l)).
    rewrite (read_write_same _ _ _ Hf). unfold Args.slice, Args.splice.
    replace (i + 1 + c - (i + 1)) with c by lia.
    replace (i + 1) with (S i) by lia.
    rewrite firstn_skipn, skipn_skipn.
    replace (i + (c + 1)) with (c + S i) by lia.
    refine (conj Hl (conj Hn (conj eq_refl (conj _ _)))).
    + rewrite length_firstn. lia.
    + rewrite length_firstn, length_skipn. intros H. apply skipn_all2.
      lia.
  - split; [now apply indexOf_missing | reflexivity].
Qed.

Lemma remove_deletes_what_find_returns_witness :
  let st := [["-i"; "in"; "-f"; "mp4"; "out"]] in
  let f := Args.mkArgfunc 0 in
  exists front back,
    Args.contents f st = front ++ "-f" :: ["mp4"] ++ back /\
    ~ In "-f" front /\
    Args.contents f (Args.remove "-f" (Some 1) f st) = front ++ back /\
    List.length ["mp4"] <= 1 /\
    (List.length ["mp4"] < 1 -> back = []).
Proof.
  exact (remove_deletes_what_find_returns "-f" (Some 1) (Args.mkArgfunc 0)
           [["-i"; "in"; "-f"; "mp4"; "out"]] (Nat.lt_0_succ 0)).
Defined.

(** X17: appending builds a new array.  After [argfunc(x1, ..., xn)] the
    list holds the old arguments followed by the new ones, but every array
    that existed before - among them the one an earlier [get()] returned -
    is unchanged, and a later [remove] does not reach it either. *)
Theorem append_leaves_returned_array (xs : list string) (f : Args.argfunc)
  (st : Args.store) :
  Args.the_list f < List.length st ->
  let st' := fst (Args.call xs f st) in
  let f' := snd (Args.call xs f st) in
  Args.contents f' st' = Args.contents f st ++ xs /\
  (forall a, a < List.length st -> Args.read a st' = Args.read a st) /\
  (forall arg count,
      Args.read (Args.get f) (Args.remove arg count f' st')
      = Args.contents f st).
Proof.
  intros Hf. cbn. unfold Args.contents. cbn [Args.the_list].
  refine (conj (read_alloc_new _ _) (conj _ _)).
  - intros a Ha. now apply read_alloc_old.
  - intros arg count. unfold Args.remove, Args.get. cbn [Args.the_list].
    destruct (Args.indexOf _ _).
    + rewrite read_write_other by lia. now apply read_alloc_old.
    + now apply read_alloc_old.
Qed.

Lemma append_leaves_returned_array_witness :
  let st := [["-i"; "in"]] in
  let f := Args.mkArgfunc 0 in
  let st' := fst (Args.call ["-f"; "mp4"] f st) in
  let f' := snd (Args.call ["-f"; "mp4"] f st) in
  Args.contents f' st' = Args.contents f st ++ ["-f"; "mp4"] /\
  (forall a, a < List.length st -> Args.read a st' = Args.read a st) /\
  (forall arg count,
      Args.read (Args.get f) (Args.remove arg count f' st')
      = Args.contents f st).
Proof.
  exact (append_leaves_returned_array ["-f"; "mp4"] (Args.mkArgfunc 0)
           [["-i"; "in"]] (Nat.lt_0_succ 0)).
Defined.

(** X18: a clone holds the same arguments in an array of its own: removing
    from the clone leaves the original list as it was, and removing from
    the original leaves the clone as it was. *)
Theorem clone_is_independent (f : Args.argfunc) (st : Args.store) :
  Args.the_list f < List.length st ->
  let st' := fst (Args.clone f st) in
  let g := snd (Args.clone f st) in
  Args.contents g st' = Args.contents f st /\
  Args.contents f st' = Args.contents f st /\
  (forall arg count,
      Args.contents f (Args.remove arg count g st') = Args.contents f st) /\
  (forall arg count,
      Args.contents g (Args.remove arg count f st') = Args.contents f st).
Proof.
  intros Hf. cbn. unfold Args.contents. cbn [Args.the_list].
  rewrite !length_app. cbn [List.length].
  assert (Hold : forall v w,
             Args.read (Args.the_list f) ((st ++ [v]) ++ [w])
             = Args.read (Args.the_list f) st).
  { intros v w. rewrite read_alloc_old by (rewrite length_app; cbn; lia).
    now apply read_alloc_old. }
  assert (Hnew : forall v w,
             Args.read (List.length st + 1) ((st ++ [v]) ++ [w]) = w).
  { intros v w. replace (List.length st + 1) with (List.length (st ++ [v]))
      by (rewrite length_app; reflexivity).
    apply read_alloc_new. }
  assert (Hmid : Args.read (List.length st) (st ++ [[]]) = []).
  { apply read_alloc_new. }
  rewrite Hmid. cbn [app].
  repeat match goal with
         | |- context [nth ?n ?l (@nil string)] =>
             change (nth n l (@nil string)) with (Args.read n l)
         end.
  refine (conj _ (conj _ (conj _ _))).
  - rewrite Hnew. now apply read_alloc_old.
  - apply Hold.
  - intros arg count. unfold Args.remove. cbn [Args.the_list].
    destruct (Args.indexOf _ _).
    + rewrite read_write_other by lia. apply Hold.
    + apply Hold.
  - intros arg count. unfold Args.remove.
    destruct (Args.indexOf _ _).
    + rewrite read_write_other by lia. rewrite Hnew.
      now apply read_alloc_old.
    + rewrite Hnew. now apply read_alloc_old.
Qed.

Lemma clone_is_independent_witness :
  let st := [["-i"; "in"]] in
  let f := Args.mkArgfunc 0 in
  let st' := fst (Args.clone f st) in
  let g := snd (Args.clone f st) in
  Args.contents g st' = Args.contents f st /\
  Args.contents f st' = Args.contents f st /\
  (forall arg count,
      Args.contents f (Args.remove arg count g st') = Args.contents f st) /\
  (forall arg count,
      Args.contents g (Args.remove arg count f st') = Args.contents f st).
Proof.
  exact (clone_is_independent (Args.mkArgfunc 0) [["-i"; "in"]]
           (Nat.lt_0_succ 0)).
Defined.

End ArgsFacts.

(* ------------------------------------------------------------------ *)
(** *** Copying the keys of an object *)
(* ------------------------------------------------------------------ *)

Section CopyFacts.
Variable V : Type.

Lemma obj_get_set (k key : string) (v : V) (o : Objects.object V) :
  Objects.obj_get V k (Objects.obj_set V key v o)
  = if (key =? k)%string then Some v else Objects.obj_get V k o.
Proof.
  induction o as [|[k' w] o IH]; cbn [Objects.obj_set Objects.obj_get].
  - reflexivity.
  - destruct (k' =? key)%string eqn:E; cbn [Objects.obj_get].
    + apply String.eqb_eq in E as ->. now destruct (key =? k)%string.
    + rewrite IH. destruct (k' =? k)%string eqn:E'; [|reflexivity].
      apply String.eqb_eq in E' as ->.
      now rewrite (String.eqb_sym key k), E.
Qed.





Section WithPrototypes.
Variable proto_setter : V -> Objects.setter_answer.
Variable takes : V -> string -> bool.








End WithPrototypes.

End CopyFacts.



(* ------------------------------------------------------------------ *)
(** *** The cache of resolved executables *)
(* ------------------------------------------------------------------ *)

Section WhichFacts.
Variable inherited : string -> bool.

Lemma resolutions_lookup (name : string)
  (rs : list (string * option string)) (c : Which.cache) :
  Objects.obj_get string name (Which.resolutions rs c)
  = match Which.last_answer name rs with
    | Some p => Some p
    | None => Objects.obj_get string name c
    end.
Proof.
  revert c. induction rs as [|[n result] rs IH]; intros c; [reflexivity|].
  unfold Which.resolutions in *. cbn [fold_left Which.last_answer].
  rewrite IH. destruct (Which.last_answer name rs); [reflexivity|].
  destruct result; cbn [Which.resolved fst snd]; rewrite obj_get_set;
    now destruct (n =? name)%string.
Qed.

(** X20: what [which(name, callback)] does after any series of answers of
    the resolver, starting from the empty cache.  If the resolver has
    answered for [name], the callback gets at once the path of its last
    answer, the empty string if that answer was an error, and the resolver
    is not asked again.  If it has not, the resolver is asked - unless
    [name] is a property that every object inherits: then the callback gets
    that property and the resolver is never asked. *)
Theorem which_answers_from_cache (name : string)
  (rs : list (string * option string)) :
  Which.which inherited name (Which.resolutions rs [])
  = match Which.last_answer name rs with
    | Some p => Which.Answer (Which.Path p)
    | None =>
        if inherited name then Which.Answer (Which.Inherited name)
        else Which.Ask
    end.
Proof.
  unfold Which.which, Which.cache_in, Which.cache_read.
  rewrite resolutions_lookup.
  destruct (Which.last_answer name rs); reflexivity.
Qed.

End WhichFacts.
